(** * Wigner, Clebsch-Gordan, Racah and Gaunt coefficients

    A shallow embedding of [src/sage/functions/wigner.py] and the
    verification of its specification.

    Numbers are modelled by their exact value: every Sage/Python number the
    functions receive is a rational [Q]; [int(x)] is truncation toward zero;
    a number is accepted where Python needs an integer (an index, a range
    bound, [Integer(x)]) exactly when its value is integral.  The kind of a
    number is kept where a result depends on it: [clebsch_gordan] calls the
    method [sqrt] on [2 * j_3 + 1], which Sage numbers have and Python ints
    have not, and multiplies by [(-1) ** int(...)], which Python makes a
    float when the exponent is negative.  ([racah] reaches the same power
    with an exponent that is not negative, and [wigner_6j] multiplies it by
    a Racah value that is 0 when the exponent is negative; both are taken
    by value.)  The global
    list [_Factlist] is threaded through every function as explicit state;
    Python exceptions are an explicit error result that leaves the state as
    it was when the exception was raised. *)

From Stdlib Require Import ZArith QArith Qabs Qround List Bool Lia Reals Qreals.
From Stdlib Require Import Btauto.
From Stdlib Require Lra Lqa.
Import ListNotations.

Set Implicit Arguments.

(** ** Python values, exceptions and the state monad *)

Inductive exn : Type :=
| JValueError        (* "j values must be integer or half integer" *)
| MValueError        (* "m values must be integer or half integer" *)
| TriangleValueError (* "j values must be integer or half integer and
                         fulfill the triangle relation" *)
| TypeError          (* a non-integral number used as an integer *)
| IndexError         (* list index out of range *)
| ZeroDivisionError
| AttributeError.    (* a method of the Sage numbers called on a Python int *)

Inductive res (A : Type) : Type :=
| Ok (a : A)
| Raise (e : exn).
Arguments Raise {A} e.

(** The factorial table [_Factlist]. *)
Definition Factlist := list Z.

(** A computation reads and extends the table and returns or raises. *)
Definition M (A : Type) : Type := Factlist -> res A * Factlist.

Definition ret {A} (a : A) : M A := fun F => (Ok a, F).
Definition raise {A} (e : exn) : M A := fun F => (Raise e, F).
Definition bind {A B} (c : M A) (k : A -> M B) : M B :=
  fun F => match c F with
           | (Ok a, F') => k a F'
           | (Raise e, F') => (Raise e, F')
           end.
Definition lift {A} (r : res A) : M A := fun F => (r, F).

Declare Scope monad_scope.
Delimit Scope monad_scope with monad.
Notation "x <- c ;; k" := (bind c (fun x => k))
  (at level 61, c at next level, right associativity) : monad_scope.
Notation "c ;;; k" := (bind c (fun _ => k))
  (at level 61, right associativity) : monad_scope.
Local Open Scope monad_scope.

(** [for x in l: acc = body(acc, x)] *)
Fixpoint for_fold {A X} (l : list X) (body : A -> X -> M A) (acc : A) : M A :=
  match l with
  | [] => ret acc
  | x :: l' => acc' <- body acc x ;; for_fold l' body acc'
  end.

(** [range(lo, hi)] *)
Definition range (lo hi : Z) : list Z :=
  map (fun k => (lo + Z.of_nat k)%Z) (seq 0 (Z.to_nat (hi - lo))).

(** ** Numbers *)

(** [int(x)]: truncation toward zero. *)
Definition int (x : Q) : Z := Z.quot (Qnum x) (Zpos (Qden x)).

(** [int(x) == x] *)
Definition is_integral (x : Q) : bool := Qeq_bool (inject_Z (int x)) x.

(** [Integer(x)], and a number used as an index or a range bound. *)
Definition to_Integer (x : Q) : res Z :=
  if is_integral x then Ok (int x) else Raise TypeError.

(** [(-1) ** n], by value. *)
Definition pow_m1 (n : Z) : Z := if Z.even n then 1%Z else (-1)%Z.

Definition Qlt_bool (x y : Q) : bool := negb (Qle_bool y x).
Definition Qmax (x y : Q) : Q := if Qle_bool x y then y else x.
Definition Qmin (x y : Q) : Q := if Qle_bool x y then x else y.

(** ** The factorial table *)

(** [_Factlist = [1]] *)
Definition _Factlist_init : Factlist := [1%Z].

(** [l[i]] on a Python list: a negative index counts from the end. *)
Definition getitem (l : list Z) (i : Z) : res Z :=
  let n := Z.of_nat (length l) in
  let i' := if (i <? 0)%Z then (i + n)%Z else i in
  if ((0 <=? i') && (i' <? n))%Z then Ok (nth (Z.to_nat i') l 0%Z)
  else Raise IndexError.

(** [l[:k]] on a Python list. *)
Definition slice_to (l : list Z) (k : Z) : list Z :=
  let n := Z.of_nat (length l) in
  let k' := if (k <? 0)%Z then Z.max 0 (k + n) else Z.min k n in
  firstn (Z.to_nat k') l.

(** [_Factlist[i]] *)
Definition Factlist_get (i : Z) : M Z := fun F => (getitem F i, F).

(** [_Factlist.append(_Factlist[ii - 1] * ii)] *)
Definition Factlist_append_next (_ : unit) (ii : Z) : M unit :=
  fun F => match getitem F (ii - 1) with
           | Ok p => (Ok tt, F ++ [(p * ii)%Z])
           | Raise e => (Raise e, F)
           end.

Definition _calc_factlist (nn : Q) : M (list Z) :=
  fun F =>
    let len := Z.of_nat (length F) in
    let grow : M unit :=
      if Qle_bool (inject_Z len) nn then
        hi <- lift (to_Integer (nn + 1)) ;;
        for_fold (range len hi) Factlist_append_next tt
      else ret tt in
    (grow ;;;
     n <- lift (to_Integer nn) ;;
     fun F' => (Ok (slice_to F' (n + 1)), F')) F.

(** The mathematical factorial, on [Z] (1 below 0). *)
Fixpoint fact_upto (n : nat) : Z :=
  match n with
  | O => 1%Z
  | S k => (Z.of_nat (S k) * fact_upto k)%Z
  end.
Definition factorial (n : Z) : Z := fact_upto (Z.to_nat n).

(** The table invariant: never empty, and entry [i] is [i!]. *)
Definition Factlist_ok (F : Factlist) : Prop :=
  F <> [] /\ forall i : nat, (i < length F)%nat -> nth i F 0%Z = fact_upto i.

(** [F] is an initial segment of [F']: nothing cached was changed or removed. *)
Definition extends (F F' : Factlist) : Prop := exists G, F' = F ++ G.

(** ** Exact results

    With [prec=None] the functions return Sage symbolic constants: rational
    numbers, square roots, [pi], and their products, quotients and sums.
    With a precision the square root is numeric; the node then records the
    precision and stands for the exact number it approximates.  A Python
    float that enters a product is a node of its own. *)

Inductive sym : Type :=
| SQ (q : Q)                                (* an integer or a rational *)
| SPi                                       (* [pi] *)
| SSqrt (prec : option positive) (x : sym)  (* [x.sqrt(prec)] *)
| SMul (x y : sym)
| SDiv (x y : sym)
| SAdd (x y : sym)
| SNum (prec : positive) (x : sym)          (* [x.n(prec)] *)
| SFloat (q : Q).                           (* a Python float *)

(** The real number a result stands for. *)
Fixpoint exact_value (x : sym) : R :=
  match x with
  | SQ q => Q2R q
  | SPi => PI
  | SSqrt _ x => sqrt (exact_value x)
  | SMul x y => (exact_value x * exact_value y)%R
  | SDiv x y => (exact_value x / exact_value y)%R
  | SAdd x y => (exact_value x + exact_value y)%R
  | SNum _ x => exact_value x
  | SFloat q => Q2R q
  end.

(** [x == 0] for a constant.  The program applies it to products of square
    roots of rationals only, where it is decided factor by factor. *)
Fixpoint sym_is_zero (x : sym) : bool :=
  match x with
  | SQ q => Qeq_bool q 0
  | SPi => false
  | SSqrt _ x => sym_is_zero x
  | SMul x y => sym_is_zero x || sym_is_zero y
  | SDiv x _ => sym_is_zero x
  | SAdd x y => sym_is_zero x && sym_is_zero y
  | SNum _ x => sym_is_zero x
  | SFloat q => Qeq_bool q 0
  end.

(** [Integer(n) / d] *)
Definition Integer_div (n d : Z) : M Q :=
  if (d =? 0)%Z then raise ZeroDivisionError else ret (inject_Z n / inject_Z d).

(** [q / d] for a rational [q] and an integer [d] *)
Definition Rational_div (q : Q) (d : Z) : M Q :=
  if (d =? 0)%Z then raise ZeroDivisionError else ret (q / inject_Z d).

(** [_Factlist[i1] * _Factlist[i2] * ...], looked up from left to right. *)
Fixpoint Factlist_prod_from (acc : Z) (idx : list Z) : M Z :=
  match idx with
  | [] => ret acc
  | i :: idx' => f <- Factlist_get i ;; Factlist_prod_from (acc * f) idx'
  end.
Definition Factlist_prod (idx : list Z) : M Z := Factlist_prod_from 1 idx.

(** ** Wigner 3-j *)

(** One pass of the summation loop of [wigner_3j]. *)
Definition sum_3j_step (j_1 j_2 j_3 m_1 m_2 : Q) (sumres : Q) (ii : Z) : M Q :=
  den <- Factlist_prod
           [ ii;
             int (inject_Z ii + j_3 - j_1 - m_2);
             int (j_2 + m_2 - inject_Z ii);
             int (j_1 - inject_Z ii - m_1);
             int (inject_Z ii + j_3 - j_2 + m_1);
             int (j_1 + j_2 - j_3 - inject_Z ii) ] ;;
  t <- Integer_div (pow_m1 ii) den ;;
  ret (sumres + t).

Definition wigner_3j (j_1 j_2 j_3 m_1 m_2 m_3 : Q) (prec : option positive)
  : M sym :=
  if negb (is_integral (j_1 * 2)) || negb (is_integral (j_2 * 2))
     || negb (is_integral (j_3 * 2)) then raise JValueError
  else if negb (is_integral (m_1 * 2)) || negb (is_integral (m_2 * 2))
          || negb (is_integral (m_3 * 2)) then raise MValueError
  else if negb (Qeq_bool (m_1 + m_2 + m_3) 0) then ret (SQ 0)
  else
    let prefid := pow_m1 (int (j_1 - j_2 - m_3)) in
    let m_3 := - m_3 in
    let a1 := j_1 + j_2 - j_3 in
    if Qlt_bool a1 0 then ret (SQ 0) else
    let a2 := j_1 - j_2 + j_3 in
    if Qlt_bool a2 0 then ret (SQ 0) else
    let a3 := - j_1 + j_2 + j_3 in
    if Qlt_bool a3 0 then ret (SQ 0) else
    if Qlt_bool j_1 (Qabs m_1) || Qlt_bool j_2 (Qabs m_2)
       || Qlt_bool j_3 (Qabs m_3) then ret (SQ 0) else
    let maxfact := Qmax (Qmax (Qmax (j_1 + j_2 + j_3 + 1) (j_1 + Qabs m_1))
                              (j_2 + Qabs m_2)) (j_3 + Qabs m_3) in
    _calc_factlist maxfact ;;;
    num <- Factlist_prod
             [ int (j_1 + j_2 - j_3); int (j_1 - j_2 + j_3);
               int (- j_1 + j_2 + j_3);
               int (j_1 - m_1); int (j_1 + m_1);
               int (j_2 - m_2); int (j_2 + m_2);
               int (j_3 - m_3); int (j_3 + m_3) ] ;;
    d <- Factlist_get (int (j_1 + j_2 + j_3 + 1)) ;;
    argsqrt <- Integer_div num d ;;
    (* the radicand is never negative, so the real part is the root itself *)
    let ressqrt := SSqrt prec (SQ argsqrt) in
    let imin := int (Qmax (Qmax (- j_3 + j_1 + m_2) (- j_3 + j_2 - m_1)) 0) in
    let imax := int (Qmin (Qmin (j_2 + m_2) (j_1 - m_1)) (j_1 + j_2 - j_3)) in
    sumres <- for_fold (range imin (imax + 1))
                       (sum_3j_step j_1 j_2 j_3 m_1 m_2) 0 ;;
    ret (SMul (SMul ressqrt (SQ sumres)) (SQ (inject_Z prefid))).

(** ** Clebsch-Gordan *)

(** The argument [j_3] as Python holds it: a Sage number (an [Integer] or a
    [Rational]), or a Python int. *)
Inductive pynum : Type :=
| Sage (q : Q)
| PyInt (z : Z).

(** [(-1) ** n] for a Python int [n], with no [Integer(...)] around it:
    the int 1 or -1 for [n >= 0], the float 1.0 or -1.0 for [n < 0]. *)
Definition py_pow_m1 (n : Z) : sym :=
  if (n <? 0)%Z then SFloat (inject_Z (pow_m1 n)) else SQ (inject_Z (pow_m1 n)).

(** The operands of the returned product are evaluated from left to right:
    the power, then [(2 * j_3 + 1).sqrt(prec)], which is an attribute error
    on a Python int, then the call of [wigner_3j]. *)
Definition clebsch_gordan (j_1 j_2 : Q) (j_3 : pynum) (m_1 m_2 m_3 : Q)
    (prec : option positive) : M sym :=
  let sign := py_pow_m1 (int (j_1 - j_2 + m_3)) in
  match j_3 with
  | PyInt _ => raise AttributeError
  | Sage j_3 =>
      let root := SSqrt prec (SQ (2 * j_3 + 1)) in
      w <- wigner_3j j_1 j_2 j_3 m_1 m_2 (- m_3) prec ;;
      ret (SMul (SMul sign root) w)
  end.

(** ** Delta coefficient, Racah, 6-j and 9-j *)

Definition _big_delta_coeff (aa bb cc : Q) (prec : option positive) : M sym :=
  if negb (is_integral (aa + bb - cc)) then raise TriangleValueError else
  if negb (is_integral (aa + cc - bb)) then raise TriangleValueError else
  if negb (is_integral (bb + cc - aa)) then raise TriangleValueError else
  if Qlt_bool (aa + bb - cc) 0 then ret (SQ 0) else
  if Qlt_bool (aa + cc - bb) 0 then ret (SQ 0) else
  if Qlt_bool (bb + cc - aa) 0 then ret (SQ 0) else
  let maxfact := Qmax (Qmax (Qmax (aa + bb - cc) (aa + cc - bb))
                            (bb + cc - aa)) (aa + bb + cc + 1) in
  _calc_factlist maxfact ;;;
  num <- Factlist_prod
           [ int (aa + bb - cc); int (aa + cc - bb); int (bb + cc - aa) ] ;;
  d <- Factlist_get (int (aa + bb + cc + 1)) ;;
  argsqrt <- Integer_div num d ;;
  ret (SSqrt prec (SQ argsqrt)).

Definition racah_step (aa bb cc dd ee ff : Q) (sumres : Q) (kk : Z) : M Q :=
  let k := inject_Z kk in
  den <- Factlist_prod
           [ int (k - aa - bb - ee); int (k - cc - dd - ee);
             int (k - aa - cc - ff); int (k - bb - dd - ff);
             int (aa + bb + cc + dd - k); int (aa + dd + ee + ff - k);
             int (bb + cc + ee + ff - k) ] ;;
  f <- Factlist_get (kk + 1) ;;
  t <- Integer_div (pow_m1 kk * f) den ;;
  ret (sumres + t).

Definition racah (aa bb cc dd ee ff : Q) (prec : option positive) : M sym :=
  d1 <- _big_delta_coeff aa bb ee prec ;;
  d2 <- _big_delta_coeff cc dd ee prec ;;
  d3 <- _big_delta_coeff aa cc ff prec ;;
  d4 <- _big_delta_coeff bb dd ff prec ;;
  let prefac := SMul (SMul (SMul d1 d2) d3) d4 in
  if sym_is_zero prefac then ret (SQ 0) else
  let imin := int (Qmax (Qmax (Qmax (aa + bb + ee) (cc + dd + ee))
                              (aa + cc + ff)) (bb + dd + ff)) in
  let imax := int (Qmin (Qmin (aa + bb + cc + dd) (aa + dd + ee + ff))
                        (bb + cc + ee + ff)) in
  let maxfact := Qmax (Qmax (Qmax (inject_Z (imax + 1)) (aa + bb + cc + dd))
                            (aa + dd + ee + ff)) (bb + cc + ee + ff) in
  _calc_factlist maxfact ;;;
  sumres <- for_fold (range imin (imax + 1))
                     (racah_step aa bb cc dd ee ff) 0 ;;
  ret (SMul (SMul prefac (SQ sumres))
            (SQ (inject_Z (pow_m1 (int (aa + bb + cc + dd)))))).

Definition wigner_6j (j_1 j_2 j_3 j_4 j_5 j_6 : Q) (prec : option positive)
  : M sym :=
  let sign := pow_m1 (int (j_1 + j_2 + j_4 + j_5)) in
  r <- racah j_1 j_2 j_5 j_4 j_3 j_6 prec ;;
  ret (SMul (SQ (inject_Z sign)) r).

Definition wigner_9j_step (j_1 j_2 j_3 j_4 j_5 j_6 j_7 j_8 j_9 : Q)
    (prec : option positive) (sumres : sym) (kk : Z) : M sym :=
  r1 <- racah j_1 j_2 j_9 j_6 j_3 (inject_Z kk) prec ;;
  r2 <- racah j_4 j_6 j_8 j_2 j_5 (inject_Z kk) prec ;;
  r3 <- racah j_1 j_4 j_9 j_8 j_7 (inject_Z kk) prec ;;
  ret (SAdd sumres
            (SMul (SMul (SMul (SQ (inject_Z (2 * kk + 1))) r1) r2) r3)).

Definition wigner_9j (j_1 j_2 j_3 j_4 j_5 j_6 j_7 j_8 j_9 : Q)
    (prec : option positive) : M sym :=
  let imin := 0%Z in
  let imax := int (Qmin (Qmin (j_1 + j_9) (j_2 + j_6)) (j_4 + j_8)) in
  for_fold (range imin (imax + 1))
           (wigner_9j_step j_1 j_2 j_3 j_4 j_5 j_6 j_7 j_8 j_9 prec) (SQ 0).

(** ** Gaunt *)

Definition gaunt_step (l_1 l_2 l_3 m_1 m_2 : Z) (sumres : Q) (ii : Z) : M Q :=
  den <- Factlist_prod
           [ ii; ii + l_3 - l_1 - m_2; l_2 + m_2 - ii; l_1 - ii - m_1;
             ii + l_3 - l_2 + m_1; l_1 + l_2 - l_3 - ii ]%Z ;;
  t <- Integer_div (pow_m1 ii) den ;;
  ret (sumres + t).

Definition gaunt (l_1 l_2 l_3 m_1 m_2 m_3 : Q) (prec : option positive)
  : M sym :=
  l_1 <- lift (to_Integer l_1) ;;
  l_2 <- lift (to_Integer l_2) ;;
  l_3 <- lift (to_Integer l_3) ;;
  m_1 <- lift (to_Integer m_1) ;;
  m_2 <- lift (to_Integer m_2) ;;
  m_3 <- lift (to_Integer m_3) ;;
  let bigL := inject_Z (l_1 + l_2 + l_3) / 2 in
  let a1 := (l_1 + l_2 - l_3)%Z in
  if (a1 <? 0)%Z then ret (SQ 0) else
  let a2 := (l_1 - l_2 + l_3)%Z in
  if (a2 <? 0)%Z then ret (SQ 0) else
  let a3 := (- l_1 + l_2 + l_3)%Z in
  if (a3 <? 0)%Z then ret (SQ 0) else
  if Z.odd (int (2 * bigL)) then ret (SQ 0) else
  if negb (m_1 + m_2 + m_3 =? 0)%Z then ret (SQ 0) else
  if (l_1 <? Z.abs m_1)%Z || (l_2 <? Z.abs m_2)%Z || (l_3 <? Z.abs m_3)%Z
  then ret (SQ 0) else
  let imin := Z.max (Z.max (- l_3 + l_1 + m_2) (- l_3 + l_2 - m_1)) 0 in
  let imax := Z.min (Z.min (l_2 + m_2) (l_1 - m_1)) (l_1 + l_2 - l_3) in
  let maxfact := Z.max (l_1 + l_2 + l_3 + 1) (imax + 1) in
  _calc_factlist (inject_Z maxfact) ;;;
  num <- Factlist_prod_from ((2 * l_1 + 1) * (2 * l_2 + 1) * (2 * l_3 + 1))
           [ l_1 - m_1; l_1 + m_1; l_2 - m_2; l_2 + m_2; l_3 - m_3;
             l_3 + m_3 ]%Z ;;
  let argsqrt := SDiv (SQ (inject_Z num)) (SMul (SQ 4) SPi) in
  let ressqrt := SSqrt None argsqrt in
  L <- lift (to_Integer bigL) ;;
  p1 <- Factlist_prod [ L; l_2 - l_1 + l_3; l_1 - l_2 + l_3;
                        l_1 + l_2 - l_3 ]%Z ;;
  f <- Factlist_get (2 * L + 1) ;;
  q1 <- Integer_div p1 f ;;
  p2 <- Factlist_prod [ L - l_1; L - l_2; L - l_3 ]%Z ;;
  prefac <- Rational_div q1 p2 ;;
  sumres <- for_fold (range imin (imax + 1))
                     (gaunt_step l_1 l_2 l_3 m_1 m_2) 0 ;;
  let sign := pow_m1 (int (bigL + inject_Z l_3 + inject_Z m_1 - inject_Z m_2)) in
  let res := SMul (SMul (SMul ressqrt (SQ prefac)) (SQ sumres))
                  (SQ (inject_Z sign)) in
  match prec with
  | Some p => ret (SNum p res)
  | None => ret res
  end.

Definition run {A} (c : M A) (F : Factlist) : res A := fst (c F).

(** The table of the first [n] factorials. *)
Definition table (n : nat) : Factlist := map fact_upto (seq 0 n).

(** Linear arithmetic over [Q] and over [R]. *)
Ltac qlra := Lqa.lra.
Ltac rlra := Lra.lra.

(** ** The specification's formulas

    The definitions below follow the words of the specification; the
    theorems compare them with what the code computes from the table. *)

(** [x] is an exact integer. *)
Definition Integral (x : Q) : Prop := exists z : Z, x == inject_Z z.

(** [x!] for a number of integral value. *)
Definition qfact (x : Q) : Q := inject_Z (factorial (int x)).

(** The sum of [f k] over the integers [lo <= k <= hi]. *)
Definition Qsum (lo hi : Z) (f : Z -> Q) : Q :=
  fold_left (fun s k => s + f k) (range lo (hi + 1)) 0.

(** [(-1)^n] as a rational. *)
Definition sgn (n : Z) : Q := inject_Z (pow_m1 n).

(** [(a+b-c)! (a+c-b)! (b+c-a)! / (a+b+c+1)!] *)
Definition delta_radicand (aa bb cc : Q) : Q :=
  qfact (aa + bb - cc) * qfact (aa + cc - bb) * qfact (bb + cc - aa)
  / qfact (aa + bb + cc + 1).

(** What [_big_delta_coeff] returns, whatever the table holds on entry. *)
Definition Delta (aa bb cc : Q) (prec : option positive) : res sym :=
  if is_integral (aa + bb - cc) && is_integral (aa + cc - bb)
     && is_integral (bb + cc - aa) then
    if Qlt_bool (aa + bb - cc) 0 || Qlt_bool (aa + cc - bb) 0
       || Qlt_bool (bb + cc - aa) 0 then Ok (SQ 0)
    else Ok (SSqrt prec (SQ (delta_radicand aa bb cc)))
  else Raise TriangleValueError.

(** The summand of the Racah sum at [k]:
    [(-1)^k (k+1)!] over the seven factorials. *)
Definition racah_term (aa bb cc dd ee ff : Q) (kk : Z) : Q :=
  let k := inject_Z kk in
  sgn kk * qfact (k + 1)
  / (qfact (k - aa - bb - ee) * qfact (k - cc - dd - ee)
     * qfact (k - aa - cc - ff) * qfact (k - bb - dd - ff)
     * qfact (aa + bb + cc + dd - k) * qfact (aa + dd + ee + ff - k)
     * qfact (bb + cc + ee + ff - k)).

(** The bounds of the Racah sum. *)
Definition racah_imin (aa bb cc dd ee ff : Q) : Z :=
  int (Qmax (Qmax (Qmax (aa + bb + ee) (cc + dd + ee)) (aa + cc + ff))
            (bb + dd + ff)).
Definition racah_imax (aa bb cc dd ee ff : Q) : Z :=
  int (Qmin (Qmin (aa + bb + cc + dd) (aa + dd + ee + ff))
            (bb + cc + ee + ff)).

(** Sequencing of results: the first error wins. *)
Definition res_bind {A B} (r : res A) (k : A -> res B) : res B :=
  match r with
  | Ok a => k a
  | Raise e => Raise e
  end.

(** What [racah] returns, whatever the table holds on entry. *)
Definition Racah (aa bb cc dd ee ff : Q) (prec : option positive) : res sym :=
  res_bind (Delta aa bb ee prec) (fun d1 =>
  res_bind (Delta cc dd ee prec) (fun d2 =>
  res_bind (Delta aa cc ff prec) (fun d3 =>
  res_bind (Delta bb dd ff prec) (fun d4 =>
  let prefac := SMul (SMul (SMul d1 d2) d3) d4 in
  if sym_is_zero prefac then Ok (SQ 0) else
  Ok (SMul (SMul prefac
                 (SQ (Qsum (racah_imin aa bb cc dd ee ff)
                           (racah_imax aa bb cc dd ee ff)
                           (racah_term aa bb cc dd ee ff))))
           (SQ (sgn (int (aa + bb + cc + dd))))))))).

(** Every index of a list of [int] indices lies in the table, by [Hidx]. *)
Ltac table_indices Hidx :=
  repeat (apply Forall_cons; [apply Hidx; qlra|]); apply Forall_nil.

(** The same with a second fact [HidxZ] for indices that are integers. *)
Ltac table_indices2 Hidx HidxZ :=
  repeat (apply Forall_cons;
          [first [apply Hidx; qlra | apply HidxZ; [lia | qlra]]|]);
  apply Forall_nil.

(** A product of rationals and of square roots of non-negative rationals,
    read as [(c, r)] for [c * sqrt r]. *)
Fixpoint monomial (x : sym) : option (Q * Q) :=
  match x with
  | SQ q => Some (q, 1)
  | SSqrt _ (SQ q) => if Qle_bool 0 q then Some (1, q) else None
  | SMul a b =>
      match monomial a, monomial b with
      | Some (c1, r1), Some (c2, r2) => Some (c1 * c2, r1 * r2)
      | _, _ => None
      end
  | _ => None
  end.


(** What [wigner_6j] returns, whatever the table holds on entry. *)
Definition Wigner6j (j_1 j_2 j_3 j_4 j_5 j_6 : Q) (prec : option positive)
  : res sym :=
  res_bind (Racah j_1 j_2 j_5 j_4 j_3 j_6 prec) (fun r =>
  Ok (SMul (SQ (sgn (int (j_1 + j_2 + j_4 + j_5)))) r)).

(** The real number a returned result stands for (0 for an error). *)
Definition value_of (r : res sym) : R :=
  match r with
  | Ok v => exact_value v
  | Raise _ => 0%R
  end.

(** The sum of [f k] over the integers [lo <= k <= hi], in the reals. *)
Definition Rsum (lo hi : Z) (f : Z -> R) : R :=
  fold_left (fun s k => (s + f k)%R) (range lo (hi + 1)) 0%R.

(** [for x in l: acc = body(acc, x)] on results. *)
Fixpoint res_fold {A X} (l : list X) (body : A -> X -> res A) (acc : A)
  : res A :=
  match l with
  | [] => Ok acc
  | x :: l' => res_bind (body acc x) (res_fold l' body)
  end.

(** The upper bound of the 9-j sum. *)
Definition wigner_9j_imax (j_1 j_2 j_4 j_6 j_8 j_9 : Q) : Z :=
  int (Qmin (Qmin (j_1 + j_9) (j_2 + j_6)) (j_4 + j_8)).

(** The term of the 9-j sum at [k]. *)
Definition Wigner9j_term (j_1 j_2 j_3 j_4 j_5 j_6 j_7 j_8 j_9 : Q)
    (prec : option positive) (kk : Z) : res sym :=
  res_bind (Racah j_1 j_2 j_9 j_6 j_3 (inject_Z kk) prec) (fun r1 =>
  res_bind (Racah j_4 j_6 j_8 j_2 j_5 (inject_Z kk) prec) (fun r2 =>
  res_bind (Racah j_1 j_4 j_9 j_8 j_7 (inject_Z kk) prec) (fun r3 =>
  Ok (SMul (SMul (SMul (SQ (inject_Z (2 * kk + 1))) r1) r2) r3)))).

(** What [wigner_9j] returns, whatever the table holds on entry. *)
Definition Wigner9j (j_1 j_2 j_3 j_4 j_5 j_6 j_7 j_8 j_9 : Q)
    (prec : option positive) : res sym :=
  res_fold (range 0 (wigner_9j_imax j_1 j_2 j_4 j_6 j_8 j_9 + 1))
    (fun sumres kk =>
       res_bind (Wigner9j_term j_1 j_2 j_3 j_4 j_5 j_6 j_7 j_8 j_9 prec kk)
                (fun t => Ok (SAdd sumres t)))
    (SQ 0).

(** The radicand of the 3-j symbol:
    [(j1+j2-j3)!(j1-j2+j3)!(-j1+j2+j3)!(j1-m1)!(j1+m1)!(j2-m2)!(j2+m2)!
     (j3-m3)!(j3+m3)! / (j1+j2+j3+1)!]. *)
Definition w3j_radicand (j_1 j_2 j_3 m_1 m_2 m_3 : Q) : Q :=
  qfact (j_1 + j_2 - j_3) * qfact (j_1 - j_2 + j_3)
  * qfact (- j_1 + j_2 + j_3)
  * qfact (j_1 - m_1) * qfact (j_1 + m_1)
  * qfact (j_2 - m_2) * qfact (j_2 + m_2)
  * qfact (j_3 - m_3) * qfact (j_3 + m_3)
  / qfact (j_1 + j_2 + j_3 + 1).

(** The summand of the 3-j sum at [k]: [(-1)^k] over the six factorials. *)
Definition w3j_term (j_1 j_2 j_3 m_1 m_2 : Q) (kk : Z) : Q :=
  let k := inject_Z kk in
  sgn kk
  / (qfact k * qfact (k + j_3 - j_1 - m_2) * qfact (j_2 + m_2 - k)
     * qfact (j_1 - k - m_1) * qfact (k + j_3 - j_2 + m_1)
     * qfact (j_1 + j_2 - j_3 - k)).

(** The bounds of the 3-j sum. *)
Definition w3j_imin (j_1 j_2 j_3 m_1 m_2 : Q) : Z :=
  int (Qmax (Qmax (- j_3 + j_1 + m_2) (- j_3 + j_2 - m_1)) 0).
Definition w3j_imax (j_1 j_2 j_3 m_1 m_2 : Q) : Z :=
  int (Qmin (Qmin (j_2 + m_2) (j_1 - m_1)) (j_1 + j_2 - j_3)).

(** [x] is an integer or a half integer. *)
Definition HalfIntegral (x : Q) : Prop := Integral (x * 2).

(** A selection rule of the 3-j symbol fails. *)
Definition w3j_rule_fails (j_1 j_2 j_3 m_1 m_2 m_3 : Q) : bool :=
  negb (Qeq_bool (m_1 + m_2 + m_3) 0)
  || Qlt_bool (j_1 + j_2 - j_3) 0 || Qlt_bool (j_1 - j_2 + j_3) 0
  || Qlt_bool (- j_1 + j_2 + j_3) 0
  || Qlt_bool j_1 (Qabs m_1) || Qlt_bool j_2 (Qabs m_2)
  || Qlt_bool j_3 (Qabs (- m_3)).

(** What [wigner_3j] returns, whatever the table holds on entry. *)
Definition Wigner3j (j_1 j_2 j_3 m_1 m_2 m_3 : Q) (prec : option positive)
  : res sym :=
  if negb (is_integral (j_1 * 2) && is_integral (j_2 * 2)
           && is_integral (j_3 * 2)) then Raise JValueError
  else if negb (is_integral (m_1 * 2) && is_integral (m_2 * 2)
                && is_integral (m_3 * 2)) then Raise MValueError
  else if w3j_rule_fails j_1 j_2 j_3 m_1 m_2 m_3 then Ok (SQ 0)
  else if negb (is_integral (j_1 + j_2 + j_3)) then Raise TypeError
  else
    Ok (SMul (SMul (SSqrt prec (SQ (w3j_radicand j_1 j_2 j_3 m_1 m_2 (- m_3))))
                   (SQ (Qsum (w3j_imin j_1 j_2 j_3 m_1 m_2)
                             (w3j_imax j_1 j_2 j_3 m_1 m_2)
                             (w3j_term j_1 j_2 j_3 m_1 m_2))))
             (SQ (sgn (int (j_1 - j_2 - m_3))))).

(** The inputs that pass the half-integer validation and every selection
    rule of the 3-j symbol. *)
Definition w3j_admissible (j_1 j_2 j_3 m_1 m_2 m_3 : Q) : Prop :=
  (HalfIntegral j_1 /\ HalfIntegral j_2 /\ HalfIntegral j_3)
  /\ (HalfIntegral m_1 /\ HalfIntegral m_2 /\ HalfIntegral m_3)
  /\ m_1 + m_2 + m_3 == 0
  /\ (0 <= j_1 + j_2 - j_3 /\ 0 <= j_1 - j_2 + j_3 /\ 0 <= - j_1 + j_2 + j_3)
  /\ (Qabs m_1 <= j_1 /\ Qabs m_2 <= j_2 /\ Qabs m_3 <= j_3).

(** [n!] as a rational, for an integer [n]. *)
Definition zfact (n : Z) : Q := inject_Z (factorial n).

(** A selection rule of the Gaunt coefficient fails. *)
Definition gaunt_rule_fails (l_1 l_2 l_3 m_1 m_2 m_3 : Z) : bool :=
  (l_1 + l_2 - l_3 <? 0)%Z || (l_1 - l_2 + l_3 <? 0)%Z
  || (- l_1 + l_2 + l_3 <? 0)%Z
  || Z.odd (l_1 + l_2 + l_3)
  || negb (m_1 + m_2 + m_3 =? 0)%Z
  || (l_1 <? Z.abs m_1)%Z || (l_2 <? Z.abs m_2)%Z || (l_3 <? Z.abs m_3)%Z.

(** [(2l1+1)(2l2+1)(2l3+1)(l1-m1)!(l1+m1)!(l2-m2)!(l2+m2)!(l3-m3)!(l3+m3)!],
    the radicand of the Gaunt coefficient before the division by [4 pi]. *)
Definition gaunt_radicand_num (l_1 l_2 l_3 m_1 m_2 m_3 : Z) : Q :=
  inject_Z (2 * l_1 + 1) * inject_Z (2 * l_2 + 1) * inject_Z (2 * l_3 + 1)
  * zfact (l_1 - m_1) * zfact (l_1 + m_1)
  * zfact (l_2 - m_2) * zfact (l_2 + m_2)
  * zfact (l_3 - m_3) * zfact (l_3 + m_3).

(** [L!(l2-l1+l3)!(l1-l2+l3)!(l1+l2-l3)! / [(2L+1)!(L-l1)!(L-l2)!(L-l3)!]]
    with [L = (l1+l2+l3)/2]. *)
Definition gaunt_prefac (l_1 l_2 l_3 : Z) : Q :=
  let L := ((l_1 + l_2 + l_3) / 2)%Z in
  zfact L * zfact (l_2 - l_1 + l_3) * zfact (l_1 - l_2 + l_3)
  * zfact (l_1 + l_2 - l_3)
  / zfact (2 * L + 1)
  / (zfact (L - l_1) * zfact (L - l_2) * zfact (L - l_3)).

(** The summand of the Gaunt sum at [i]. *)
Definition gaunt_term (l_1 l_2 l_3 m_1 m_2 : Z) (ii : Z) : Q :=
  sgn ii
  / (zfact ii * zfact (ii + l_3 - l_1 - m_2) * zfact (l_2 + m_2 - ii)
     * zfact (l_1 - ii - m_1) * zfact (ii + l_3 - l_2 + m_1)
     * zfact (l_1 + l_2 - l_3 - ii)).

Definition gaunt_imin (l_1 l_2 l_3 m_1 m_2 : Z) : Z :=
  Z.max (Z.max (- l_3 + l_1 + m_2) (- l_3 + l_2 - m_1)) 0.
Definition gaunt_imax (l_1 l_2 l_3 m_1 m_2 : Z) : Z :=
  Z.min (Z.min (l_2 + m_2) (l_1 - m_1)) (l_1 + l_2 - l_3).

(** The sign [(-1)^(L+l3+m1-m2)] of the Gaunt coefficient. *)
Definition gaunt_sign (l_1 l_2 l_3 m_1 m_2 : Z) : Q :=
  sgn ((l_1 + l_2 + l_3) / 2 + l_3 + m_1 - m_2).

(** What [gaunt] returns on integers, whatever the table holds on entry. *)
Definition GauntZ (l_1 l_2 l_3 m_1 m_2 m_3 : Z) (prec : option positive)
  : res sym :=
  if gaunt_rule_fails l_1 l_2 l_3 m_1 m_2 m_3 then Ok (SQ 0) else
  let res :=
    SMul (SMul (SMul (SSqrt None
                        (SDiv (SQ (gaunt_radicand_num l_1 l_2 l_3 m_1 m_2 m_3))
                              (SMul (SQ 4) SPi)))
                     (SQ (gaunt_prefac l_1 l_2 l_3)))
               (SQ (Qsum (gaunt_imin l_1 l_2 l_3 m_1 m_2)
                         (gaunt_imax l_1 l_2 l_3 m_1 m_2)
                         (gaunt_term l_1 l_2 l_3 m_1 m_2))))
         (SQ (gaunt_sign l_1 l_2 l_3 m_1 m_2)) in
  match prec with
  | Some p => Ok (SNum p res)
  | None => Ok res
  end.

(** What [gaunt] returns, whatever the table holds on entry. *)
Definition Gaunt (l_1 l_2 l_3 m_1 m_2 m_3 : Q) (prec : option positive)
  : res sym :=
  res_bind (to_Integer l_1) (fun l_1 =>
  res_bind (to_Integer l_2) (fun l_2 =>
  res_bind (to_Integer l_3) (fun l_3 =>
  res_bind (to_Integer m_1) (fun m_1 =>
  res_bind (to_Integer m_2) (fun m_2 =>
  res_bind (to_Integer m_3) (fun m_3 =>
  GauntZ l_1 l_2 l_3 m_1 m_2 m_3 prec)))))).

(** ** The 3-j symbol on integers

    For inputs whose [j_i - m_i = p_i] and [j_i + m_i = q_i] are integers
    the 3-j symbol is a function of the six integers: a permutation of the
    columns permutes the indices, and negating the [m_i] swaps [p] and
    [q]. *)

(** The selection rules: [m_1+m_2+m_3 = 0], the triangle and [|m_i| <= j_i]. *)
Definition w3jZ_ok (p1 p2 p3 q1 q2 q3 : Z) : bool :=
  ((p1 + p2 + p3 =? q1 + q2 + q3)
   && (0 <=? p1 + p2 - q3) && (0 <=? p1 + p3 - q2) && (0 <=? p2 + p3 - q1)
   && (0 <=? p1) && (0 <=? q1) && (0 <=? p2) && (0 <=? q2)
   && (0 <=? p3) && (0 <=? q3))%Z.

Definition w3jZ_radicand (p1 p2 p3 q1 q2 q3 : Z) : Q :=
  zfact (p1 + p2 - q3) * zfact (p1 + p3 - q2) * zfact (p2 + p3 - q1)
  * zfact p1 * zfact q1 * zfact p2 * zfact q2 * zfact q3 * zfact p3
  / zfact (p1 + p2 + p3 + 1).

Definition w3jZ_term (p1 p2 p3 q1 q2 q3 : Z) (k : Z) : Q :=
  sgn k
  / (zfact k * zfact (k + (q3 - p1)) * zfact (q2 - k) * zfact (p1 - k)
     * zfact (k + (p3 - q2)) * zfact (p1 + p2 - q3 - k)).

Definition w3jZ_sum (p1 p2 p3 q1 q2 q3 : Z) : Q :=
  Qsum (Z.max (Z.max (p1 - q3) (q2 - p3)) 0)
       (Z.min (Z.min q2 p1) (p1 + p2 - q3))
       (w3jZ_term p1 p2 p3 q1 q2 q3).

(** The sign [(-1)^(j_1-j_2-m_3)] times the sum. *)
Definition w3jZ_signed_sum (p1 p2 p3 q1 q2 q3 : Z) : Q :=
  sgn (q1 - p2) * w3jZ_sum p1 p2 p3 q1 q2 q3.

Definition W3jZ (p1 p2 p3 q1 q2 q3 : Z) (prec : option positive) : res sym :=
  if w3jZ_ok p1 p2 p3 q1 q2 q3 then
    Ok (SMul (SMul (SSqrt prec (SQ (w3jZ_radicand p1 p2 p3 q1 q2 q3)))
                   (SQ (w3jZ_sum p1 p2 p3 q1 q2 q3)))
             (SQ (sgn (q1 - p2))))
  else Ok (SQ 0).


(** [r] is a returned value that stands for the real number [x]. *)
Definition returns (r : res sym) (x : R) : Prop :=
  exists v, r = Ok v /\ exact_value v = x.

(** Give equal arguments of the factorials in the goal the same form. *)
Ltac unify_zfact :=
  repeat match goal with
         | |- context [zfact ?x] =>
             match goal with
             | |- context [zfact ?y] =>
                 lazymatch x with
                 | y => fail
                 | _ => replace x with y by lia
                 end
             end
         end.

(** ** Further notions

    What a call does to the table, what [clebsch_gordan] returns, and what
    the results of the Racah, 6-j, 9-j and Gaunt functions depend on. *)

(** A call keeps the table: it leaves a table that satisfies the invariant
    and starts with the table it found. *)
Definition keeps_table {A} (c : M A) (F : Factlist) : Prop :=
  Factlist_ok (snd (c F)) /\ extends F (snd (c F)).


(** Two results agree: the same exception, or values that stand for the
    same real number. *)
Definition same_result (r r' : res sym) : Prop :=
  match r, r' with
  | Ok v, Ok v' => exact_value v = exact_value v'
  | Raise e, Raise e' => e = e'
  | _, _ => False
  end.

(** What [clebsch_gordan] returns, whatever the table holds on entry. *)
Definition Clebsch (j_1 j_2 : Q) (j_3 : pynum) (m_1 m_2 m_3 : Q)
    (prec : option positive) : res sym :=
  match j_3 with
  | PyInt _ => Raise AttributeError
  | Sage j_3 =>
      res_bind (Wigner3j j_1 j_2 j_3 m_1 m_2 (- m_3) prec) (fun w =>
      Ok (SMul (SMul (py_pow_m1 (int (j_1 - j_2 + m_3)))
                     (SSqrt prec (SQ (2 * j_3 + 1)))) w))
  end.

(** A result is exact: it holds no float and no number of a limited
    precision. *)
Fixpoint is_exact (x : sym) : bool :=
  match x with
  | SQ _ => true
  | SPi => true
  | SSqrt None x => is_exact x
  | SSqrt (Some _) _ => false
  | SMul x y => is_exact x && is_exact y
  | SDiv x y => is_exact x && is_exact y
  | SAdd x y => is_exact x && is_exact y
  | SNum _ _ => false
  | SFloat _ => false
  end.

(** The three checks of [_big_delta_coeff] that raise: [a+b-c], [a+c-b] and
    [b+c-a] are integers. *)
Definition triad_ok (a b c : Q) : bool :=
  is_integral (a + b - c) && is_integral (a + c - b) && is_integral (b + c - a).

(** The three checks of [_big_delta_coeff] that return 0: one of [a+b-c],
    [a+c-b], [b+c-a] is negative. *)
Definition triad_neg (a b c : Q) : bool :=
  Qlt_bool (a + b - c) 0 || Qlt_bool (a + c - b) 0 || Qlt_bool (b + c - a) 0.

(** The four triads of [racah(aa,bb,cc,dd,ee,ff)]. *)
Definition racah_ok (aa bb cc dd ee ff : Q) : bool :=
  triad_ok aa bb ee && triad_ok cc dd ee && triad_ok aa cc ff
  && triad_ok bb dd ff.

Definition racah_neg (aa bb cc dd ee ff : Q) : bool :=
  triad_neg aa bb ee || triad_neg cc dd ee || triad_neg aa cc ff
  || triad_neg bb dd ff.

(** The Racah coefficient without its sign [(-1)^(aa+bb+cc+dd)], where no
    triangle fails: the four Delta coefficients times the sum. *)
Definition racah_real (aa bb cc dd ee ff : Q) : R :=
  (sqrt (Q2R (delta_radicand aa bb ee)) * sqrt (Q2R (delta_radicand cc dd ee))
   * sqrt (Q2R (delta_radicand aa cc ff)) * sqrt (Q2R (delta_radicand bb dd ff))
   * Q2R (Qsum (racah_imin aa bb cc dd ee ff) (racah_imax aa bb cc dd ee ff)
               (racah_term aa bb cc dd ee ff)))%R.

(** What the Racah coefficient depends on, its sign apart. *)
Definition racah_sig (aa bb cc dd ee ff : Q) : bool * bool * R :=
  (racah_ok aa bb cc dd ee ff, racah_neg aa bb cc dd ee ff,
   racah_real aa bb cc dd ee ff).

(** What the 6-j symbol depends on. *)
Definition w6j_sig (j_1 j_2 j_3 j_4 j_5 j_6 : Q) : bool * bool * R :=
  racah_sig j_1 j_2 j_5 j_4 j_3 j_6.


(** The six coercions [Integer(l_i)], [Integer(m_i)] of [gaunt] succeed. *)
Definition gaunt_integral (l_1 l_2 l_3 m_1 m_2 m_3 : Q) : bool :=
  is_integral l_1 && is_integral l_2 && is_integral l_3
  && is_integral m_1 && is_integral m_2 && is_integral m_3.

(** The real value of the Gaunt coefficient on integers. *)
Definition gauntZ_value (l_1 l_2 l_3 m_1 m_2 m_3 : Z) : R :=
  if gaunt_rule_fails l_1 l_2 l_3 m_1 m_2 m_3 then 0%R
  else (sqrt (Q2R (gaunt_radicand_num l_1 l_2 l_3 m_1 m_2 m_3) / (Q2R 4 * PI))
        * Q2R (gaunt_prefac l_1 l_2 l_3)
        * Q2R (Qsum (gaunt_imin l_1 l_2 l_3 m_1 m_2)
                    (gaunt_imax l_1 l_2 l_3 m_1 m_2)
                    (gaunt_term l_1 l_2 l_3 m_1 m_2)
               * gaunt_sign l_1 l_2 l_3 m_1 m_2))%R.

(** What the Gaunt coefficient depends on. *)
Definition gaunt_sig (l_1 l_2 l_3 m_1 m_2 m_3 : Q) : bool * R :=
  (gaunt_integral l_1 l_2 l_3 m_1 m_2 m_3,
   gauntZ_value (int l_1) (int l_2) (int l_3) (int m_1) (int m_2) (int m_3)).

(* ================================================================== *)
(** * Verification *)

(** ** The monad *)

Lemma bind_ok {A B} (c : M A) (k : A -> M B) F a F' :
  c F = (Ok a, F') -> bind c k F = k a F'.
Proof. unfold bind. intros ->. reflexivity. Qed.

Lemma bind_raise {A B} (c : M A) (k : A -> M B) F e F' :
  c F = (Raise e, F') -> bind c k F = (Raise e, F').
Proof. unfold bind. intros ->. reflexivity. Qed.

Lemma for_fold_pure {A X} (l : list X) (body : A -> X -> M A)
    (g : A -> X -> A) (F : Factlist) :
  (forall a x, In x l -> body a x F = (Ok (g a x), F)) ->
  forall a0, for_fold l body a0 F = (Ok (fold_left g l a0), F).
Proof.
  induction l as [|x l IH]; intros Hb a0; simpl.
  - reflexivity.
  - rewrite (bind_ok _ _ _ (Hb a0 x (or_introl eq_refl))).
    apply IH. intros a y Hy. apply Hb. now right.
Qed.

(** ** Ranges *)

Lemma range_nil lo hi : (hi <= lo)%Z -> range lo hi = [].
Proof.
  intros H. unfold range.
  replace (Z.to_nat (hi - lo)) with 0%nat by lia. reflexivity.
Qed.

Lemma range_cons lo hi : (lo < hi)%Z -> range lo hi = lo :: range (lo + 1) hi.
Proof.
  intros H. unfold range.
  replace (Z.to_nat (hi - lo)) with (S (Z.to_nat (hi - (lo + 1)))) by lia.
  simpl. f_equal; [lia|].
  rewrite <- seq_shift, map_map. apply map_ext. intros k. lia.
Qed.

Lemma range_snoc lo hi :
  (lo <= hi)%Z -> range lo (hi + 1) = range lo hi ++ [hi].
Proof.
  intros H. unfold range.
  replace (Z.to_nat (hi + 1 - lo)) with (Z.to_nat (hi - lo) + 1)%nat by lia.
  rewrite seq_app, map_app. simpl. do 2 f_equal. lia.
Qed.

Lemma in_range lo hi k : In k (range lo hi) <-> (lo <= k < hi)%Z.
Proof.
  unfold range. rewrite in_map_iff. split.
  - intros (n & <- & Hn). apply in_seq in Hn. lia.
  - intros Hk. exists (Z.to_nat (k - lo)). split; [lia|].
    apply in_seq. lia.
Qed.

Lemma range_length lo hi : length (range lo hi) = Z.to_nat (hi - lo).
Proof. unfold range. now rewrite length_map, length_seq. Qed.

(** ** Factorials and the table *)

Lemma fact_upto_pos n : (0 < fact_upto n)%Z.
Proof.
  induction n; cbn [fact_upto]; [lia|].
  apply Z.mul_pos_pos; [lia | assumption].
Qed.

Lemma factorial_pos n : (0 < factorial n)%Z.
Proof. apply fact_upto_pos. Qed.

Lemma factorial_0 : factorial 0 = 1%Z.
Proof. reflexivity. Qed.

Lemma factorial_succ n :
  (0 <= n)%Z -> factorial (n + 1) = ((n + 1) * factorial n)%Z.
Proof.
  intros H. unfold factorial.
  replace (Z.to_nat (n + 1)) with (S (Z.to_nat n)) by lia.
  cbn [fact_upto]. f_equal. lia.
Qed.

Lemma table_length n : length (table n) = n.
Proof. unfold table. now rewrite length_map, length_seq. Qed.

Lemma table_nth n i : (i < n)%nat -> nth i (table n) 0%Z = fact_upto i.
Proof.
  intros H. unfold table.
  rewrite (nth_indep _ 0%Z (fact_upto 0)) by now rewrite length_map, length_seq.
  rewrite map_nth, seq_nth by assumption. reflexivity.
Qed.

Lemma table_succ n : table (S n) = table n ++ [fact_upto n].
Proof. unfold table. now rewrite seq_S, map_app. Qed.

Lemma table_app n m : (n <= m)%nat -> exists G, table m = table n ++ G.
Proof.
  intros H. unfold table.
  replace m with (n + (m - n))%nat by lia.
  rewrite seq_app, map_app. eauto.
Qed.

Lemma Factlist_ok_table F : Factlist_ok F <-> exists k, F = table (S k).
Proof.
  split.
  - intros [Hne Hnth]. destruct F as [|z F]; [congruence|].
    exists (length F). apply (nth_ext _ _ 0%Z 0%Z).
    + now rewrite table_length.
    + intros i Hi. rewrite Hnth by assumption.
      symmetry. apply table_nth. exact Hi.
  - intros [k ->]. split.
    + rewrite table_succ. intros H. now apply app_eq_nil in H.
    + intros i Hi. rewrite table_length in Hi. now apply table_nth.
Qed.

Lemma Factlist_init_ok : Factlist_ok _Factlist_init.
Proof. apply Factlist_ok_table. exists 0%nat. reflexivity. Qed.

Lemma getitem_table n i :
  (0 <= i < Z.of_nat n)%Z -> getitem (table n) i = Ok (factorial i).
Proof.
  intros H. unfold getitem. rewrite table_length.
  destruct (Z.ltb_spec i 0); [lia|].
  destruct (Z.leb_spec 0 i); [|lia].
  destruct (Z.ltb_spec i (Z.of_nat n)); [|lia].
  simpl. rewrite table_nth by lia. reflexivity.
Qed.

Lemma getitem_ok F i :
  Factlist_ok F -> (0 <= i < Z.of_nat (length F))%Z ->
  getitem F i = Ok (factorial i).
Proof.
  intros HF Hi. apply Factlist_ok_table in HF as [k ->].
  apply getitem_table. now rewrite table_length in Hi.
Qed.

Lemma slice_to_table n k :
  (0 <= k <= Z.of_nat n)%Z -> slice_to (table n) k = table (Z.to_nat k).
Proof.
  intros H. unfold slice_to. rewrite table_length.
  destruct (Z.ltb_spec k 0); [lia|].
  rewrite Z.min_l by lia.
  destruct (table_app (n := Z.to_nat k) (m := n)) as [G ->]; [lia|].
  rewrite firstn_app, table_length, Nat.sub_diag, firstn_O, app_nil_r.
  rewrite <- (table_length (Z.to_nat k)) at 1. apply firstn_all.
Qed.

Lemma table_range n : table n = map factorial (range 0 (Z.of_nat n)).
Proof.
  unfold table, range. rewrite map_map, Z.sub_0_r, Nat2Z.id.
  apply map_ext. intros k. unfold factorial. simpl. now rewrite Nat2Z.id.
Qed.

(** ** Truncation and integrality *)

Lemma int_floor_ceiling x :
  int x = if Qle_bool 0 x then Qfloor x else Qceiling x.
Proof.
  destruct x as [a b]. unfold int, Qle_bool, Qceiling, Qfloor, Qopp. simpl.
  rewrite Z.mul_1_r.
  destruct (Z.leb_spec 0 a) as [H|H].
  - apply Z.quot_div_nonneg; lia.
  - rewrite <- (Z.opp_involutive a) at 1.
    rewrite Z.quot_opp_l by lia. f_equal.
    apply Z.quot_div_nonneg; lia.
Qed.

Lemma int_Qeq x y : x == y -> int x = int y.
Proof.
  intros H. rewrite !int_floor_ceiling.
  assert (E : Qle_bool 0 x = Qle_bool 0 y).
  { apply eq_true_iff_eq. rewrite !Qle_bool_iff. now rewrite H. }
  rewrite E. destruct (Qle_bool 0 y).
  - now apply Qfloor_comp.
  - now apply Qceiling_comp.
Qed.

Lemma int_inject_Z z : int (inject_Z z) = z.
Proof. unfold int. simpl. apply Z.quot_1_r. Qed.

Lemma int_of x z : x == inject_Z z -> int x = z.
Proof. intros H. rewrite (int_Qeq H). apply int_inject_Z. Qed.

Lemma is_integral_true x : is_integral x = true <-> x == inject_Z (int x).
Proof.
  unfold is_integral. rewrite Qeq_bool_iff. split; intros H; now symmetry.
Qed.

Lemma is_integral_of x z : x == inject_Z z -> is_integral x = true.
Proof.
  intros H. apply is_integral_true. now rewrite (int_of H).
Qed.

Lemma is_integral_false x :
  is_integral x = false <-> forall z, ~ x == inject_Z z.
Proof.
  split.
  - intros H z Hz. now rewrite (is_integral_of Hz) in H.
  - intros H. destruct (is_integral x) eqn:E; [|reflexivity].
    apply is_integral_true in E. now apply H in E.
Qed.

Lemma to_Integer_of x z : x == inject_Z z -> to_Integer x = Ok z.
Proof.
  intros H. unfold to_Integer.
  now rewrite (is_integral_of H), (int_of H).
Qed.

Lemma int_nonneg x : -1 < x -> (0 <= int x)%Z.
Proof.
  intros H. rewrite int_floor_ceiling.
  destruct (Qle_bool 0 x) eqn:E.
  - apply Qle_bool_iff in E.
    change 0%Z with (Qfloor 0). now apply Qfloor_resp_le.
  - pose proof (Qle_ceiling x) as H1.
    assert (H2 : inject_Z (-1) < inject_Z (Qceiling x)).
    { change (inject_Z (-1)) with (-1). qlra. }
    rewrite <- Zlt_Qlt in H2. lia.
Qed.

Lemma int_le_of x n : 0 <= x -> x <= inject_Z n -> (int x <= n)%Z.
Proof.
  intros H0 H. rewrite int_floor_ceiling.
  apply Qle_bool_iff in H0. rewrite H0.
  rewrite <- (Qfloor_Z n). now apply Qfloor_resp_le.
Qed.

Lemma int_le x : 0 <= x -> inject_Z (int x) <= x.
Proof.
  intros H0. rewrite int_floor_ceiling.
  apply Qle_bool_iff in H0. rewrite H0. apply Qfloor_le.
Qed.

Lemma int_gt x : x - 1 < inject_Z (int x).
Proof.
  rewrite int_floor_ceiling. destruct (Qle_bool 0 x) eqn:E.
  - pose proof (Qlt_floor x) as H.
    rewrite inject_Z_plus in H. change (inject_Z 1) with 1 in H. qlra.
  - pose proof (Qle_ceiling x) as H. qlra.
Qed.

(** An index computed by [int] lies in a table that covers [n]. *)
Lemma int_index x n : -1 < x -> x <= inject_Z n -> (0 <= int x <= n)%Z.
Proof.
  intros H1 H2. split; [now apply int_nonneg|].
  destruct (Qlt_le_dec x 0) as [Hx|Hx].
  - assert (Hn : (0 <= n)%Z).
    { destruct (Z.le_gt_cases 0 n) as [|C]; [assumption|exfalso].
      assert (inject_Z n <= -1).
      { change (-1) with (inject_Z (-1)). rewrite <- Zle_Qle. lia. }
      qlra. }
    assert (Hi : (int x <= 0)%Z); [|lia].
    rewrite int_floor_ceiling.
    assert (E : Qle_bool 0 x = false).
    { destruct (Qle_bool 0 x) eqn:E; [|reflexivity].
      apply Qle_bool_iff in E. qlra. }
    rewrite E. change 0%Z with (Qceiling 0).
    apply Qceiling_resp_le. qlra.
  - now apply int_le_of.
Qed.

Lemma Qlt_bool_iff x y : Qlt_bool x y = true <-> x < y.
Proof.
  unfold Qlt_bool. rewrite negb_true_iff. split.
  - intros H. apply Qnot_le_lt. intros C. apply Qle_bool_iff in C. congruence.
  - intros H. destruct (Qle_bool y x) eqn:E; [|reflexivity].
    apply Qle_bool_iff in E. qlra.
Qed.

Lemma Qlt_bool_false x y : Qlt_bool x y = false <-> y <= x.
Proof.
  unfold Qlt_bool. rewrite negb_false_iff. apply Qle_bool_iff.
Qed.

Lemma Qle_bool_false x y : Qle_bool x y = false <-> y < x.
Proof.
  split.
  - intros H. apply Qnot_le_lt. intros C. apply Qle_bool_iff in C. congruence.
  - intros H. destruct (Qle_bool x y) eqn:E; [|reflexivity].
    apply Qle_bool_iff in E. qlra.
Qed.

Lemma Qeq_bool_false x y : Qeq_bool x y = false <-> ~ x == y.
Proof.
  split.
  - intros H C. apply Qeq_bool_iff in C. congruence.
  - intros H. destruct (Qeq_bool x y) eqn:E; [|reflexivity].
    apply Qeq_bool_iff in E. contradiction.
Qed.

Lemma Qmax_spec x y : (x <= y /\ Qmax x y = y) \/ (y < x /\ Qmax x y = x).
Proof.
  unfold Qmax. destruct (Qle_bool x y) eqn:E.
  - left. now apply Qle_bool_iff in E.
  - right. now apply Qle_bool_false in E.
Qed.

Lemma Qmin_spec x y : (x <= y /\ Qmin x y = x) \/ (y < x /\ Qmin x y = y).
Proof.
  unfold Qmin. destruct (Qle_bool x y) eqn:E.
  - left. now apply Qle_bool_iff in E.
  - right. now apply Qle_bool_false in E.
Qed.

(** ** [_calc_factlist] *)

Lemma Factlist_append_next_table n :
  (1 <= n)%nat ->
  Factlist_append_next tt (Z.of_nat n) (table n) = (Ok tt, table (S n)).
Proof.
  intros H. unfold Factlist_append_next.
  rewrite getitem_table by lia.
  rewrite table_succ. do 3 f_equal.
  unfold factorial. replace (Z.to_nat (Z.of_nat n - 1)) with (n - 1)%nat by lia.
  destruct n as [|n]; [lia|].
  replace (S n - 1)%nat with n by lia. cbn [fact_upto]. lia.
Qed.

Lemma grow_table m : forall n,
  (1 <= n)%nat ->
  for_fold (range (Z.of_nat n) (Z.of_nat (n + m))) Factlist_append_next tt
           (table n) = (Ok tt, table (n + m)).
Proof.
  induction m as [|m IH]; intros n Hn.
  - rewrite Nat.add_0_r, range_nil by lia. reflexivity.
  - rewrite range_cons by lia. cbn [for_fold].
    rewrite (bind_ok _ _ _ (Factlist_append_next_table Hn)).
    replace (Z.of_nat n + 1)%Z with (Z.of_nat (S n)) by lia.
    replace (n + S m)%nat with (S n + m)%nat by lia.
    apply IH. lia.
Qed.

Lemma calc_factlist_table k nn n :
  nn == inject_Z n ->
  let F' := table (Nat.max (S k) (Z.to_nat (n + 1))) in
  _calc_factlist nn (table (S k)) = (Ok (slice_to F' (n + 1)), F').
Proof.
  intros Hnn F'. unfold _calc_factlist. rewrite table_length.
  assert (H1 : nn + 1 == inject_Z (n + 1)).
  { rewrite inject_Z_plus, Hnn. reflexivity. }
  match goal with |- bind ?g _ _ = _ =>
    assert (G : g (table (S k)) = (Ok tt, F')) end.
  { destruct (Qle_bool (inject_Z (Z.of_nat (S k))) nn) eqn:E.
    - apply Qle_bool_iff in E. rewrite Hnn, <- Zle_Qle in E.
      unfold bind at 1, lift. rewrite (to_Integer_of H1).
      replace (n + 1)%Z with (Z.of_nat (S k + (Z.to_nat (n + 1) - S k)))
        by lia.
      rewrite grow_table by lia. subst F'. do 2 f_equal. lia.
    - apply Qle_bool_false in E. rewrite Hnn, <- Zlt_Qlt in E.
      unfold ret. subst F'. do 2 f_equal. lia. }
  rewrite (bind_ok _ _ _ G).
  unfold bind, lift. now rewrite (to_Integer_of Hnn).
Qed.

Lemma calc_factlist_ok F nn n :
  Factlist_ok F -> nn == inject_Z n ->
  exists F',
    _calc_factlist nn F = (Ok (slice_to F' (n + 1)), F')
    /\ Factlist_ok F' /\ extends F F'
    /\ Z.of_nat (length F') = Z.max (Z.of_nat (length F)) (n + 1).
Proof.
  intros HF Hnn. apply Factlist_ok_table in HF as [k ->].
  eexists. split; [apply (calc_factlist_table k Hnn)|].
  split; [|split].
  - apply Factlist_ok_table. exists (Nat.max (S k) (Z.to_nat (n + 1)) - 1)%nat.
    f_equal. lia.
  - apply table_app. lia.
  - rewrite !table_length. lia.
Qed.

Lemma calc_factlist_TypeError F nn :
  is_integral nn = false -> _calc_factlist nn F = (Raise TypeError, F).
Proof.
  intros H. unfold _calc_factlist.
  assert (H1 : is_integral (nn + 1) = false).
  { apply is_integral_false. intros z Hz.
    rewrite is_integral_false in H. apply (H (z - 1)%Z).
    unfold Z.sub. rewrite inject_Z_plus, <- Hz.
    change (inject_Z (- (1))%Z) with (-1). qlra. }
  destruct (Qle_bool _ nn).
  - unfold bind, lift, to_Integer. now rewrite H1.
  - unfold bind, lift, ret, to_Integer. now rewrite H.
Qed.

(** C10.  The factorial table keeps the invariant that entry [i] is [i!]:
    from a table that satisfies it, a call [_calc_factlist(n)] with [n >= 0]
    returns the list [[0!, 1!, ..., n!]] and leaves a table that satisfies
    the invariant, has every index [0..n] holding [i!], got each new entry
    as the previous entry times the new index, starts with the old table
    unchanged, and on which a further call with the same or a smaller
    argument returns without touching the table. *)
Theorem calc_factlist_keeps_table (F : Factlist) (n : Z) :
  Factlist_ok F -> (0 <= n)%Z ->
  exists F',
    _calc_factlist (inject_Z n) F = (Ok (map factorial (range 0 (n + 1))), F')
    /\ Factlist_ok F'
    /\ (forall i, (0 <= i <= n)%Z -> getitem F' i = Ok (factorial i))
    /\ (forall i, (Z.of_nat (length F) <= i <= n)%Z ->
          exists p, getitem F' (i - 1) = Ok p /\ getitem F' i = Ok (p * i)%Z)
    /\ extends F F'
    /\ (forall m, (m <= n)%Z ->
          exists l, _calc_factlist (inject_Z m) F' = (Ok l, F')).
Proof.
  intros HF Hn.
  destruct (calc_factlist_ok (n := n) HF (Qeq_refl _))
    as (F' & Hrun & HF' & Hext & Hlen).
  assert (Hget : forall i, (0 <= i <= n)%Z -> getitem F' i = Ok (factorial i)).
  { intros i Hi. apply getitem_ok; [assumption | lia]. }
  exists F'. repeat split; try assumption.
  - rewrite Hrun. do 2 f_equal.
    destruct (proj1 (Factlist_ok_table F') HF') as [k Hk].
    rewrite Hk in Hlen |- *. rewrite table_length in Hlen.
    rewrite slice_to_table by lia.
    rewrite table_range. do 2 f_equal. lia.
  - apply HF'.
  - apply HF'.
  - intros i Hi. exists (factorial (i - 1)).
    assert (Hpos : (1 <= Z.of_nat (length F))%Z).
    { destruct HF as [Hne _]. destruct F; [congruence | simpl; lia]. }
    split; [apply Hget; lia|].
    rewrite Hget by lia. f_equal.
    replace i with ((i - 1) + 1)%Z at 1 by lia.
    rewrite factorial_succ by lia. ring.
  - intros m Hm.
    destruct (calc_factlist_ok (n := m) HF' (Qeq_refl _))
      as (F'' & Hrun' & HF'' & [G HG] & Hlen').
    exists (slice_to F'' (m + 1)). rewrite Hrun'. f_equal.
    assert (HlenG : length G = 0%nat).
    { apply (f_equal (@length Z)) in HG. rewrite length_app in HG. lia. }
    destruct G; [|discriminate]. now rewrite app_nil_r in HG.
Qed.

Lemma calc_factlist_keeps_table_witness :
  exists F',
    _calc_factlist (inject_Z 4) _Factlist_init
    = (Ok (map factorial (range 0 (4 + 1))), F')
    /\ Factlist_ok F'
    /\ (forall i, (0 <= i <= 4)%Z -> getitem F' i = Ok (factorial i))
    /\ (forall i, (Z.of_nat (length _Factlist_init) <= i <= 4)%Z ->
          exists p, getitem F' (i - 1) = Ok p /\ getitem F' i = Ok (p * i)%Z)
    /\ extends _Factlist_init F'
    /\ (forall m, (m <= 4)%Z ->
          exists l, _calc_factlist (inject_Z m) F' = (Ok l, F')).
Proof.
  apply (@calc_factlist_keeps_table _Factlist_init 4).
  - split; [discriminate|].
    intros [|i] Hi; [reflexivity | simpl in Hi; lia].
  - lia.
Defined.

(** ** Reading the table *)

Lemma Factlist_get_ok F i :
  Factlist_ok F -> (0 <= i < Z.of_nat (length F))%Z ->
  Factlist_get i F = (Ok (factorial i), F).
Proof. intros HF Hi. unfold Factlist_get. now rewrite getitem_ok. Qed.

Lemma Factlist_prod_from_ok F idx :
  Factlist_ok F ->
  Forall (fun i => (0 <= i < Z.of_nat (length F))%Z) idx ->
  forall acc,
    Factlist_prod_from acc idx F
    = (Ok (fold_left (fun a i => (a * factorial i)%Z) idx acc), F).
Proof.
  intros HF Hidx. induction Hidx as [|i idx Hi _ IH]; intros acc; simpl.
  - reflexivity.
  - rewrite (bind_ok _ _ _ (Factlist_get_ok HF Hi)). apply IH.
Qed.

Lemma Factlist_prod_ok F idx :
  Factlist_ok F ->
  Forall (fun i => (0 <= i < Z.of_nat (length F))%Z) idx ->
  Factlist_prod idx F
  = (Ok (fold_left (fun a i => (a * factorial i)%Z) idx 1%Z), F).
Proof. intros. now apply Factlist_prod_from_ok. Qed.

Lemma fold_fact_pos idx : forall acc,
  (0 < acc)%Z -> (0 < fold_left (fun a i => (a * factorial i)%Z) idx acc)%Z.
Proof.
  induction idx as [|i idx IH]; intros acc H; simpl; [assumption|].
  apply IH. apply Z.mul_pos_pos; [assumption | apply factorial_pos].
Qed.

Lemma Integer_div_ok n d F :
  (d <> 0)%Z -> Integer_div n d F = (Ok (inject_Z n / inject_Z d), F).
Proof.
  intros H. unfold Integer_div.
  destruct (Z.eqb_spec d 0); [contradiction | reflexivity].
Qed.

Lemma Rational_div_ok q d F :
  (d <> 0)%Z -> Rational_div q d F = (Ok (q / inject_Z d), F).
Proof.
  intros H. unfold Rational_div.
  destruct (Z.eqb_spec d 0); [contradiction | reflexivity].
Qed.

Lemma bind_get_ok {B} F i (k : Z -> M B) :
  Factlist_ok F -> (0 <= i < Z.of_nat (length F))%Z ->
  bind (Factlist_get i) k F = k (factorial i) F.
Proof. intros HF Hi. apply bind_ok. now apply Factlist_get_ok. Qed.

Lemma bind_prod_from_ok {B} F idx acc (k : Z -> M B) :
  Factlist_ok F ->
  Forall (fun i => (0 <= i < Z.of_nat (length F))%Z) idx ->
  bind (Factlist_prod_from acc idx) k F
  = k (fold_left (fun a i => (a * factorial i)%Z) idx acc) F.
Proof. intros HF Hi. apply bind_ok. now apply Factlist_prod_from_ok. Qed.

Lemma bind_prod_ok {B} F idx (k : Z -> M B) :
  Factlist_ok F ->
  Forall (fun i => (0 <= i < Z.of_nat (length F))%Z) idx ->
  bind (Factlist_prod idx) k F
  = k (fold_left (fun a i => (a * factorial i)%Z) idx 1%Z) F.
Proof. intros HF Hi. apply bind_ok. now apply Factlist_prod_ok. Qed.

Lemma bind_Integer_div_ok {B} n d F (k : Q -> M B) :
  (d <> 0)%Z ->
  bind (Integer_div n d) k F = k (inject_Z n / inject_Z d) F.
Proof. intros H. apply bind_ok. now apply Integer_div_ok. Qed.

Lemma bind_Rational_div_ok {B} q d F (k : Q -> M B) :
  (d <> 0)%Z ->
  bind (Rational_div q d) k F = k (q / inject_Z d) F.
Proof. intros H. apply bind_ok. now apply Rational_div_ok. Qed.

Lemma Integral_iff x : Integral x <-> is_integral x = true.
Proof.
  split.
  - intros [z Hz]. exact (is_integral_of Hz).
  - intros H. exists (int x). now apply is_integral_true.
Qed.

Lemma not_Integral_iff x : ~ Integral x <-> is_integral x = false.
Proof.
  rewrite Integral_iff. destruct (is_integral x); split; congruence.
Qed.

Lemma Integral_int x : Integral x -> x == inject_Z (int x).
Proof. intros H. now apply is_integral_true, Integral_iff. Qed.

Lemma Qmax_r x y : x <= y -> Qmax x y = y.
Proof. intros H. unfold Qmax. apply Qle_bool_iff in H. now rewrite H. Qed.

Lemma Qmax_l x y : y < x -> Qmax x y = x.
Proof. intros H. unfold Qmax. apply Qle_bool_false in H. now rewrite H. Qed.

Lemma Qmax_lub x y z : x <= z -> y <= z -> Qmax x y <= z.
Proof. intros. destruct (Qmax_spec x y) as [[_ ->]|[_ ->]]; assumption. Qed.

Lemma Qmax_ge_l x y : x <= Qmax x y.
Proof. destruct (Qmax_spec x y) as [[H ->]|[H ->]]; qlra. Qed.

Lemma Qmax_ge_r x y : y <= Qmax x y.
Proof. destruct (Qmax_spec x y) as [[H ->]|[H ->]]; qlra. Qed.

Lemma Qmin_glb x y z : z <= x -> z <= y -> z <= Qmin x y.
Proof. intros. destruct (Qmin_spec x y) as [[_ ->]|[_ ->]]; assumption. Qed.

Lemma Qmin_le_l x y : Qmin x y <= x.
Proof. destruct (Qmin_spec x y) as [[H ->]|[H ->]]; qlra. Qed.

Lemma Qmin_le_r x y : Qmin x y <= y.
Proof. destruct (Qmin_spec x y) as [[H ->]|[H ->]]; qlra. Qed.

(** ** The Delta coefficient *)

(** Three integral triangle sums make [aa+bb+cc+1] integral as well. *)
Lemma triangle_sum_Integral aa bb cc :
  Integral (aa + bb - cc) -> Integral (aa + cc - bb) ->
  Integral (bb + cc - aa) -> Integral (aa + bb + cc + 1).
Proof.
  intros [x Hx] [y Hy] [z Hz]. exists (x + y + z + 1)%Z.
  rewrite !inject_Z_plus. change (inject_Z 1) with 1. qlra.
Qed.

Lemma big_delta_coeff_run F aa bb cc prec :
  Factlist_ok F ->
  exists F',
    _big_delta_coeff aa bb cc prec F = (Delta aa bb cc prec, F')
    /\ Factlist_ok F' /\ extends F F'.
Proof.
  intros HF. unfold _big_delta_coeff, Delta.
  assert (Hsame : exists F', (@Raise sym TriangleValueError, F)
                             = (Raise TriangleValueError, F')
                             /\ Factlist_ok F' /\ extends F F').
  { exists F. repeat split; try apply HF. exists []. now rewrite app_nil_r. }
  assert (Hzero : exists F', (Ok (SQ 0), F) = (Ok (SQ 0), F')
                             /\ Factlist_ok F' /\ extends F F').
  { exists F. repeat split; try apply HF. exists []. now rewrite app_nil_r. }
  destruct (is_integral (aa + bb - cc)) eqn:I1; [|exact Hsame].
  destruct (is_integral (aa + cc - bb)) eqn:I2; [|exact Hsame].
  destruct (is_integral (bb + cc - aa)) eqn:I3; [|exact Hsame].
  cbn [negb andb].
  destruct (Qlt_bool (aa + bb - cc) 0) eqn:N1; [exact Hzero|].
  destruct (Qlt_bool (aa + cc - bb) 0) eqn:N2; [exact Hzero|].
  destruct (Qlt_bool (bb + cc - aa) 0) eqn:N3; [exact Hzero|].
  cbn [orb]. clear Hsame Hzero.
  apply Qlt_bool_false in N1, N2, N3.
  apply Integral_iff in I1, I2, I3.
  pose proof (Integral_int (triangle_sum_Integral I1 I2 I3)) as Hn.
  set (n := int (aa + bb + cc + 1)) in *.
  rewrite Qmax_r by (repeat apply Qmax_lub; qlra).
  destruct (calc_factlist_ok HF Hn) as (F' & Hrun & HF' & Hext & Hlen).
  exists F'. split; [|now split].
  rewrite (bind_ok _ _ _ Hrun).
  assert (Hidx : forall x, -1 < x -> x <= aa + bb + cc + 1 ->
                 (0 <= int x < Z.of_nat (length F'))%Z).
  { intros x H1 H2. rewrite Hn in H2.
    pose proof (int_index H1 H2). lia. }
  rewrite bind_prod_ok
    by (try assumption; table_indices Hidx).
  rewrite bind_get_ok by (try assumption; apply Hidx; qlra).
  rewrite bind_Integer_div_ok by (pose proof (factorial_pos n); lia).
  unfold ret. cbn [fold_left]. rewrite Z.mul_1_l.
  reflexivity.
Qed.

Lemma run_eq {A} (c : M A) F r F' : c F = (r, F') -> run c F = r.
Proof. unfold run. now intros ->. Qed.

Lemma big_delta_coeff_value F aa bb cc prec :
  Factlist_ok F -> run (_big_delta_coeff aa bb cc prec) F = Delta aa bb cc prec.
Proof.
  intros HF. destruct (big_delta_coeff_run aa bb cc prec HF) as (F' & H & _).
  exact (run_eq _ _ H).
Qed.

Lemma qfact_pos x : 0 < qfact x.
Proof.
  unfold qfact. change 0 with (inject_Z 0). rewrite <- Zlt_Qlt.
  apply factorial_pos.
Qed.

Lemma delta_radicand_pos aa bb cc : 0 < delta_radicand aa bb cc.
Proof.
  unfold delta_radicand.
  apply Qlt_shift_div_l; [apply qfact_pos|]. rewrite Qmult_0_l.
  repeat apply Qmult_lt_0_compat; apply qfact_pos.
Qed.

(** C8.  On a table that satisfies the invariant, [_big_delta_coeff]
    raises its validation error exactly when one of [aa+bb-cc], [aa+cc-bb],
    [bb+cc-aa] is not an exact integer; when all three are integers it
    returns the integer 0 exactly when one of them is negative, and
    otherwise the square root of the positive radicand
    [(aa+bb-cc)!(aa+cc-bb)!(bb+cc-aa)!/(aa+bb+cc+1)!]. *)
Theorem big_delta_coeff_spec (F : Factlist) (aa bb cc : Q)
    (prec : option positive) :
  Factlist_ok F ->
  let r := run (_big_delta_coeff aa bb cc prec) F in
  let neg := aa + bb - cc < 0 \/ aa + cc - bb < 0 \/ bb + cc - aa < 0 in
  (r = Raise TriangleValueError <->
     ~ Integral (aa + bb - cc) \/ ~ Integral (aa + cc - bb)
     \/ ~ Integral (bb + cc - aa))
  /\ (Integral (aa + bb - cc) -> Integral (aa + cc - bb) ->
      Integral (bb + cc - aa) ->
      (r = Ok (SQ 0) <-> neg)
      /\ (~ neg ->
          r = Ok (SSqrt prec (SQ (delta_radicand aa bb cc)))
          /\ 0 < delta_radicand aa bb cc
          /\ exact_value (SSqrt prec (SQ (delta_radicand aa bb cc)))
             = sqrt (Q2R (delta_radicand aa bb cc)))).
Proof.
  intros HF r neg. subst r neg.
  rewrite (big_delta_coeff_value aa bb cc prec HF). unfold Delta.
  rewrite !not_Integral_iff, !Integral_iff. split.
  - destruct (is_integral (aa + bb - cc)), (is_integral (aa + cc - bb)),
      (is_integral (bb + cc - aa)); cbn [andb];
      try (split; [intros _; tauto | reflexivity]).
    split; [|intros [C|[C|C]]; discriminate].
    destruct (_ || _); discriminate.
  - intros -> -> ->. cbn [andb]. rewrite <- !Qlt_bool_iff.
    pose proof (delta_radicand_pos aa bb cc) as Hpos.
    destruct (Qlt_bool (aa + bb - cc) 0), (Qlt_bool (aa + cc - bb) 0),
      (Qlt_bool (bb + cc - aa) 0); cbn [orb];
      try (split; [split; [intros _; tauto | reflexivity] | tauto]).
    split.
    + split; [discriminate | intros [C|[C|C]]; discriminate].
    + intros _. split; [reflexivity | split; [|reflexivity]].
      now apply Qlt_bool_iff.
Qed.

Lemma big_delta_coeff_spec_witness :
  let r := run (_big_delta_coeff 1 1 1 None) _Factlist_init in
  let neg := 1 + 1 - 1 < 0 \/ 1 + 1 - 1 < 0 \/ 1 + 1 - 1 < 0 in
  (r = Raise TriangleValueError <->
     ~ Integral (1 + 1 - 1) \/ ~ Integral (1 + 1 - 1)
     \/ ~ Integral (1 + 1 - 1))
  /\ (Integral (1 + 1 - 1) -> Integral (1 + 1 - 1) ->
      Integral (1 + 1 - 1) ->
      (r = Ok (SQ 0) <-> neg)
      /\ (~ neg ->
          r = Ok (SSqrt None (SQ (delta_radicand 1 1 1)))
          /\ 0 < delta_radicand 1 1 1
          /\ exact_value (SSqrt None (SQ (delta_radicand 1 1 1)))
             = sqrt (Q2R (delta_radicand 1 1 1)))).
Proof.
  apply (@big_delta_coeff_spec _Factlist_init 1 1 1 None).
  split; [discriminate|].
  intros [|i] Hi; [reflexivity | simpl in Hi; lia].
Defined.

(** ** Summation loops *)

Lemma sum_loop_ok (F : Factlist) (step : Q -> Z -> M Q) (t : Z -> Q) lo hi :
  (forall s k, (lo <= k <= hi)%Z -> step s k F = (Ok (s + t k), F)) ->
  for_fold (range lo (hi + 1)) step 0 F = (Ok (Qsum lo hi t), F).
Proof.
  intros H. unfold Qsum. apply for_fold_pure.
  intros a x Hx. apply in_range in Hx. apply H. lia.
Qed.

Lemma bind_sum_loop_ok {B} (F : Factlist) (step : Q -> Z -> M Q) (t : Z -> Q)
    lo hi (k : Q -> M B) :
  (forall s i, (lo <= i <= hi)%Z -> step s i F = (Ok (s + t i), F)) ->
  bind (for_fold (range lo (hi + 1)) step 0) k F = k (Qsum lo hi t) F.
Proof. intros H. apply bind_ok. now apply sum_loop_ok. Qed.

Lemma extends_refl F : extends F F.
Proof. exists []. now rewrite app_nil_r. Qed.

Lemma extends_trans F G H : extends F G -> extends G H -> extends F H.
Proof.
  intros [X ->] [Y ->]. exists (X ++ Y). now rewrite app_assoc.
Qed.

Lemma Qmax_Integral x y : Integral x -> Integral y -> Integral (Qmax x y).
Proof. intros. unfold Qmax. now destruct (Qle_bool x y). Qed.

Lemma Qmin_Integral x y : Integral x -> Integral y -> Integral (Qmin x y).
Proof. intros. unfold Qmin. now destruct (Qle_bool x y). Qed.

Lemma Integral_inject_Z z : Integral (inject_Z z).
Proof. now exists z. Qed.

(** ** Racah *)

Lemma Delta_nonzero aa bb cc prec d :
  Delta aa bb cc prec = Ok d -> sym_is_zero d = false ->
  (Integral (aa + bb - cc) /\ Integral (aa + cc - bb)
   /\ Integral (bb + cc - aa))
  /\ (0 <= aa + bb - cc /\ 0 <= aa + cc - bb /\ 0 <= bb + cc - aa).
Proof.
  unfold Delta. rewrite !Integral_iff, <- !Qlt_bool_false.
  destruct (is_integral (aa + bb - cc)), (is_integral (aa + cc - bb)),
    (is_integral (bb + cc - aa)); cbn [andb]; try discriminate.
  destruct (Qlt_bool (aa + bb - cc) 0), (Qlt_bool (aa + cc - bb) 0),
    (Qlt_bool (bb + cc - aa) 0); cbn [orb];
    intros [= <-]; cbn [sym_is_zero]; try discriminate; tauto.
Qed.

Lemma Qmax4_ge a b c d :
  let m := Qmax (Qmax (Qmax a b) c) d in
  a <= m /\ b <= m /\ c <= m /\ d <= m.
Proof.
  intros m. subst m.
  pose proof (Qmax_ge_l (Qmax (Qmax a b) c) d).
  pose proof (Qmax_ge_r (Qmax (Qmax a b) c) d).
  pose proof (Qmax_ge_l (Qmax a b) c).
  pose proof (Qmax_ge_r (Qmax a b) c).
  pose proof (Qmax_ge_l a b).
  pose proof (Qmax_ge_r a b).
  repeat split; qlra.
Qed.

Lemma Qmax3_ge a b c :
  let m := Qmax (Qmax a b) c in a <= m /\ b <= m /\ c <= m.
Proof.
  intros m. subst m.
  pose proof (Qmax_ge_l (Qmax a b) c).
  pose proof (Qmax_ge_r (Qmax a b) c).
  pose proof (Qmax_ge_l a b).
  pose proof (Qmax_ge_r a b).
  repeat split; qlra.
Qed.

Lemma Qmin3_le a b c :
  let m := Qmin (Qmin a b) c in m <= a /\ m <= b /\ m <= c.
Proof.
  intros m. subst m.
  pose proof (Qmin_le_l (Qmin a b) c).
  pose proof (Qmin_le_r (Qmin a b) c).
  pose proof (Qmin_le_l a b).
  pose proof (Qmin_le_r a b).
  repeat split; qlra.
Qed.

Lemma Qmin3_glb a b c z :
  z <= a -> z <= b -> z <= c -> z <= Qmin (Qmin a b) c.
Proof. intros. repeat apply Qmin_glb; assumption. Qed.

Lemma racah_run F aa bb cc dd ee ff prec :
  Factlist_ok F ->
  exists F',
    racah aa bb cc dd ee ff prec F = (Racah aa bb cc dd ee ff prec, F')
    /\ Factlist_ok F' /\ extends F F'.
Proof.
  intros HF. unfold racah, Racah.
  destruct (big_delta_coeff_run aa bb ee prec HF) as (F1 & R1 & HF1 & E1).
  destruct (Delta aa bb ee prec) as [d1|e] eqn:D1;
    [rewrite (bind_ok _ _ _ R1)
    | rewrite (bind_raise _ _ _ R1); exists F1;
      split; [reflexivity | split; assumption]].
  destruct (big_delta_coeff_run cc dd ee prec HF1) as (F2 & R2 & HF2 & E2).
  pose proof (extends_trans E1 E2) as E12.
  destruct (Delta cc dd ee prec) as [d2|e] eqn:D2;
    [rewrite (bind_ok _ _ _ R2)
    | rewrite (bind_raise _ _ _ R2); exists F2;
      split; [reflexivity | split; assumption]].
  destruct (big_delta_coeff_run aa cc ff prec HF2) as (F3 & R3 & HF3 & E3).
  pose proof (extends_trans E12 E3) as E13.
  destruct (Delta aa cc ff prec) as [d3|e] eqn:D3;
    [rewrite (bind_ok _ _ _ R3)
    | rewrite (bind_raise _ _ _ R3); exists F3;
      split; [reflexivity | split; assumption]].
  destruct (big_delta_coeff_run bb dd ff prec HF3) as (F4 & R4 & HF4 & E4).
  pose proof (extends_trans E13 E4) as E14.
  destruct (Delta bb dd ff prec) as [d4|e] eqn:D4;
    [rewrite (bind_ok _ _ _ R4)
    | rewrite (bind_raise _ _ _ R4); exists F4;
      split; [reflexivity | split; assumption]].
  cbn [res_bind].
  destruct (sym_is_zero (SMul (SMul (SMul d1 d2) d3) d4)) eqn:Z.
  { exists F4. split; [reflexivity | split; assumption]. }
  cbn [sym_is_zero] in Z. rewrite !orb_false_iff in Z.
  destruct Z as [[[Z1 Z2] Z3] Z4].
  destruct (Delta_nonzero _ _ _ _ D1 Z1) as [(I1 & I2 & I3) (P1 & P2 & P3)].
  destruct (Delta_nonzero _ _ _ _ D2 Z2) as [(I4 & I5 & I6) (P4 & P5 & P6)].
  destruct (Delta_nonzero _ _ _ _ D3 Z3) as [(I7 & I8 & I9) (P7 & P8 & P9)].
  destruct (Delta_nonzero _ _ _ _ D4 Z4) as [(Ia & Ib & Ic) (Pa & Pb & Pc)].
  fold (racah_imin aa bb cc dd ee ff). fold (racah_imax aa bb cc dd ee ff).
  set (imin := racah_imin aa bb cc dd ee ff).
  set (imax := racah_imax aa bb cc dd ee ff).
  set (maxfact := Qmax _ (bb + cc + ee + ff)).
  assert (Hint : Integral maxfact).
  { subst maxfact. repeat apply Qmax_Integral.
    - apply Integral_inject_Z.
    - destruct I1 as [x Hx], I4 as [y Hy], I2 as [z Hz], I3 as [w Hw].
      exists (x + y + z + w)%Z. rewrite !inject_Z_plus. qlra.
    - destruct I2 as [x Hx], Ia as [y Hy], Ib as [z Hz], Ic as [w Hw].
      exists (x + y + z + w)%Z. rewrite !inject_Z_plus. qlra.
    - destruct I3 as [x Hx], I7 as [y Hy], Ib as [z Hz], Ic as [w Hw].
      exists (x + y + z + w)%Z. rewrite !inject_Z_plus. qlra. }
  pose proof (Integral_int Hint) as Hn.
  destruct (calc_factlist_ok HF4 Hn) as (F5 & R5 & HF5 & E5 & Hlen).
  exists F5. split; [|split; [assumption | exact (extends_trans E14 E5)]].
  rewrite (bind_ok _ _ _ R5).
  assert (Hidx : forall x, -1 < x -> x <= maxfact ->
                 (0 <= int x < Z.of_nat (length F5))%Z).
  { intros x H1 H2. rewrite Hn in H2. pose proof (int_index H1 H2). lia. }
  destruct (Qmax4_ge (inject_Z (imax + 1)) (aa + bb + cc + dd)
              (aa + dd + ee + ff) (bb + cc + ee + ff)) as (M1 & M2 & M3 & M4).
  fold maxfact in M1, M2, M3, M4.
  destruct (Qmax4_ge (aa + bb + ee) (cc + dd + ee) (aa + cc + ff)
              (bb + dd + ff)) as (L1 & L2 & L3 & L4).
  pose proof (int_gt (Qmax (Qmax (Qmax (aa + bb + ee) (cc + dd + ee))
                                 (aa + cc + ff)) (bb + dd + ff))) as Lmin.
  fold (racah_imin aa bb cc dd ee ff) in Lmin. fold imin in Lmin.
  destruct (Qmin3_le (aa + bb + cc + dd) (aa + dd + ee + ff)
              (bb + cc + ee + ff)) as (U1 & U2 & U3).
  assert (Umax : inject_Z imax <= Qmin (Qmin (aa + bb + cc + dd)
                   (aa + dd + ee + ff)) (bb + cc + ee + ff)).
  { apply int_le. apply Qmin3_glb; qlra. }
  rewrite inject_Z_plus in M1. change (inject_Z 1) with 1 in M1.
  assert (Hmin0 : (0 <= imin)%Z) by (apply int_nonneg; qlra).
  rewrite (bind_sum_loop_ok _ (racah_term aa bb cc dd ee ff)).
  { reflexivity. }
  intros s kk Hk. unfold racah_step.
  assert (K0 : 0 <= inject_Z kk).
  { change 0 with (inject_Z 0). rewrite <- Zle_Qle. lia. }
  assert (K1 : inject_Z imin <= inject_Z kk) by (rewrite <- Zle_Qle; lia).
  assert (K2 : inject_Z kk <= inject_Z imax) by (rewrite <- Zle_Qle; lia).
  rewrite bind_prod_ok
    by (try assumption; table_indices Hidx).
  assert (Hk1 : (0 <= kk + 1 < Z.of_nat (length F5))%Z).
  { rewrite <- (int_inject_Z (kk + 1)). apply Hidx;
      rewrite inject_Z_plus; change (inject_Z 1) with 1; qlra. }
  rewrite bind_get_ok by assumption.
  rewrite bind_Integer_div_ok
    by (apply Z.neq_sym, Z.lt_neq, fold_fact_pos; lia).
  unfold ret. do 3 f_equal.
  unfold racah_term, qfact, sgn. cbn [fold_left]. rewrite Z.mul_1_l.
  rewrite (int_of (x := inject_Z kk + 1) (z := (kk + 1)%Z))
    by (now rewrite inject_Z_plus).
  reflexivity.
Qed.

(** ** Exact values *)

Lemma Q2R_0 : Q2R 0 = 0%R.
Proof. unfold Q2R. simpl. rlra. Qed.

Lemma Q2R_1 : Q2R 1 = 1%R.
Proof. unfold Q2R. simpl. rlra. Qed.

Lemma Q2R_nonneg q : 0 <= q -> (0 <= Q2R q)%R.
Proof. intros H. rewrite <- Q2R_0. now apply Qle_Rle. Qed.

Lemma Q2R_pos q : 0 < q -> (0 < Q2R q)%R.
Proof. intros H. rewrite <- Q2R_0. now apply Qlt_Rlt. Qed.

Lemma monomial_value x : forall c r,
  monomial x = Some (c, r) ->
  0 <= r /\ exact_value x = (Q2R c * sqrt (Q2R r))%R.
Proof.
  induction x as [q| |p x IH|a IHa b IHb| | | |]; intros c r H;
    cbn [monomial] in H; try discriminate.
  - injection H as <- <-. split; [discriminate|].
    cbn [exact_value]. rewrite Q2R_1, sqrt_1. rlra.
  - destruct x as [q| | | | | | |]; try discriminate.
    destruct (Qle_bool 0 q) eqn:E; [|discriminate].
    injection H as <- <-. apply Qle_bool_iff in E. split; [assumption|].
    cbn [exact_value]. rewrite Q2R_1. rlra.
  - destruct (monomial a) as [[c1 r1]|]; [|discriminate].
    destruct (monomial b) as [[c2 r2]|]; [|discriminate].
    injection H as <- <-.
    destruct (IHa _ _ eq_refl) as [Ha Ea].
    destruct (IHb _ _ eq_refl) as [Hb Eb].
    split; [now apply Qmult_le_0_compat|].
    cbn [exact_value]. rewrite Ea, Eb, !Q2R_mult.
    rewrite sqrt_mult by now apply Q2R_nonneg. rlra.
Qed.

(** A monomial whose radicand is a square is a rational number. *)
Lemma monomial_rational x c r s :
  monomial x = Some (c, r) -> 0 <= s -> r == s * s ->
  exact_value x = Q2R (c * s).
Proof.
  intros H Hs Hr. destruct (monomial_value x H) as [_ ->].
  rewrite (Qeq_eqR _ _ Hr), !Q2R_mult.
  now rewrite sqrt_square by now apply Q2R_nonneg.
Qed.

(** The square of a monomial is a rational number. *)
Lemma monomial_square x c r :
  monomial x = Some (c, r) ->
  (exact_value x * exact_value x)%R = Q2R (c * c * r).
Proof.
  intros H. destruct (monomial_value x H) as [Hr ->].
  rewrite !Q2R_mult.
  transitivity (Q2R c * Q2R c * (sqrt (Q2R r) * sqrt (Q2R r)))%R; [rlra|].
  now rewrite sqrt_sqrt by now apply Q2R_nonneg.
Qed.

Lemma Delta_zero_iff aa bb cc prec d :
  Delta aa bb cc prec = Ok d ->
  (sym_is_zero d = true <-> exact_value d = 0%R).
Proof.
  unfold Delta.
  destruct (_ && _); [|discriminate].
  destruct (_ || _); intros [= <-]; cbn [sym_is_zero exact_value].
  - split; [intros _; apply Q2R_0 | reflexivity].
  - pose proof (delta_radicand_pos aa bb cc) as Hpos.
    split.
    + intros H. apply Qeq_bool_iff in H. rewrite H in Hpos.
      now apply Qlt_irrefl in Hpos.
    + intros H. apply Q2R_pos, sqrt_lt_R0 in Hpos. rlra.
Qed.

Lemma run_fst {A} (c : M A) F : run c F = fst (c F).
Proof. reflexivity. Qed.

Lemma racah_value F aa bb cc dd ee ff prec :
  Factlist_ok F ->
  run (racah aa bb cc dd ee ff prec) F = Racah aa bb cc dd ee ff prec.
Proof.
  intros HF.
  destruct (racah_run aa bb cc dd ee ff prec HF) as (F' & H & _).
  exact (run_eq _ _ H).
Qed.

Lemma big_delta_coeff_ran F aa bb cc prec d F' :
  Factlist_ok F -> _big_delta_coeff aa bb cc prec F = (Ok d, F') ->
  Delta aa bb cc prec = Ok d /\ Factlist_ok F' /\ extends F F'.
Proof.
  intros HF H.
  destruct (big_delta_coeff_run aa bb cc prec HF) as (G & HG & HGok & HGe).
  rewrite H in HG. injection HG as E1 E2. subst G.
  split; [now symmetry | split; assumption].
Qed.

Lemma racah_333333 F :
  Factlist_ok F ->
  exists v, run (racah 3 3 3 3 3 3 None) F = Ok v
            /\ exact_value v = (-1 / 14)%R.
Proof.
  intros HF. rewrite (racah_value _ _ _ _ _ _ _ HF).
  eexists. split; [vm_compute; reflexivity|].
  erewrite (@monomial_rational _ _ _ ((216 # 3628800) * (216 # 3628800)));
    [| vm_compute; reflexivity | discriminate | vm_compute; reflexivity].
  change (-1 / 14)%R with (Q2R (-1 # 14)).
  apply Qeq_eqR. vm_compute. reflexivity.
Qed.

Lemma Delta_ok_Integral aa bb cc prec d :
  Delta aa bb cc prec = Ok d ->
  Integral (aa + bb - cc) /\ Integral (aa + cc - bb)
  /\ Integral (bb + cc - aa).
Proof.
  unfold Delta. rewrite !Integral_iff.
  destruct (is_integral (aa + bb - cc)), (is_integral (aa + cc - bb)),
    (is_integral (bb + cc - aa)); cbn [andb]; try discriminate.
  now repeat split.
Qed.

Lemma Racah_sums_Integral aa bb cc dd ee ff prec d1 d2 d3 d4 :
  Delta aa bb ee prec = Ok d1 -> Delta cc dd ee prec = Ok d2 ->
  Delta aa cc ff prec = Ok d3 -> Delta bb dd ff prec = Ok d4 ->
  Integral (aa + bb + ee) /\ Integral (cc + dd + ee)
  /\ Integral (aa + cc + ff) /\ Integral (bb + dd + ff)
  /\ Integral (aa + bb + cc + dd) /\ Integral (aa + dd + ee + ff)
  /\ Integral (bb + cc + ee + ff).
Proof.
  intros D1 D2 D3 D4.
  destruct (Delta_ok_Integral _ _ _ _ D1) as ([x1 X1] & [x2 X2] & [x3 X3]).
  destruct (Delta_ok_Integral _ _ _ _ D2) as ([y1 Y1] & [y2 Y2] & [y3 Y3]).
  destruct (Delta_ok_Integral _ _ _ _ D3) as ([z1 Z1] & [z2 Z2] & [z3 Z3]).
  destruct (Delta_ok_Integral _ _ _ _ D4) as ([w1 W1] & [w2 W2] & [w3 W3]).
  repeat split.
  - exists (x1 + x2 + x3)%Z. rewrite !inject_Z_plus. qlra.
  - exists (y1 + y2 + y3)%Z. rewrite !inject_Z_plus. qlra.
  - exists (z1 + z2 + z3)%Z. rewrite !inject_Z_plus. qlra.
  - exists (w1 + w2 + w3)%Z. rewrite !inject_Z_plus. qlra.
  - exists (x1 + y1 + x2 + x3)%Z. rewrite !inject_Z_plus. qlra.
  - exists (x2 + w1 + w2 + w3)%Z. rewrite !inject_Z_plus. qlra.
  - exists (x3 + z1 + w2 + w3)%Z. rewrite !inject_Z_plus. qlra.
Qed.

(** C3.  [racah] multiplies the four Delta coefficients [Delta(aa,bb,ee)],
    [Delta(cc,dd,ee)], [Delta(aa,cc,ff)], [Delta(bb,dd,ff)] into the
    prefactor; when the prefactor is 0 it returns the integer 0 at once,
    the table being the one the four Delta calls left (no summation);
    otherwise it returns prefactor x sum x [(-1)^(aa+bb+cc+dd)], the sum
    running over the integers from [max(aa+bb+ee, cc+dd+ee, aa+cc+ff,
    bb+dd+ff)] to [min(aa+bb+cc+dd, aa+dd+ee+ff, bb+cc+ee+ff)] of
    [(-1)^k (k+1)!] over the seven factorials; the seven sums that bound
    the range and shift the factorials are integers.  In particular
    [racah(3,3,3,3,3,3) = -1/14]. *)
Theorem racah_spec (F F1 F2 F3 F4 : Factlist) (aa bb cc dd ee ff : Q)
    (prec : option positive) (d1 d2 d3 d4 : sym) :
  Factlist_ok F ->
  _big_delta_coeff aa bb ee prec F = (Ok d1, F1) ->
  _big_delta_coeff cc dd ee prec F1 = (Ok d2, F2) ->
  _big_delta_coeff aa cc ff prec F2 = (Ok d3, F3) ->
  _big_delta_coeff bb dd ff prec F3 = (Ok d4, F4) ->
  let prefac := SMul (SMul (SMul d1 d2) d3) d4 in
  let sumres := Qsum (racah_imin aa bb cc dd ee ff)
                     (racah_imax aa bb cc dd ee ff)
                     (racah_term aa bb cc dd ee ff) in
  exact_value prefac
  = (exact_value d1 * exact_value d2 * exact_value d3 * exact_value d4)%R
  /\ (exact_value prefac = 0%R ->
      racah aa bb cc dd ee ff prec F = (Ok (SQ 0), F4))
  /\ (exact_value prefac <> 0%R ->
      exists v,
        run (racah aa bb cc dd ee ff prec) F = Ok v
        /\ v = SMul (SMul prefac (SQ sumres))
                    (SQ (sgn (int (aa + bb + cc + dd))))
        /\ exact_value v
           = (exact_value prefac * Q2R sumres
              * Q2R (sgn (int (aa + bb + cc + dd))))%R)
  /\ (Integral (aa + bb + ee) /\ Integral (cc + dd + ee)
      /\ Integral (aa + cc + ff) /\ Integral (bb + dd + ff)
      /\ Integral (aa + bb + cc + dd) /\ Integral (aa + dd + ee + ff)
      /\ Integral (bb + cc + ee + ff))
  /\ (exists v, run (racah 3 3 3 3 3 3 None) F = Ok v
                /\ exact_value v = (-1 / 14)%R).
Proof.
  intros HF R1 R2 R3 R4 prefac sumres.
  destruct (big_delta_coeff_ran _ _ _ _ HF R1) as (D1 & HF1 & _).
  destruct (big_delta_coeff_ran _ _ _ _ HF1 R2) as (D2 & HF2 & _).
  destruct (big_delta_coeff_ran _ _ _ _ HF2 R3) as (D3 & HF3 & _).
  destruct (big_delta_coeff_ran _ _ _ _ HF3 R4) as (D4 & HF4 & _).
  assert (Hz : sym_is_zero prefac = true <-> exact_value prefac = 0%R).
  { subst prefac. cbn [sym_is_zero exact_value].
    rewrite !orb_true_iff.
    rewrite (Delta_zero_iff _ _ _ _ D1), (Delta_zero_iff _ _ _ _ D2),
      (Delta_zero_iff _ _ _ _ D3), (Delta_zero_iff _ _ _ _ D4).
    split.
    - intros [[[H|H]|H]|H]; rewrite H; rlra.
    - intros H.
      apply Rmult_integral in H as [H|H]; [|tauto].
      apply Rmult_integral in H as [H|H]; [|tauto].
      apply Rmult_integral in H as [H|H]; tauto. }
  split; [reflexivity|]. split; [|split; [|split]].
  - intros H0. apply Hz in H0. unfold racah.
    rewrite (bind_ok _ _ _ R1), (bind_ok _ _ _ R2), (bind_ok _ _ _ R3),
      (bind_ok _ _ _ R4).
    fold prefac. now rewrite H0.
  - intros H0. rewrite (racah_value _ _ _ _ _ _ _ HF). unfold Racah.
    rewrite D1, D2, D3, D4. cbn [res_bind]. fold prefac.
    destruct (sym_is_zero prefac); [exfalso; apply H0; now apply Hz|].
    eexists. split; [reflexivity|]. split; reflexivity.
  - exact (Racah_sums_Integral _ _ _ _ _ _ _ D1 D2 D3 D4).
  - now apply racah_333333.
Qed.

Lemma racah_spec_witness :
  exists v, run (racah 3 3 3 3 3 3 None) _Factlist_init = Ok v
            /\ exact_value v = (-1 / 14)%R.
Proof.
  refine (proj2 (proj2 (proj2 (proj2
    (@racah_spec _Factlist_init _ _ _ _ 3 3 3 3 3 3 None _ _ _ _
       _ _ _ _ _))))).
  - split; [discriminate|].
    intros [|i] Hi; [reflexivity | simpl in Hi; lia].
  - vm_compute. reflexivity.
  - vm_compute. reflexivity.
  - vm_compute. reflexivity.
  - vm_compute. reflexivity.
Defined.


(** ** Wigner 6-j *)


Lemma wigner_6j_run F j_1 j_2 j_3 j_4 j_5 j_6 prec :
  Factlist_ok F ->
  exists F',
    wigner_6j j_1 j_2 j_3 j_4 j_5 j_6 prec F
    = (Wigner6j j_1 j_2 j_3 j_4 j_5 j_6 prec, F')
    /\ Factlist_ok F' /\ extends F F'.
Proof.
  intros HF. unfold wigner_6j, Wigner6j.
  destruct (racah_run j_1 j_2 j_5 j_4 j_3 j_6 prec HF) as (F' & R & HF' & E).
  exists F'. split; [|split; assumption].
  destruct (Racah j_1 j_2 j_5 j_4 j_3 j_6 prec).
  - now rewrite (bind_ok _ _ _ R).
  - now rewrite (bind_raise _ _ _ R).
Qed.

Lemma wigner_6j_value F j_1 j_2 j_3 j_4 j_5 j_6 prec :
  Factlist_ok F ->
  run (wigner_6j j_1 j_2 j_3 j_4 j_5 j_6 prec) F
  = Wigner6j j_1 j_2 j_3 j_4 j_5 j_6 prec.
Proof.
  intros HF.
  destruct (wigner_6j_run j_1 j_2 j_3 j_4 j_5 j_6 prec HF) as (F' & H & _).
  exact (run_eq _ _ H).
Qed.





(** ** Wigner 9-j *)

Lemma for_fold_run {A X} (l : list X) (body : A -> X -> M A)
    (pure : A -> X -> res A) :
  (forall a x F, In x l -> Factlist_ok F ->
     exists F', body a x F = (pure a x, F')
                /\ Factlist_ok F' /\ extends F F') ->
  forall a F, Factlist_ok F ->
    exists F', for_fold l body a F = (res_fold l pure a, F')
               /\ Factlist_ok F' /\ extends F F'.
Proof.
  induction l as [|x l IH]; intros Hb a F HF; cbn [for_fold res_fold].
  - exists F. split; [reflexivity | split; [assumption | apply extends_refl]].
  - destruct (Hb a x F (or_introl eq_refl) HF) as (F1 & R1 & HF1 & E1).
    destruct (pure a x) as [a'|e].
    + rewrite (bind_ok _ _ _ R1). cbn [res_bind].
      destruct (IH (fun a x F Hx => Hb a x F (or_intror Hx)) a' F1 HF1)
        as (F2 & R2 & HF2 & E2).
      exists F2. split; [assumption | split; [assumption|]].
      exact (extends_trans E1 E2).
    + rewrite (bind_raise _ _ _ R1). cbn [res_bind].
      exists F1. split; [reflexivity | split; assumption].
Qed.

Lemma wigner_9j_step_run j_1 j_2 j_3 j_4 j_5 j_6 j_7 j_8 j_9 prec a kk F :
  Factlist_ok F ->
  exists F',
    wigner_9j_step j_1 j_2 j_3 j_4 j_5 j_6 j_7 j_8 j_9 prec a kk F
    = (res_bind (Wigner9j_term j_1 j_2 j_3 j_4 j_5 j_6 j_7 j_8 j_9 prec kk)
                (fun t => Ok (SAdd a t)), F')
    /\ Factlist_ok F' /\ extends F F'.
Proof.
  intros HF. unfold wigner_9j_step, Wigner9j_term.
  destruct (racah_run j_1 j_2 j_9 j_6 j_3 (inject_Z kk) prec HF)
    as (F1 & R1 & HF1 & E1).
  destruct (Racah j_1 j_2 j_9 j_6 j_3 (inject_Z kk) prec) as [r1|e];
    [rewrite (bind_ok _ _ _ R1)
    | rewrite (bind_raise _ _ _ R1); exists F1;
      split; [reflexivity | split; assumption]].
  destruct (racah_run j_4 j_6 j_8 j_2 j_5 (inject_Z kk) prec HF1)
    as (F2 & R2 & HF2 & E2).
  pose proof (extends_trans E1 E2) as E12.
  destruct (Racah j_4 j_6 j_8 j_2 j_5 (inject_Z kk) prec) as [r2|e];
    [rewrite (bind_ok _ _ _ R2)
    | rewrite (bind_raise _ _ _ R2); exists F2;
      split; [reflexivity | split; assumption]].
  destruct (racah_run j_1 j_4 j_9 j_8 j_7 (inject_Z kk) prec HF2)
    as (F3 & R3 & HF3 & E3).
  pose proof (extends_trans E12 E3) as E13.
  destruct (Racah j_1 j_4 j_9 j_8 j_7 (inject_Z kk) prec) as [r3|e];
    [rewrite (bind_ok _ _ _ R3)
    | rewrite (bind_raise _ _ _ R3); exists F3;
      split; [reflexivity | split; assumption]].
  exists F3. split; [reflexivity | split; assumption].
Qed.

Lemma wigner_9j_run F j_1 j_2 j_3 j_4 j_5 j_6 j_7 j_8 j_9 prec :
  Factlist_ok F ->
  exists F',
    wigner_9j j_1 j_2 j_3 j_4 j_5 j_6 j_7 j_8 j_9 prec F
    = (Wigner9j j_1 j_2 j_3 j_4 j_5 j_6 j_7 j_8 j_9 prec, F')
    /\ Factlist_ok F' /\ extends F F'.
Proof.
  intros HF. unfold wigner_9j, Wigner9j. apply for_fold_run; [|assumption].
  intros a x G _ HG. now apply wigner_9j_step_run.
Qed.

Lemma res_fold_sum (l : list Z) (T : Z -> res sym) :
  (forall k, In k l -> exists t, T k = Ok t) ->
  forall acc,
  exists v,
    res_fold l (fun s k => res_bind (T k) (fun t => Ok (SAdd s t))) acc = Ok v
    /\ exact_value v
       = fold_left (fun s k => (s + value_of (T k))%R) l (exact_value acc).
Proof.
  induction l as [|k l IH]; intros HT acc; cbn [res_fold fold_left].
  - now exists acc.
  - destruct (HT k (or_introl eq_refl)) as [t Ht]. rewrite Ht.
    cbn [res_bind value_of].
    destruct (IH (fun k Hk => HT k (or_intror Hk)) (SAdd acc t)) as (v & Hv & E).
    exists v. split; [assumption|]. exact E.
Qed.

Lemma fold_left_ext_in {A X} (f g : A -> X -> A) (l : list X) :
  (forall a x, In x l -> f a x = g a x) ->
  forall a, fold_left f l a = fold_left g l a.
Proof.
  induction l as [|x l IH]; intros H a; cbn [fold_left]; [reflexivity|].
  rewrite (H a x (or_introl eq_refl)).
  apply IH. intros b y Hy. apply H. now right.
Qed.

Lemma Q2R_inject_Z z : Q2R (inject_Z z) = IZR z.
Proof. unfold Q2R. simpl. rewrite Rinv_1. apply Rmult_1_r. Qed.

Lemma Racah_ok_Deltas aa bb cc dd ee ff prec r :
  Racah aa bb cc dd ee ff prec = Ok r ->
  exists d1 d2 d3 d4,
    Delta aa bb ee prec = Ok d1 /\ Delta cc dd ee prec = Ok d2
    /\ Delta aa cc ff prec = Ok d3 /\ Delta bb dd ff prec = Ok d4.
Proof.
  unfold Racah.
  destruct (Delta aa bb ee prec) as [d1|]; [|discriminate].
  destruct (Delta cc dd ee prec) as [d2|]; [|discriminate].
  destruct (Delta aa cc ff prec) as [d3|]; [|discriminate].
  destruct (Delta bb dd ff prec) as [d4|]; [|discriminate].
  intros _. now exists d1, d2, d3, d4.
Qed.

(** When the Racah calls at [k = 0] return, the three sums that bound the
    9-j range are integers. *)
Lemma wigner_9j_bound_Integral j_1 j_2 j_3 j_4 j_5 j_6 j_8 j_9 prec r1 r2 :
  Racah j_1 j_2 j_9 j_6 j_3 (inject_Z 0) prec = Ok r1 ->
  Racah j_4 j_6 j_8 j_2 j_5 (inject_Z 0) prec = Ok r2 ->
  Integral (Qmin (Qmin (j_1 + j_9) (j_2 + j_6)) (j_4 + j_8)).
Proof.
  intros H1 H2.
  apply Racah_ok_Deltas in H1 as (_ & _ & a3 & _ & _ & _ & A3 & _).
  apply Racah_ok_Deltas in H2 as (_ & _ & b3 & b4 & _ & _ & B3 & B4).
  destruct (Delta_ok_Integral _ _ _ _ A3) as ([x Hx] & _).
  destruct (Delta_ok_Integral _ _ _ _ B3) as ([y Hy] & _).
  destruct (Delta_ok_Integral _ _ _ _ B4) as ([z Hz] & _).
  change (inject_Z 0) with 0 in Hx, Hy, Hz.
  repeat apply Qmin_Integral.
  - exists x. qlra.
  - exists z. qlra.
  - exists y. qlra.
Qed.

(** C5.  On a table that satisfies the invariant and for inputs on which
    none of the Racah calls raises, [wigner_9j] returns the sum over the
    integers [0 <= k <= min(j_1+j_9, j_2+j_6, j_4+j_8)] of [(2k+1)] times
    [racah(j_1,j_2,j_9,j_6,j_3,k)], [racah(j_4,j_6,j_8,j_2,j_5,k)] and
    [racah(j_1,j_4,j_9,j_8,j_7,k)]; it has no selection rule of its own,
    a term of the sum is 0 exactly when one of its three Racah factors
    is 0, and the range of the loop is exactly the integers [k] with
    [0 <= k <= min(j_1+j_9, j_2+j_6, j_4+j_8)]. *)
Theorem wigner_9j_spec (F : Factlist)
    (j_1 j_2 j_3 j_4 j_5 j_6 j_7 j_8 j_9 : Q) (prec : option positive) :
  Factlist_ok F ->
  let imax := wigner_9j_imax j_1 j_2 j_4 j_6 j_8 j_9 in
  let W1 k := run (racah j_1 j_2 j_9 j_6 j_3 (inject_Z k) prec) F in
  let W2 k := run (racah j_4 j_6 j_8 j_2 j_5 (inject_Z k) prec) F in
  let W3 k := run (racah j_1 j_4 j_9 j_8 j_7 (inject_Z k) prec) F in
  let term k := (IZR (2 * k + 1) * value_of (W1 k) * value_of (W2 k)
                 * value_of (W3 k))%R in
  (forall k, (0 <= k <= imax)%Z ->
     exists r1 r2 r3, W1 k = Ok r1 /\ W2 k = Ok r2 /\ W3 k = Ok r3) ->
  exists v,
    run (wigner_9j j_1 j_2 j_3 j_4 j_5 j_6 j_7 j_8 j_9 prec) F = Ok v
    /\ exact_value v = Rsum 0 imax term
    /\ (forall k, (0 <= k <= imax)%Z ->
          term k = 0%R <->
          value_of (W1 k) = 0%R \/ value_of (W2 k) = 0%R
          \/ value_of (W3 k) = 0%R)
    /\ (forall k, (0 <= k <= imax)%Z <->
          (0 <= k)%Z
          /\ inject_Z k <= Qmin (Qmin (j_1 + j_9) (j_2 + j_6)) (j_4 + j_8)).
Proof.
  intros HF imax W1 W2 W3 term Hok.
  assert (HT : forall k, In k (range 0 (imax + 1)) ->
             exists t,
               Wigner9j_term j_1 j_2 j_3 j_4 j_5 j_6 j_7 j_8 j_9 prec k = Ok t
               /\ exact_value t = term k).
  { intros k Hk. apply in_range in Hk.
    destruct (Hok k ltac:(lia)) as (r1 & r2 & r3 & H1 & H2 & H3).
    subst term. cbn beta. rewrite H1, H2, H3. subst W1 W2 W3.
    cbn beta in H1, H2, H3.
    rewrite (racah_value _ _ _ _ _ _ _ HF) in H1.
    rewrite (racah_value _ _ _ _ _ _ _ HF) in H2.
    rewrite (racah_value _ _ _ _ _ _ _ HF) in H3.
    unfold Wigner9j_term. rewrite H1, H2, H3. cbn [res_bind].
    eexists. split; [reflexivity|].
    cbn [exact_value value_of]. now rewrite Q2R_inject_Z. }
  destruct (wigner_9j_run j_1 j_2 j_3 j_4 j_5 j_6 j_7 j_8 j_9 prec HF)
    as (F' & R & _).
  rewrite (run_eq _ _ R). unfold Wigner9j. fold imax.
  destruct (res_fold_sum (range 0 (imax + 1))
              (Wigner9j_term j_1 j_2 j_3 j_4 j_5 j_6 j_7 j_8 j_9 prec)
              (fun k Hk => let '(ex_intro _ t (conj Ht _)) := HT k Hk in
                           ex_intro _ t Ht) (SQ 0)) as (v & Hv & E).
  exists v. split; [assumption|]. split; [|split].
  - rewrite E. cbn [exact_value]. rewrite Q2R_0. unfold Rsum.
    apply fold_left_ext_in. intros a k Hk.
    destruct (HT k Hk) as (t & -> & <-). reflexivity.
  - intros k Hk. subst term. cbn beta.
    assert (Hnz : IZR (2 * k + 1) <> 0%R) by (apply not_0_IZR; lia).
    split.
    + intros H.
      apply Rmult_integral in H as [H|H]; [|tauto].
      apply Rmult_integral in H as [H|H]; [|tauto].
      apply Rmult_integral in H as [H|H]; [contradiction | tauto].
    + intros [H|[H|H]]; rewrite H; rlra.
  - intros k. subst imax. unfold wigner_9j_imax in *.
    set (m := Qmin (Qmin (j_1 + j_9) (j_2 + j_6)) (j_4 + j_8)) in *.
    destruct (Z.lt_ge_cases (int m) 0) as [Hneg|Hpos].
    + assert (Hm : m <= -1).
      { destruct (Qlt_le_dec (-1) m) as [C|C]; [|assumption].
        apply int_nonneg in C. lia. }
      split; [lia|]. intros [Hk Hkm]. exfalso.
      assert (0 <= inject_Z k).
      { change 0 with (inject_Z 0). now rewrite <- Zle_Qle. }
      qlra.
    + destruct (Hok 0%Z ltac:(lia)) as (r1 & r2 & _ & H1 & H2 & _).
      subst W1 W2. cbn beta in H1, H2.
      rewrite (racah_value _ _ _ _ _ _ _ HF) in H1.
      rewrite (racah_value _ _ _ _ _ _ _ HF) in H2.
      pose proof (Integral_int (wigner_9j_bound_Integral _ _ _ _ _ _ _ _ _ H1 H2))
        as Hm.
      fold m in Hm. rewrite Hm at 2. rewrite <- Zle_Qle. lia.
Qed.

Lemma wigner_9j_spec_witness :
  exists v, run (wigner_9j 1 1 1 1 1 1 1 1 0 None) _Factlist_init = Ok v.
Proof.
  destruct (@wigner_9j_spec _Factlist_init 1 1 1 1 1 1 1 1 0 None)
    as (v & Hv & _).
  - split; [discriminate|].
    intros [|i] Hi; [reflexivity | simpl in Hi; lia].
  - intros k Hk.
    change (wigner_9j_imax 1 1 1 1 1 0) with 1%Z in Hk.
    assert (Hc : k = 0%Z \/ k = 1%Z) by lia.
    destruct Hc as [-> | ->];
      do 3 eexists; repeat split; vm_compute; reflexivity.
  - exists v. exact Hv.
Defined.

(** ** Wigner 3-j *)

Lemma Qabs_bounds m : - Qabs m <= m /\ m <= Qabs m.
Proof.
  split; [|apply Qle_Qabs].
  pose proof (Qle_Qabs (- m)) as H. rewrite Qabs_opp in H. qlra.
Qed.

Lemma stay {A} (r : res A) F :
  Factlist_ok F ->
  exists F', (r, F) = (r, F') /\ Factlist_ok F' /\ extends F F'.
Proof.
  intros HF. exists F.
  split; [reflexivity | split; [assumption | apply extends_refl]].
Qed.

Lemma wigner_3j_run F j_1 j_2 j_3 m_1 m_2 m_3 prec :
  Factlist_ok F ->
  exists F',
    wigner_3j j_1 j_2 j_3 m_1 m_2 m_3 prec F
    = (Wigner3j j_1 j_2 j_3 m_1 m_2 m_3 prec, F')
    /\ Factlist_ok F' /\ extends F F'.
Proof.
  intros HF. unfold wigner_3j, Wigner3j, w3j_rule_fails.
  destruct (is_integral (j_1 * 2)); [|now apply stay].
  destruct (is_integral (j_2 * 2)); [|now apply stay].
  destruct (is_integral (j_3 * 2)); [|now apply stay].
  cbn [negb andb orb].
  destruct (is_integral (m_1 * 2)); [|now apply stay].
  destruct (is_integral (m_2 * 2)); [|now apply stay].
  destruct (is_integral (m_3 * 2)); [|now apply stay].
  cbn [negb andb orb].
  destruct (Qeq_bool (m_1 + m_2 + m_3) 0) eqn:E; [|now apply stay].
  cbn [negb orb].
  destruct (Qlt_bool (j_1 + j_2 - j_3) 0) eqn:A1; [now apply stay|].
  destruct (Qlt_bool (j_1 - j_2 + j_3) 0) eqn:A2; [now apply stay|].
  destruct (Qlt_bool (- j_1 + j_2 + j_3) 0) eqn:A3; [now apply stay|].
  cbn [orb].
  destruct (Qlt_bool j_1 (Qabs m_1)) eqn:B1; [now apply stay|].
  destruct (Qlt_bool j_2 (Qabs m_2)) eqn:B2; [now apply stay|].
  destruct (Qlt_bool j_3 (Qabs (- m_3))) eqn:B3; [now apply stay|].
  cbn [orb].
  apply Qeq_bool_iff in E. apply Qlt_bool_false in A1, A2, A3, B1, B2, B3.
  destruct (Qabs_bounds m_1) as [C1 C1'].
  destruct (Qabs_bounds m_2) as [C2 C2'].
  destruct (Qabs_bounds (- m_3)) as [C3 C3'].
  rewrite (@Qmax_l (j_1 + j_2 + j_3 + 1) (j_1 + Qabs m_1)) by qlra.
  rewrite (@Qmax_l (j_1 + j_2 + j_3 + 1) (j_2 + Qabs m_2)) by qlra.
  rewrite (@Qmax_l (j_1 + j_2 + j_3 + 1) (j_3 + Qabs (- m_3))) by qlra.
  destruct (is_integral (j_1 + j_2 + j_3)) eqn:IJ; cbn [negb].
  2:{ exists F. split; [|split; [assumption | apply extends_refl]].
      apply bind_raise, calc_factlist_TypeError.
      apply is_integral_false. intros z Hz.
      rewrite is_integral_false in IJ. apply (IJ (z - 1)%Z).
      unfold Z.sub. rewrite inject_Z_plus, <- Hz.
      change (inject_Z (- (1))%Z) with (-1). qlra. }
  apply Integral_iff in IJ. destruct IJ as [J HJ].
  assert (Hn : j_1 + j_2 + j_3 + 1 == inject_Z (J + 1)).
  { rewrite inject_Z_plus, <- HJ. reflexivity. }
  destruct (calc_factlist_ok HF Hn) as (F' & R & HF' & Hext & Hlen).
  exists F'. split; [|split; assumption].
  rewrite (bind_ok _ _ _ R).
  assert (Hidx : forall x, -1 < x -> x <= j_1 + j_2 + j_3 + 1 ->
                 (0 <= int x < Z.of_nat (length F'))%Z).
  { intros x H1 H2. rewrite Hn in H2. pose proof (int_index H1 H2). lia. }
  assert (HidxZ : forall z, (0 <= z)%Z -> inject_Z z <= j_1 + j_2 + j_3 + 1 ->
                  (0 <= z < Z.of_nat (length F'))%Z).
  { intros z H1 H2. rewrite Hn, <- Zle_Qle in H2. lia. }
  rewrite bind_prod_ok by (try assumption; table_indices Hidx).
  rewrite bind_get_ok by (try assumption; apply Hidx; qlra).
  rewrite bind_Integer_div_ok
    by (apply Z.neq_sym, Z.lt_neq, factorial_pos).
  fold (w3j_imin j_1 j_2 j_3 m_1 m_2). fold (w3j_imax j_1 j_2 j_3 m_1 m_2).
  set (imin := w3j_imin j_1 j_2 j_3 m_1 m_2).
  set (imax := w3j_imax j_1 j_2 j_3 m_1 m_2).
  destruct (Qmax3_ge (- j_3 + j_1 + m_2) (- j_3 + j_2 - m_1) 0)
    as (L1 & L2 & L3).
  pose proof (int_gt (Qmax (Qmax (- j_3 + j_1 + m_2) (- j_3 + j_2 - m_1)) 0))
    as Lmin.
  fold (w3j_imin j_1 j_2 j_3 m_1 m_2) in Lmin. fold imin in Lmin.
  destruct (Qmin3_le (j_2 + m_2) (j_1 - m_1) (j_1 + j_2 - j_3))
    as (U1 & U2 & U3).
  assert (Umax : inject_Z imax
                 <= Qmin (Qmin (j_2 + m_2) (j_1 - m_1)) (j_1 + j_2 - j_3)).
  { apply int_le. apply Qmin3_glb; qlra. }
  assert (Hmin0 : (0 <= imin)%Z) by (apply int_nonneg; qlra).
  rewrite (bind_sum_loop_ok _ (w3j_term j_1 j_2 j_3 m_1 m_2)).
  { unfold ret. cbn [fold_left]. rewrite Z.mul_1_l. reflexivity. }
  intros s kk Hk. unfold sum_3j_step.
  assert (K0 : 0 <= inject_Z kk).
  { change 0 with (inject_Z 0). rewrite <- Zle_Qle. lia. }
  assert (K1 : inject_Z imin <= inject_Z kk) by (rewrite <- Zle_Qle; lia).
  assert (K2 : inject_Z kk <= inject_Z imax) by (rewrite <- Zle_Qle; lia).
  rewrite bind_prod_ok by (try assumption; table_indices2 Hidx HidxZ).
  rewrite bind_Integer_div_ok
    by (apply Z.neq_sym, Z.lt_neq, fold_fact_pos; lia).
  unfold ret. do 3 f_equal.
  unfold w3j_term, qfact, sgn. cbn [fold_left].
  rewrite Z.mul_1_l, int_inject_Z. reflexivity.
Qed.

Lemma wigner_3j_value F j_1 j_2 j_3 m_1 m_2 m_3 prec :
  Factlist_ok F ->
  run (wigner_3j j_1 j_2 j_3 m_1 m_2 m_3 prec) F
  = Wigner3j j_1 j_2 j_3 m_1 m_2 m_3 prec.
Proof.
  intros HF.
  destruct (wigner_3j_run j_1 j_2 j_3 m_1 m_2 m_3 prec HF) as (F' & H & _).
  exact (run_eq _ _ H).
Qed.

Lemma Qlt_bool_abs_opp j m : Qlt_bool j (Qabs (- m)) = Qlt_bool j (Qabs m).
Proof.
  apply eq_true_iff_eq. rewrite !Qlt_bool_iff. now rewrite Qabs_opp.
Qed.

Lemma w3j_rule_fails_false j_1 j_2 j_3 m_1 m_2 m_3 :
  w3j_rule_fails j_1 j_2 j_3 m_1 m_2 m_3 = false <->
  m_1 + m_2 + m_3 == 0
  /\ (0 <= j_1 + j_2 - j_3 /\ 0 <= j_1 - j_2 + j_3 /\ 0 <= - j_1 + j_2 + j_3)
  /\ (Qabs m_1 <= j_1 /\ Qabs m_2 <= j_2 /\ Qabs m_3 <= j_3).
Proof.
  unfold w3j_rule_fails.
  rewrite !orb_false_iff, negb_false_iff, Qeq_bool_iff, Qlt_bool_abs_opp,
    !Qlt_bool_false.
  tauto.
Qed.

Lemma w3j_admissible_value j_1 j_2 j_3 m_1 m_2 m_3 prec :
  w3j_admissible j_1 j_2 j_3 m_1 m_2 m_3 ->
  Wigner3j j_1 j_2 j_3 m_1 m_2 m_3 prec
  = if is_integral (j_1 + j_2 + j_3)
    then Ok (SMul (SMul (SSqrt prec
                           (SQ (w3j_radicand j_1 j_2 j_3 m_1 m_2 (- m_3))))
                        (SQ (Qsum (w3j_imin j_1 j_2 j_3 m_1 m_2)
                                  (w3j_imax j_1 j_2 j_3 m_1 m_2)
                                  (w3j_term j_1 j_2 j_3 m_1 m_2))))
                  (SQ (sgn (int (j_1 - j_2 - m_3)))))
    else Raise TypeError.
Proof.
  intros ((J1 & J2 & J3) & (M1 & M2 & M3) & Hrules).
  unfold Wigner3j, HalfIntegral in *.
  apply Integral_iff in J1, J2, J3, M1, M2, M3.
  rewrite J1, J2, J3, M1, M2, M3. cbn [andb negb].
  apply w3j_rule_fails_false in Hrules. rewrite Hrules.
  now destruct (is_integral (j_1 + j_2 + j_3)).
Qed.

Lemma w3j_radicand_pos j_1 j_2 j_3 m_1 m_2 m_3 :
  0 < w3j_radicand j_1 j_2 j_3 m_1 m_2 m_3.
Proof.
  unfold w3j_radicand.
  apply Qlt_shift_div_l; [apply qfact_pos|]. rewrite Qmult_0_l.
  repeat apply Qmult_lt_0_compat; apply qfact_pos.
Qed.

Lemma wigner_3j_264000 F :
  Factlist_ok F ->
  exists v, run (wigner_3j 2 6 4 0 0 0 None) F = Ok v
            /\ (exact_value v * exact_value v)%R = (5 / 143)%R.
Proof.
  intros HF. rewrite (wigner_3j_value _ _ _ _ _ _ _ HF).
  eexists. split; [vm_compute; reflexivity|].
  erewrite monomial_square; [| vm_compute; reflexivity].
  change (5 / 143)%R with (Q2R (5 # 143)).
  apply Qeq_eqR. vm_compute. reflexivity.
Qed.

(** C1, as amended.  On a table that satisfies the invariant, for inputs
    that pass the half-integer validation and every selection rule and
    whose [j_i - m_i] are integers, [wigner_3j] with [prec=None] returns
    the sign [(-1)^(j_1-j_2-m_3)] times the square root of the (positive)
    radicand, with [m_3] negated, times the sum over the integers [k] from
    [max(-j_3+j_1+m_2, -j_3+j_2-m_1, 0)] to [min(j_2+m_2, j_1-m_1,
    j_1+j_2-j_3)] of [(-1)^k] over the six factorials; the exponent, the
    bounds and every argument of a factorial are then integers.  In
    particular the square of [wigner_3j(2,6,4,0,0,0)] is [5/143]. *)
Theorem wigner_3j_formula (F : Factlist) (j_1 j_2 j_3 m_1 m_2 m_3 : Q) :
  Factlist_ok F ->
  w3j_admissible j_1 j_2 j_3 m_1 m_2 m_3 ->
  Integral (j_1 - m_1) -> Integral (j_2 - m_2) -> Integral (j_3 - m_3) ->
  (exists v,
     run (wigner_3j j_1 j_2 j_3 m_1 m_2 m_3 None) F = Ok v
     /\ exact_value v
        = (Q2R (sgn (int (j_1 - j_2 - m_3)))
           * sqrt (Q2R (w3j_radicand j_1 j_2 j_3 m_1 m_2 (- m_3)))
           * Q2R (Qsum (w3j_imin j_1 j_2 j_3 m_1 m_2)
                       (w3j_imax j_1 j_2 j_3 m_1 m_2)
                       (w3j_term j_1 j_2 j_3 m_1 m_2)))%R
     /\ 0 < w3j_radicand j_1 j_2 j_3 m_1 m_2 (- m_3))
  /\ (Integral (j_1 - j_2 - m_3)
      /\ Integral (j_1 + j_2 - j_3) /\ Integral (j_1 - j_2 + j_3)
      /\ Integral (- j_1 + j_2 + j_3)
      /\ Integral (j_1 + m_1) /\ Integral (j_2 + m_2) /\ Integral (j_3 + m_3)
      /\ Integral (j_1 + j_2 + j_3 + 1)
      /\ Integral (- j_3 + j_1 + m_2) /\ Integral (- j_3 + j_2 - m_1))
  /\ (exists v, run (wigner_3j 2 6 4 0 0 0 None) F = Ok v
                /\ (exact_value v * exact_value v)%R = (5 / 143)%R).
Proof.
  intros HF Hadm [p1 P1] [p2 P2] [p3 P3].
  pose proof Hadm as ((J1 & J2 & J3) & _ & Hm & _).
  destruct J1 as [t1 J1], J2 as [t2 J2], J3 as [t3 J3].
  assert (HJ : Integral (j_1 + j_2 + j_3)).
  { exists (p1 + p2 + p3)%Z. rewrite !inject_Z_plus. qlra. }
  split; [|split; [|now apply wigner_3j_264000]].
  - rewrite (wigner_3j_value _ _ _ _ _ _ _ HF).
    rewrite (w3j_admissible_value _ Hadm).
    apply Integral_iff in HJ. rewrite HJ.
    eexists. split; [reflexivity|]. split; [|apply w3j_radicand_pos].
    cbn [exact_value]. rlra.
  - repeat split.
    + exists (t1 - p1 - p2)%Z. unfold Z.sub.
      rewrite !inject_Z_plus, !inject_Z_opp. qlra.
    + exists (p1 + p2 + p3 - t3)%Z. unfold Z.sub.
      rewrite !inject_Z_plus, !inject_Z_opp. qlra.
    + exists (p1 + p2 + p3 - t2)%Z. unfold Z.sub.
      rewrite !inject_Z_plus, !inject_Z_opp. qlra.
    + exists (p1 + p2 + p3 - t1)%Z. unfold Z.sub.
      rewrite !inject_Z_plus, !inject_Z_opp. qlra.
    + exists (t1 - p1)%Z. unfold Z.sub.
      rewrite !inject_Z_plus, !inject_Z_opp. qlra.
    + exists (t2 - p2)%Z. unfold Z.sub.
      rewrite !inject_Z_plus, !inject_Z_opp. qlra.
    + exists (t3 - p3)%Z. unfold Z.sub.
      rewrite !inject_Z_plus, !inject_Z_opp. qlra.
    + exists (p1 + p2 + p3 + 1)%Z.
      rewrite !inject_Z_plus. change (inject_Z 1) with 1. qlra.
    + exists (p1 - (t3 - p3))%Z. unfold Z.sub.
      rewrite !inject_Z_plus, !inject_Z_opp, !inject_Z_plus, !inject_Z_opp.
      qlra.
    + exists (t2 - p2 - p3)%Z. unfold Z.sub.
      rewrite !inject_Z_plus, !inject_Z_opp. qlra.
Qed.

Lemma wigner_3j_formula_witness :
  exists v, run (wigner_3j 2 6 4 0 0 0 None) _Factlist_init = Ok v
            /\ (exact_value v * exact_value v)%R = (5 / 143)%R.
Proof.
  refine (proj2 (proj2
    (@wigner_3j_formula _Factlist_init 2 6 4 0 0 0 _ _ _ _ _))).
  - split; [discriminate|].
    intros [|i] Hi; [reflexivity | simpl in Hi; lia].
  - repeat split; try (now exists 0%Z); try (now exists 4%Z);
      try (now exists 8%Z); try (now exists 12%Z); discriminate.
  - now exists 2%Z.
  - now exists 6%Z.
  - now exists 4%Z.
Defined.

(** C1, as stated, fails: [j = (1/2,1/2,1/2)], [m = (1/2,-1/2,0)] pass the
    half-integer validation and every selection rule, and the call raises
    [TypeError] when it sizes the factorial table with [j_1+j_2+j_3+1 =
    5/2]. *)
Lemma wigner_3j_half_integral_sum_raises :
  w3j_admissible (1 # 2) (1 # 2) (1 # 2) (1 # 2) (- (1 # 2)) 0
  /\ run (wigner_3j (1 # 2) (1 # 2) (1 # 2) (1 # 2) (- (1 # 2)) 0 None)
         _Factlist_init = Raise TypeError.
Proof.
  split; [|vm_compute; reflexivity].
  repeat split; try (now exists 1%Z); try (now exists (-1)%Z);
    try (now exists 0%Z); discriminate.
Qed.



(** ** Clebsch-Gordan *)

Lemma Wigner3j_raise j_1 j_2 j_3 m_1 m_2 m_3 prec e :
  Wigner3j j_1 j_2 j_3 m_1 m_2 m_3 prec = Raise e ->
  e = JValueError \/ e = MValueError \/ e = TypeError.
Proof.
  unfold Wigner3j.
  destruct (negb _); [intros [= <-]; now left|].
  destruct (negb _); [intros [= <-]; right; now left|].
  destruct (w3j_rule_fails _ _ _ _ _ _); [discriminate|].
  destruct (negb _); [intros [= <-]; right; now right | discriminate].
Qed.

Lemma clebsch_gordan_unfold F j_1 j_2 j_3 m_1 m_2 m_3 prec :
  clebsch_gordan j_1 j_2 (Sage j_3) m_1 m_2 m_3 prec F
  = match wigner_3j j_1 j_2 j_3 m_1 m_2 (- m_3) prec F with
    | (Ok w, F') =>
        (Ok (SMul (SMul (py_pow_m1 (int (j_1 - j_2 + m_3)))
                        (SSqrt prec (SQ (2 * j_3 + 1)))) w), F')
    | (Raise e, F') => (Raise e, F')
    end.
Proof.
  unfold clebsch_gordan, bind, ret.
  now destruct (wigner_3j j_1 j_2 j_3 m_1 m_2 (- m_3) prec F) as [[w|e] F'].
Qed.

Lemma clebsch_gordan_PyInt F j_1 j_2 z m_1 m_2 m_3 prec :
  clebsch_gordan j_1 j_2 (PyInt z) m_1 m_2 m_3 prec F = (Raise AttributeError, F).
Proof. reflexivity. Qed.

Lemma py_pow_m1_value n : exact_value (py_pow_m1 n) = Q2R (sgn n).
Proof. unfold py_pow_m1, sgn. now destruct (n <? 0)%Z. Qed.

Lemma py_pow_m1_nonneg n : (0 <= n)%Z -> py_pow_m1 n = SQ (sgn n).
Proof.
  intros H. unfold py_pow_m1, sgn.
  destruct (Z.ltb_spec n 0); [lia | reflexivity].
Qed.

Lemma py_pow_m1_neg n : (n < 0)%Z -> py_pow_m1 n = SFloat (sgn n).
Proof.
  intros H. unfold py_pow_m1, sgn.
  destruct (Z.ltb_spec n 0); [reflexivity | lia].
Qed.

Lemma clebsch_gordan_example F :
  Factlist_ok F ->
  exists v,
    run (clebsch_gordan (3 # 2) (1 # 2) (Sage 1) (- (1 # 2)) (1 # 2) 0 None) F
    = Ok v
    /\ is_exact v = true
    /\ exact_value v = (- sqrt 3 * sqrt (1 / 6))%R.
Proof.
  intros HF. unfold run. rewrite clebsch_gordan_unfold.
  pose proof (wigner_3j_value (3 # 2) (1 # 2) 1 (- (1 # 2)) (1 # 2) (- 0)
                None HF) as Hv.
  unfold run in Hv.
  destruct (wigner_3j _ _ _ _ _ _ _ F) as [r F']. cbn [fst] in *. subst r.
  eexists. split; [vm_compute; reflexivity|]. split; [reflexivity|].
  cbn [exact_value].
  replace (Q2R (-1)) with (-1)%R by (unfold Q2R; simpl; rlra).
  replace (Q2R 3) with 3%R by (unfold Q2R; simpl; rlra).
  replace (Q2R (4 # 24)) with (1 / 6)%R by (unfold Q2R; simpl; rlra).
  rlra.
Qed.

(** What [clebsch_gordan] does with a Sage number [j_3]: it validates
    nothing itself, calls [wigner_3j(j_1,j_2,j_3,m_1,m_2,-m_3,prec)], leaves
    the table that call left, raises whatever it raised, and otherwise
    returns the product of [(-1) ** int(j_1-j_2+m_3)], [sqrt(2*j_3+1)] and
    the value [w] it returned, which stands for
    [(-1)^(j_1-j_2+m_3) * sqrt(2*j_3+1) * w] and is 0 when [w] is.  The
    first factor is an exact integer where the exponent is not negative;
    [int] leaves the exponent as it is whenever [j_1-j_2+m_3] is an
    integer.  The docstring's
    [clebsch_gordan(3/2,1/2,1,-1/2,1/2,0) = -sqrt(3)*sqrt(1/6)] is such a
    case. *)
Theorem clebsch_gordan_product (F : Factlist) (j_1 j_2 j_3 m_1 m_2 m_3 : Q)
    (prec : option positive) :
  Factlist_ok F ->
  let sign := py_pow_m1 (int (j_1 - j_2 + m_3)) in
  let root := SSqrt prec (SQ (2 * j_3 + 1)) in
  let W := wigner_3j j_1 j_2 j_3 m_1 m_2 (- m_3) prec F in
  let CG := clebsch_gordan j_1 j_2 (Sage j_3) m_1 m_2 m_3 prec F in
  snd CG = snd W
  /\ (forall e, fst W = Raise e -> fst CG = Raise e)
  /\ (forall w, fst W = Ok w ->
        fst CG = Ok (SMul (SMul sign root) w)
        /\ exact_value (SMul (SMul sign root) w)
           = (Q2R (sgn (int (j_1 - j_2 + m_3)))
              * sqrt (Q2R (2 * j_3 + 1)) * exact_value w)%R
        /\ (exact_value w = 0%R ->
            exact_value (SMul (SMul sign root) w) = 0%R))
  /\ ((0 <= int (j_1 - j_2 + m_3))%Z ->
      sign = SQ (sgn (int (j_1 - j_2 + m_3))))
  /\ (Integral (j_1 - j_2 + m_3) ->
      inject_Z (int (j_1 - j_2 + m_3)) == j_1 - j_2 + m_3)
  /\ (exists v,
        run (clebsch_gordan (3 # 2) (1 # 2) (Sage 1) (- (1 # 2)) (1 # 2) 0
               None) F = Ok v
        /\ is_exact v = true
        /\ exact_value v = (- sqrt 3 * sqrt (1 / 6))%R).
Proof.
  intros HF sign root W CG. subst CG W.
  rewrite clebsch_gordan_unfold. fold sign. fold root.
  assert (Hexp : Integral (j_1 - j_2 + m_3) ->
                 inject_Z (int (j_1 - j_2 + m_3)) == j_1 - j_2 + m_3).
  { intros H. symmetry. now apply Integral_int. }
  assert (Hsign : (0 <= int (j_1 - j_2 + m_3))%Z ->
                  sign = SQ (sgn (int (j_1 - j_2 + m_3)))).
  { apply py_pow_m1_nonneg. }
  destruct (wigner_3j j_1 j_2 j_3 m_1 m_2 (- m_3) prec F) as [[w|e] F'];
    cbn [fst snd].
  - split; [reflexivity|]. split; [discriminate|]. split; [|split; [|split]].
    + intros w' [= <-]. split; [reflexivity|].
      cbn [exact_value]. unfold sign. rewrite py_pow_m1_value.
      split; [reflexivity|].
      intros H0. rewrite H0. rlra.
    + exact Hsign.
    + exact Hexp.
    + now apply clebsch_gordan_example.
  - split; [reflexivity|]. split; [now intros e' [= <-]|].
    split; [discriminate|].
    split; [exact Hsign|].
    split; [exact Hexp | now apply clebsch_gordan_example].
Qed.

(** C7.  The product that [clebsch_gordan] returns is not exact where the
    exponent [int(j_1-j_2+m_3)] is negative: its first factor
    [(-1) ** int(j_1-j_2+m_3)] is then a Python float, since no
    [Integer(...)] is put around the power as [wigner_3j] does for its own
    sign.  For a Sage number [j_3] and a value [w] returned by
    [wigner_3j(j_1,j_2,j_3,m_1,m_2,-m_3)], the call returns the product of
    that float, [sqrt(2*j_3+1)] and [w], which holds a float even where [w]
    is exact.  For a Python int [j_3] the call raises an attribute error,
    an exception that [wigner_3j] never raises.
    [clebsch_gordan(1,4,4,0,1,1)], with exponent -2, is such a call. *)
Theorem clebsch_gordan_float_sign (F : Factlist) (j_1 j_2 j_3 m_1 m_2 m_3 : Q)
    (z : Z) (w : sym) :
  Factlist_ok F ->
  (int (j_1 - j_2 + m_3) < 0)%Z ->
  run (wigner_3j j_1 j_2 j_3 m_1 m_2 (- m_3) None) F = Ok w ->
  (exists v,
     run (clebsch_gordan j_1 j_2 (Sage j_3) m_1 m_2 m_3 None) F = Ok v
     /\ v = SMul (SMul (SFloat (sgn (int (j_1 - j_2 + m_3))))
                       (SSqrt None (SQ (2 * j_3 + 1)))) w
     /\ is_exact v = false)
  /\ run (clebsch_gordan j_1 j_2 (PyInt z) m_1 m_2 m_3 None) F
     = Raise AttributeError
  /\ run (wigner_3j j_1 j_2 (inject_Z z) m_1 m_2 (- m_3) None) F
     <> Raise AttributeError.
Proof.
  intros HF Hneg Hw. split; [|split].
  - eexists. split; [|split; [reflexivity|reflexivity]].
    unfold run in *. rewrite clebsch_gordan_unfold.
    destruct (wigner_3j j_1 j_2 j_3 m_1 m_2 (- m_3) None F) as [r F'].
    cbn [fst] in Hw. subst r. cbn [fst].
    now rewrite py_pow_m1_neg.
  - reflexivity.
  - rewrite wigner_3j_value by assumption.
    intros E. apply Wigner3j_raise in E. intuition discriminate.
Qed.

Lemma clebsch_gordan_float_sign_witness :
  exists w,
    run (wigner_3j 1 4 4 0 1 (- (1)) None) _Factlist_init = Ok w
    /\ is_exact w = true
    /\ run (clebsch_gordan 1 4 (Sage 4) 0 1 1 None) _Factlist_init
       = Ok (SMul (SMul (SFloat 1) (SSqrt None (SQ 9))) w)
    /\ run (clebsch_gordan 1 4 (PyInt 4) 0 1 1 None) _Factlist_init
       = Raise AttributeError.
Proof.
  assert (W : exists w,
             run (wigner_3j 1 4 4 0 1 (- (1)) None) _Factlist_init = Ok w
             /\ is_exact w = true).
  { eexists. split; vm_compute; reflexivity. }
  destruct W as (w & Hw & Ew).
  destruct (@clebsch_gordan_float_sign _Factlist_init 1 4 4 0 1 1 4 w
              Factlist_init_ok eq_refl Hw) as ((v & Hv & -> & _) & Hp & _).
  exists w. split; [exact Hw|]. split; [exact Ew|].
  split; [exact Hv | exact Hp].
Defined.

(** ** Gaunt *)

Lemma half_sum_Qeq S :
  Z.odd S = false -> inject_Z S / 2 == inject_Z (S / 2).
Proof.
  intros H.
  assert (E : S = (2 * (S / 2))%Z).
  { pose proof (Z.div_mod S 2 ltac:(lia)) as D.
    rewrite Zmod_odd, H in D. lia. }
  rewrite E at 1. rewrite inject_Z_mult. change (inject_Z 2) with 2. field.
Qed.

Lemma gaunt_run F l_1 l_2 l_3 m_1 m_2 m_3 prec :
  Factlist_ok F ->
  exists F',
    gaunt l_1 l_2 l_3 m_1 m_2 m_3 prec F
    = (Gaunt l_1 l_2 l_3 m_1 m_2 m_3 prec, F')
    /\ Factlist_ok F' /\ extends F F'.
Proof.
  intros HF. unfold gaunt, Gaunt.
  unfold bind at 1, lift at 1.
  destruct (to_Integer l_1) as [z1|e]; [|now apply stay].
  unfold bind at 1, lift at 1.
  destruct (to_Integer l_2) as [z2|e]; [|now apply stay].
  unfold bind at 1, lift at 1.
  destruct (to_Integer l_3) as [z3|e]; [|now apply stay].
  unfold bind at 1, lift at 1.
  destruct (to_Integer m_1) as [n1|e]; [|now apply stay].
  unfold bind at 1, lift at 1.
  destruct (to_Integer m_2) as [n2|e]; [|now apply stay].
  unfold bind at 1, lift at 1.
  destruct (to_Integer m_3) as [n3|e]; [|now apply stay].
  cbn [res_bind]. clear l_1 l_2 l_3 m_1 m_2 m_3.
  unfold GauntZ, gaunt_rule_fails.
  destruct (z1 + z2 - z3 <? 0)%Z eqn:A1; [now apply stay|].
  destruct (z1 - z2 + z3 <? 0)%Z eqn:A2; [now apply stay|].
  destruct (- z1 + z2 + z3 <? 0)%Z eqn:A3; [now apply stay|].
  cbn [orb].
  rewrite (@int_of (2 * (inject_Z (z1 + z2 + z3) / 2)) (z1 + z2 + z3)%Z)
    by field.
  destruct (Z.odd (z1 + z2 + z3)) eqn:Odd; [now apply stay|].
  destruct (n1 + n2 + n3 =? 0)%Z eqn:M0; cbn [negb orb];
    [|now apply stay].
  all: destruct (z1 <? Z.abs n1)%Z eqn:B1; [now apply stay|];
    destruct (z2 <? Z.abs n2)%Z eqn:B2; [now apply stay|];
    destruct (z3 <? Z.abs n3)%Z eqn:B3; [now apply stay|];
    cbn [orb].
  all: apply Z.ltb_ge in A1, A2, A3, B1, B2, B3; apply Z.eqb_eq in M0.
  all: pose proof (half_sum_Qeq _ Odd) as HL.
  all: fold (gaunt_imin z1 z2 z3 n1 n2); fold (gaunt_imax z1 z2 z3 n1 n2).
  all: set (imin := gaunt_imin z1 z2 z3 n1 n2);
    set (imax := gaunt_imax z1 z2 z3 n1 n2).
  all: set (maxfact := Z.max (z1 + z2 + z3 + 1) (imax + 1)).
  all: destruct (calc_factlist_ok (n := maxfact) HF (Qeq_refl _))
         as (F' & R & HF' & Hext & Hlen).
  all: exists F'; split; [|split; assumption].
  all: rewrite (bind_ok _ _ _ R).
  all: assert (HE : (z1 + z2 + z3 = 2 * ((z1 + z2 + z3) / 2))%Z)
         by (pose proof (Z.div_mod (z1 + z2 + z3) 2 ltac:(lia)) as D;
             rewrite Zmod_odd, Odd in D; lia).
  all: assert (Himin : imin =
         Z.max (Z.max (- z3 + z1 + n2) (- z3 + z2 - n1)) 0) by reflexivity.
  all: assert (Himax : imax =
         Z.min (Z.min (z2 + n2) (z1 - n1)) (z1 + z2 - z3)) by reflexivity.
  all: assert (Hmax : maxfact = Z.max (z1 + z2 + z3 + 1) (imax + 1))
         by reflexivity.
  all: clearbody imin imax maxfact.
  all: rewrite bind_prod_from_ok
         by (try assumption; repeat (apply Forall_cons; [lia|]);
             apply Forall_nil).
  all: unfold bind at 1, lift at 1; rewrite (to_Integer_of HL).
  all: rewrite bind_prod_ok
         by (try assumption; repeat (apply Forall_cons; [lia|]);
             apply Forall_nil).
  all: rewrite bind_get_ok by (try assumption; lia).
  all: rewrite bind_Integer_div_ok
         by (apply Z.neq_sym, Z.lt_neq, factorial_pos).
  all: rewrite bind_prod_ok
         by (try assumption; repeat (apply Forall_cons; [lia|]);
             apply Forall_nil).
  all: rewrite bind_Rational_div_ok
         by (apply Z.neq_sym, Z.lt_neq, fold_fact_pos; lia).
  all: rewrite (bind_sum_loop_ok _ (gaunt_term z1 z2 z3 n1 n2));
    [| intros s kk Hk; unfold gaunt_step;
       rewrite bind_prod_ok
         by (try assumption; repeat (apply Forall_cons; [lia|]);
             apply Forall_nil);
       rewrite bind_Integer_div_ok
         by (apply Z.neq_sym, Z.lt_neq, fold_fact_pos; lia);
       unfold ret; do 3 f_equal;
       unfold gaunt_term, zfact, sgn; cbn [fold_left];
       rewrite Z.mul_1_l; reflexivity ].
  all: rewrite (@int_of (inject_Z (z1 + z2 + z3) / 2 + inject_Z z3
                          + inject_Z n1 - inject_Z n2)
                        ((z1 + z2 + z3) / 2 + z3 + n1 - n2)%Z)
         by (rewrite HL; unfold Z.sub;
             rewrite !inject_Z_plus, inject_Z_opp; ring).
  all: cbn [fold_left]; rewrite !Z.mul_1_l.
  all: destruct prec; reflexivity.
Qed.

Lemma gaunt_value F l_1 l_2 l_3 m_1 m_2 m_3 prec :
  Factlist_ok F ->
  run (gaunt l_1 l_2 l_3 m_1 m_2 m_3 prec) F
  = Gaunt l_1 l_2 l_3 m_1 m_2 m_3 prec.
Proof.
  intros HF.
  destruct (gaunt_run l_1 l_2 l_3 m_1 m_2 m_3 prec HF) as (F' & H & _).
  exact (run_eq _ _ H).
Qed.

Lemma Gaunt_inject_Z l_1 l_2 l_3 m_1 m_2 m_3 prec :
  Gaunt (inject_Z l_1) (inject_Z l_2) (inject_Z l_3)
        (inject_Z m_1) (inject_Z m_2) (inject_Z m_3) prec
  = GauntZ l_1 l_2 l_3 m_1 m_2 m_3 prec.
Proof.
  unfold Gaunt. now rewrite !(to_Integer_of (Qeq_refl _)).
Qed.

Lemma gaunt_101_10m1 F :
  Factlist_ok F ->
  exists v, run (gaunt 1 0 1 1 0 (-1) None) F = Ok v
            /\ exact_value v = (-1 / (2 * sqrt PI))%R.
Proof.
  intros HF. rewrite (gaunt_value _ _ _ _ _ _ _ HF).
  eexists. split; [vm_compute; reflexivity|].
  cbn [exact_value]. unfold Q2R. cbn [Qnum Qden].
  pose proof PI_RGT_0 as Hpi.
  assert (Hs : (0 < sqrt PI)%R) by now apply sqrt_lt_R0.
  replace (36 * / 1 / (4 * / 1 * PI))%R with ((3 * 3) / PI)%R
    by (field; rlra).
  rewrite sqrt_div_alt by assumption.
  rewrite sqrt_square by rlra.
  field. rlra.
Qed.

Lemma gaunt_101_100 F :
  Factlist_ok F -> run (gaunt 1 0 1 1 0 0 None) F = Ok (SQ 0).
Proof.
  intros HF. now rewrite (gaunt_value _ _ _ _ _ _ _ HF).
Qed.

Lemma gaunt_rule_fails_true l_1 l_2 l_3 m_1 m_2 m_3 :
  gaunt_rule_fails l_1 l_2 l_3 m_1 m_2 m_3 = true <->
  (l_1 + l_2 - l_3 < 0 \/ l_1 - l_2 + l_3 < 0 \/ - l_1 + l_2 + l_3 < 0
   \/ Z.odd (l_1 + l_2 + l_3) = true \/ m_1 + m_2 + m_3 <> 0
   \/ l_1 < Z.abs m_1 \/ l_2 < Z.abs m_2 \/ l_3 < Z.abs m_3)%Z.
Proof.
  unfold gaunt_rule_fails.
  rewrite !orb_true_iff, negb_true_iff, !Z.ltb_lt, Z.eqb_neq. tauto.
Qed.

Lemma gaunt_zero F l_1 l_2 l_3 m_1 m_2 m_3 prec :
  gaunt_rule_fails l_1 l_2 l_3 m_1 m_2 m_3 = true ->
  gaunt (inject_Z l_1) (inject_Z l_2) (inject_Z l_3)
        (inject_Z m_1) (inject_Z m_2) (inject_Z m_3) prec F = (Ok (SQ 0), F).
Proof.
  unfold gaunt_rule_fails, gaunt. intros H.
  unfold bind, lift. rewrite !(to_Integer_of (Qeq_refl _)).
  rewrite (@int_of (2 * (inject_Z (l_1 + l_2 + l_3) / 2)) (l_1 + l_2 + l_3)%Z)
    by field.
  destruct (l_1 + l_2 - l_3 <? 0)%Z; [reflexivity|].
  destruct (l_1 - l_2 + l_3 <? 0)%Z; [reflexivity|].
  destruct (- l_1 + l_2 + l_3 <? 0)%Z; [reflexivity|].
  destruct (Z.odd (l_1 + l_2 + l_3)); [reflexivity|].
  destruct (negb (m_1 + m_2 + m_3 =? 0)%Z); [reflexivity|].
  cbn [orb] in H. now rewrite H.
Qed.

(** C4.  On a table that satisfies the invariant and for integer inputs,
    [gaunt] returns the integer 0, without raising and without touching
    the table, whenever one of [l_1+l_2-l_3], [l_1-l_2+l_3], [-l_1+l_2+l_3]
    is negative, or [l_1+l_2+l_3] is odd, or [m_1+m_2+m_3] is not 0, or
    [|m_i| > l_i] for some [i]; otherwise, with [prec=None], it returns
    [sqrt(radicand) * prefac * sum * (-1)^(L+l_3+m_1-m_2)] as the
    specification spells them out.  In particular [gaunt(1,0,1,1,0,-1) =
    -1/(2 sqrt(pi))] and [gaunt(1,0,1,1,0,0) = 0]. *)
Theorem gaunt_spec (F : Factlist) (l_1 l_2 l_3 m_1 m_2 m_3 : Z)
    (prec : option positive) :
  Factlist_ok F ->
  let fails :=
    (l_1 + l_2 - l_3 < 0 \/ l_1 - l_2 + l_3 < 0 \/ - l_1 + l_2 + l_3 < 0
     \/ Z.odd (l_1 + l_2 + l_3) = true \/ m_1 + m_2 + m_3 <> 0
     \/ l_1 < Z.abs m_1 \/ l_2 < Z.abs m_2 \/ l_3 < Z.abs m_3)%Z in
  (fails ->
   gaunt (inject_Z l_1) (inject_Z l_2) (inject_Z l_3)
         (inject_Z m_1) (inject_Z m_2) (inject_Z m_3) prec F
   = (Ok (SQ 0), F))
  /\ (~ fails ->
      exists v,
        run (gaunt (inject_Z l_1) (inject_Z l_2) (inject_Z l_3)
                   (inject_Z m_1) (inject_Z m_2) (inject_Z m_3) None) F
        = Ok v
        /\ exact_value v
           = (sqrt (Q2R (gaunt_radicand_num l_1 l_2 l_3 m_1 m_2 m_3)
                    / (4 * PI))
              * Q2R (gaunt_prefac l_1 l_2 l_3)
              * Q2R (Qsum (gaunt_imin l_1 l_2 l_3 m_1 m_2)
                          (gaunt_imax l_1 l_2 l_3 m_1 m_2)
                          (gaunt_term l_1 l_2 l_3 m_1 m_2))
              * Q2R (gaunt_sign l_1 l_2 l_3 m_1 m_2))%R)
  /\ (exists v, run (gaunt 1 0 1 1 0 (-1) None) F = Ok v
                /\ exact_value v = (-1 / (2 * sqrt PI))%R)
  /\ run (gaunt 1 0 1 1 0 0 None) F = Ok (SQ 0).
Proof.
  intros HF fails. subst fails. split; [|split; [|split]].
  - intros H. apply gaunt_zero. now apply gaunt_rule_fails_true.
  - intros H. rewrite (gaunt_value _ _ _ _ _ _ _ HF), Gaunt_inject_Z.
    unfold GauntZ.
    destruct (gaunt_rule_fails l_1 l_2 l_3 m_1 m_2 m_3) eqn:E.
    { now apply gaunt_rule_fails_true in E. }
    eexists. split; [reflexivity|].
    cbn [exact_value].
    replace (Q2R 4) with 4%R by (unfold Q2R; simpl; rlra).
    reflexivity.
  - now apply gaunt_101_10m1.
  - now apply gaunt_101_100.
Qed.

Lemma gaunt_spec_witness :
  (exists v, run (gaunt 1 0 1 1 0 (-1) None) _Factlist_init = Ok v
             /\ exact_value v = (-1 / (2 * sqrt PI))%R)
  /\ gaunt (inject_Z 1) (inject_Z 2) (inject_Z 2)
           (inject_Z 1) (inject_Z 0) (inject_Z (-1)) None _Factlist_init
     = (Ok (SQ 0), _Factlist_init).
Proof.
  assert (Hok : Factlist_ok _Factlist_init).
  { split; [discriminate|].
    intros [|i] Hi; [reflexivity | simpl in Hi; lia]. }
  split.
  - exact (proj1 (proj2 (proj2
      (@gaunt_spec _Factlist_init 0 0 0 0 0 0 None Hok)))).
  - refine (proj1 (@gaunt_spec _Factlist_init 1 2 2 1 0 (-1) None Hok) _).
    do 3 right. left. reflexivity.
Defined.

(** ** Sums over ranges *)

Lemma fold_add_acc {X} (f : X -> Q) (l : list X) : forall a,
  fold_left (fun s k => s + f k) l a
  == a + fold_left (fun s k => s + f k) l 0.
Proof.
  induction l as [|x l IH]; intros a; cbn [fold_left].
  - ring.
  - rewrite IH, (IH (0 + f x)). ring.
Qed.

Lemma fold_add_ext {X} (f g : X -> Q) (l : list X) :
  (forall x, In x l -> f x == g x) ->
  forall a b, a == b ->
  fold_left (fun s k => s + f k) l a == fold_left (fun s k => s + g k) l b.
Proof.
  induction l as [|x l IH]; intros H a b Hab; cbn [fold_left].
  - exact Hab.
  - apply IH.
    + intros y Hy. apply H. now right.
    + rewrite Hab, (H x (or_introl eq_refl)). reflexivity.
Qed.

Lemma fold_add_map {X Y} (f : Y -> Q) (g : X -> Y) (l : list X) : forall a,
  fold_left (fun s k => s + f k) (map g l) a
  = fold_left (fun s k => s + f (g k)) l a.
Proof.
  induction l as [|x l IH]; intros a; cbn [fold_left map]; [reflexivity|].
  apply IH.
Qed.

Lemma fold_add_rev {X} (f : X -> Q) (l : list X) :
  fold_left (fun s k => s + f k) (rev l) 0
  == fold_left (fun s k => s + f k) l 0.
Proof.
  induction l as [|x l IH]; cbn [rev fold_left]; [reflexivity|].
  rewrite fold_left_app. cbn [fold_left].
  rewrite IH, (fold_add_acc f l (0 + f x)). ring.
Qed.

Lemma range_shift lo hi c :
  range (lo + c) (hi + c) = map (fun k => (k + c)%Z) (range lo hi).
Proof.
  unfold range. rewrite map_map.
  replace (hi + c - (lo + c))%Z with (hi - lo)%Z by lia.
  apply map_ext. intros k. lia.
Qed.

Lemma range_reflect lo hi c :
  range (c - hi) (c - lo + 1)
  = rev (map (fun k => (c - k)%Z) (range lo (hi + 1))).
Proof.
  destruct (Z.le_gt_cases lo hi) as [H|H].
  - remember (Z.to_nat (hi - lo)) as n eqn:Hn.
    revert hi H Hn. induction n as [|n IH]; intros hi H Hn.
    + assert (hi = lo) by lia. subst hi.
      rewrite (range_cons (lo := c - lo)) by lia.
      rewrite (range_nil (lo := c - lo + 1)) by lia.
      rewrite (range_cons (lo := lo)) by lia.
      rewrite (range_nil (lo := lo + 1)) by lia. reflexivity.
    + rewrite (range_cons (lo := c - hi)) by lia.
      rewrite (range_snoc (lo := lo) (hi := hi)) by lia.
      rewrite map_app, rev_app_distr. cbn [map rev app]. f_equal.
      replace (c - hi + 1)%Z with (c - (hi - 1))%Z by lia.
      replace hi with (hi - 1 + 1)%Z at 2 by lia.
      apply IH; lia.
  - rewrite !range_nil by lia. reflexivity.
Qed.

Lemma Qsum_ext lo hi f g :
  (forall k, (lo <= k <= hi)%Z -> f k == g k) ->
  Qsum lo hi f == Qsum lo hi g.
Proof.
  intros H. unfold Qsum. apply fold_add_ext; [|reflexivity].
  intros k Hk. apply in_range in Hk. apply H. lia.
Qed.

Lemma Qsum_shift lo hi c f :
  Qsum (lo + c) (hi + c) f = Qsum lo hi (fun k => f (k + c)%Z).
Proof.
  unfold Qsum. replace (hi + c + 1)%Z with (hi + 1 + c)%Z by lia.
  now rewrite range_shift, fold_add_map.
Qed.

Lemma Qsum_reflect lo hi c f :
  Qsum (c - hi) (c - lo) f == Qsum lo hi (fun k => f (c - k)%Z).
Proof.
  unfold Qsum. now rewrite range_reflect, fold_add_rev, fold_add_map.
Qed.

Lemma Qsum_scale lo hi c f :
  Qsum lo hi (fun k => c * f k) == c * Qsum lo hi f.
Proof.
  unfold Qsum. generalize (range lo (hi + 1)). intros l.
  induction l as [|x l IH]; cbn [fold_left]; [ring|].
  rewrite (fold_add_acc _ l (0 + c * f x)), (fold_add_acc f l (0 + f x)), IH.
  ring.
Qed.

(** ** Signs *)

Lemma pow_m1_add a b : pow_m1 (a + b) = (pow_m1 a * pow_m1 b)%Z.
Proof.
  unfold pow_m1. rewrite Z.even_add.
  now destruct (Z.even a), (Z.even b).
Qed.

Lemma pow_m1_opp a : pow_m1 (- a) = pow_m1 a.
Proof. unfold pow_m1. now rewrite Z.even_opp. Qed.

Lemma pow_m1_double a : pow_m1 (2 * a) = 1%Z.
Proof. unfold pow_m1. now rewrite Z.even_mul. Qed.

Lemma pow_m1_sqr a : (pow_m1 a * pow_m1 a)%Z = 1%Z.
Proof. unfold pow_m1. now destruct (Z.even a). Qed.

Lemma sgn_add a b : sgn (a + b) == sgn a * sgn b.
Proof. unfold sgn. now rewrite pow_m1_add, inject_Z_mult. Qed.

(** Two exponents that differ by an even number give the same sign. *)
Lemma sgn_even_diff a b c : (a - b = 2 * c)%Z -> sgn a = sgn b.
Proof.
  intros H. replace a with (2 * c + b)%Z by lia.
  unfold sgn. now rewrite pow_m1_add, pow_m1_double, Z.mul_1_l.
Qed.

(** ** Symmetries of the 3-j sum on integers *)

Lemma zfact_neq0 n : ~ zfact n == 0.
Proof.
  intros H.
  assert (Hp : 0 < zfact n).
  { unfold zfact. change 0 with (inject_Z 0). rewrite <- Zlt_Qlt.
    apply factorial_pos. }
  rewrite H in Hp. now apply Qlt_irrefl in Hp.
Qed.

Lemma sgn_opp a : sgn (- a) = sgn a.
Proof. unfold sgn. now rewrite pow_m1_opp. Qed.

Lemma sgn_sqr a : sgn a * sgn a == 1.
Proof. unfold sgn. now rewrite <- inject_Z_mult, pow_m1_sqr. Qed.







Lemma w3jZ_term_cyclic p1 p2 p3 q1 q2 q3 k :
  (p1 + p2 + p3 = q1 + q2 + q3)%Z ->
  w3jZ_term p3 p1 p2 q3 q1 q2 (k + (p3 - q2))
  == sgn (p3 - q2) * w3jZ_term p1 p2 p3 q1 q2 q3 k.
Proof.
  intros H. unfold w3jZ_term. rewrite sgn_add. unify_zfact.
  field. repeat split; apply zfact_neq0.
Qed.

Lemma w3jZ_term_swap12 p1 p2 p3 q1 q2 q3 k :
  (p1 + p2 + p3 = q1 + q2 + q3)%Z ->
  w3jZ_term p2 p1 p3 q2 q1 q3 (p1 + p2 - q3 - k)
  == sgn (p1 + p2 - q3) * w3jZ_term p1 p2 p3 q1 q2 q3 k.
Proof.
  intros H. unfold w3jZ_term.
  replace (sgn (p1 + p2 - q3 - k)) with (sgn (p1 + p2 - q3 + - k))
    by (f_equal; lia).
  rewrite sgn_add, sgn_opp. unify_zfact.
  field. repeat split; apply zfact_neq0.
Qed.

Lemma w3jZ_term_inflect p1 p2 p3 q1 q2 q3 k :
  (p1 + p2 + p3 = q1 + q2 + q3)%Z ->
  w3jZ_term q1 q2 q3 p1 p2 p3 (p1 + p2 - q3 - k)
  == sgn (p1 + p2 - q3) * w3jZ_term p1 p2 p3 q1 q2 q3 k.
Proof.
  intros H. unfold w3jZ_term.
  replace (sgn (p1 + p2 - q3 - k)) with (sgn (p1 + p2 - q3 + - k))
    by (f_equal; lia).
  rewrite sgn_add, sgn_opp. unify_zfact.
  field. repeat split; apply zfact_neq0.
Qed.

Lemma w3jZ_sum_cyclic p1 p2 p3 q1 q2 q3 :
  (p1 + p2 + p3 = q1 + q2 + q3)%Z ->
  w3jZ_sum p3 p1 p2 q3 q1 q2
  == sgn (p3 - q2) * w3jZ_sum p1 p2 p3 q1 q2 q3.
Proof.
  intros H. unfold w3jZ_sum.
  replace (Z.max (Z.max (p3 - q2) (q1 - p2)) 0)
    with (Z.max (Z.max (p1 - q3) (q2 - p3)) 0 + (p3 - q2))%Z by lia.
  replace (Z.min (Z.min q1 p3) (p3 + p1 - q2))
    with (Z.min (Z.min q2 p1) (p1 + p2 - q3) + (p3 - q2))%Z by lia.
  rewrite Qsum_shift, <- Qsum_scale.
  apply Qsum_ext. intros k _. now apply w3jZ_term_cyclic.
Qed.

Lemma w3jZ_sum_swap12 p1 p2 p3 q1 q2 q3 :
  (p1 + p2 + p3 = q1 + q2 + q3)%Z ->
  w3jZ_sum p2 p1 p3 q2 q1 q3
  == sgn (p1 + p2 - q3) * w3jZ_sum p1 p2 p3 q1 q2 q3.
Proof.
  intros H. unfold w3jZ_sum.
  replace (Z.max (Z.max (p2 - q3) (q1 - p3)) 0)
    with (p1 + p2 - q3 - Z.min (Z.min q2 p1) (p1 + p2 - q3))%Z by lia.
  replace (Z.min (Z.min q1 p2) (p2 + p1 - q3))
    with (p1 + p2 - q3 - Z.max (Z.max (p1 - q3) (q2 - p3)) 0)%Z by lia.
  rewrite Qsum_reflect, <- Qsum_scale.
  apply Qsum_ext. intros k _. now apply w3jZ_term_swap12.
Qed.

Lemma w3jZ_sum_inflect p1 p2 p3 q1 q2 q3 :
  (p1 + p2 + p3 = q1 + q2 + q3)%Z ->
  w3jZ_sum q1 q2 q3 p1 p2 p3
  == sgn (p1 + p2 - q3) * w3jZ_sum p1 p2 p3 q1 q2 q3.
Proof.
  intros H. unfold w3jZ_sum.
  replace (Z.max (Z.max (q1 - p3) (p2 - q3)) 0)
    with (p1 + p2 - q3 - Z.min (Z.min q2 p1) (p1 + p2 - q3))%Z by lia.
  replace (Z.min (Z.min p2 q1) (q1 + q2 - p3))
    with (p1 + p2 - q3 - Z.max (Z.max (p1 - q3) (q2 - p3)) 0)%Z by lia.
  rewrite Qsum_reflect, <- Qsum_scale.
  apply Qsum_ext. intros k _. now apply w3jZ_term_inflect.
Qed.

Lemma w3jZ_signed_sum_cyclic p1 p2 p3 q1 q2 q3 :
  (p1 + p2 + p3 = q1 + q2 + q3)%Z ->
  w3jZ_signed_sum p3 p1 p2 q3 q1 q2 == w3jZ_signed_sum p1 p2 p3 q1 q2 q3.
Proof.
  intros H. unfold w3jZ_signed_sum.
  rewrite (w3jZ_sum_cyclic _ _ _ _ _ _ H), Qmult_assoc, <- sgn_add.
  now rewrite (@sgn_even_diff (q3 - p1 + (p3 - q2)) (q1 - p2) (q3 - p1))
    by lia.
Qed.

Lemma w3jZ_signed_sum_swap12 p1 p2 p3 q1 q2 q3 :
  (p1 + p2 + p3 = q1 + q2 + q3)%Z ->
  w3jZ_signed_sum p2 p1 p3 q2 q1 q3
  == sgn (p1 + p2 + p3) * w3jZ_signed_sum p1 p2 p3 q1 q2 q3.
Proof.
  intros H. unfold w3jZ_signed_sum.
  rewrite (w3jZ_sum_swap12 _ _ _ _ _ _ H), !Qmult_assoc, <- !sgn_add.
  now rewrite (@sgn_even_diff (q2 - p1 + (p1 + p2 - q3))
                 (p1 + p2 + p3 + (q1 - p2)) (p2 - q1 - q3)) by lia.
Qed.

Lemma w3jZ_signed_sum_inflect p1 p2 p3 q1 q2 q3 :
  (p1 + p2 + p3 = q1 + q2 + q3)%Z ->
  w3jZ_signed_sum q1 q2 q3 p1 p2 p3
  == sgn (p1 + p2 + p3) * w3jZ_signed_sum p1 p2 p3 q1 q2 q3.
Proof.
  intros H. unfold w3jZ_signed_sum.
  rewrite (w3jZ_sum_inflect _ _ _ _ _ _ H), !Qmult_assoc, <- !sgn_add.
  now rewrite (@sgn_even_diff (p1 - q2 + (p1 + p2 - q3))
                 (p1 + p2 + p3 + (q1 - p2)) (p1 + p2 - q1 - q2 - q3)) by lia.
Qed.

(** ** The 3-j symbol of integral inputs *)

Lemma Qmax_of x y a b :
  x == inject_Z a -> y == inject_Z b -> Qmax x y == inject_Z (Z.max a b).
Proof.
  intros Hx Hy. unfold Qmax. destruct (Qle_bool x y) eqn:E.
  - apply Qle_bool_iff in E. rewrite Hx, Hy, <- Zle_Qle in E.
    now rewrite Z.max_r.
  - apply Qle_bool_false in E. rewrite Hx, Hy, <- Zlt_Qlt in E.
    rewrite Z.max_l by lia. assumption.
Qed.

Lemma Qmin_of x y a b :
  x == inject_Z a -> y == inject_Z b -> Qmin x y == inject_Z (Z.min a b).
Proof.
  intros Hx Hy. unfold Qmin. destruct (Qle_bool x y) eqn:E.
  - apply Qle_bool_iff in E. rewrite Hx, Hy, <- Zle_Qle in E.
    now rewrite Z.min_l.
  - apply Qle_bool_false in E. rewrite Hx, Hy, <- Zlt_Qlt in E.
    rewrite Z.min_r by lia. assumption.
Qed.

(** [int x = z] for a rational expression [x] that the hypotheses make
    equal to the integer [z]. *)
Ltac solve_int :=
  apply int_of; unfold Z.sub;
  rewrite ?inject_Z_plus, ?inject_Z_opp; change (inject_Z 1) with 1;
  change (inject_Z 0) with 0; qlra.

Section IntegralInputs.

Variables j_1 j_2 j_3 m_1 m_2 m_3 : Q.
Variables p1 p2 p3 q1 q2 q3 : Z.
Hypothesis P1 : j_1 - m_1 == inject_Z p1.
Hypothesis P2 : j_2 - m_2 == inject_Z p2.
Hypothesis P3 : j_3 - m_3 == inject_Z p3.
Hypothesis Q1 : j_1 + m_1 == inject_Z q1.
Hypothesis Q2 : j_2 + m_2 == inject_Z q2.
Hypothesis Q3 : j_3 + m_3 == inject_Z q3.

Lemma w3j_rules_integers :
  w3j_rule_fails j_1 j_2 j_3 m_1 m_2 m_3 = negb (w3jZ_ok p1 p2 p3 q1 q2 q3).
Proof.
  assert (H : w3j_rule_fails j_1 j_2 j_3 m_1 m_2 m_3 = false
              <-> w3jZ_ok p1 p2 p3 q1 q2 q3 = true).
  { rewrite w3j_rule_fails_false. unfold w3jZ_ok.
    rewrite !andb_true_iff, !Z.leb_le, Z.eqb_eq.
    rewrite !Qabs_Qle_condition.
    rewrite <- inject_Z_injective, !Zle_Qle. unfold Z.sub.
    rewrite !inject_Z_plus, !inject_Z_opp. change (inject_Z 0) with 0.
    repeat split; intros; repeat match goal with
                                 | H : _ /\ _ |- _ => destruct H
                                 end; qlra. }
  destruct (w3jZ_ok p1 p2 p3 q1 q2 q3); cbn [negb].
  - now apply H.
  - destruct (w3j_rule_fails j_1 j_2 j_3 m_1 m_2 m_3); [reflexivity|].
    now apply H.
Qed.

Hypothesis Hsum : (p1 + p2 + p3 = q1 + q2 + q3)%Z.

Let HsumQ : inject_Z p1 + inject_Z p2 + inject_Z p3
            == inject_Z q1 + inject_Z q2 + inject_Z q3.
Proof. rewrite <- !inject_Z_plus. now rewrite Hsum. Qed.

Lemma w3j_radicand_integers :
  w3j_radicand j_1 j_2 j_3 m_1 m_2 (- m_3)
  = w3jZ_radicand p1 p2 p3 q1 q2 q3.
Proof.
  unfold w3j_radicand, w3jZ_radicand, qfact, zfact.
  repeat f_equal; solve_int.
Qed.

Lemma w3j_term_integers k :
  w3j_term j_1 j_2 j_3 m_1 m_2 k = w3jZ_term p1 p2 p3 q1 q2 q3 k.
Proof.
  unfold w3j_term, w3jZ_term, qfact, zfact.
  repeat f_equal; solve_int.
Qed.

Lemma w3j_imin_integers :
  w3j_imin j_1 j_2 j_3 m_1 m_2 = Z.max (Z.max (p1 - q3) (q2 - p3)) 0.
Proof.
  unfold w3j_imin. apply int_of.
  apply Qmax_of; [apply Qmax_of|reflexivity];
    unfold Z.sub; rewrite !inject_Z_plus, !inject_Z_opp; qlra.
Qed.

Lemma w3j_imax_integers :
  w3j_imax j_1 j_2 j_3 m_1 m_2 = Z.min (Z.min q2 p1) (p1 + p2 - q3).
Proof.
  unfold w3j_imax. apply int_of.
  apply Qmin_of; [apply Qmin_of|];
    unfold Z.sub; rewrite ?inject_Z_plus, ?inject_Z_opp; qlra.
Qed.

Lemma w3j_sum_integers :
  Qsum (w3j_imin j_1 j_2 j_3 m_1 m_2) (w3j_imax j_1 j_2 j_3 m_1 m_2)
       (w3j_term j_1 j_2 j_3 m_1 m_2)
  = w3jZ_sum p1 p2 p3 q1 q2 q3.
Proof.
  rewrite w3j_imin_integers, w3j_imax_integers. unfold w3jZ_sum, Qsum.
  apply fold_left_ext_in. intros a k _. now rewrite w3j_term_integers.
Qed.

End IntegralInputs.

Lemma Wigner3j_integers j_1 j_2 j_3 m_1 m_2 m_3 p1 p2 p3 q1 q2 q3 prec :
  j_1 - m_1 == inject_Z p1 -> j_2 - m_2 == inject_Z p2 ->
  j_3 - m_3 == inject_Z p3 ->
  j_1 + m_1 == inject_Z q1 -> j_2 + m_2 == inject_Z q2 ->
  j_3 + m_3 == inject_Z q3 ->
  Wigner3j j_1 j_2 j_3 m_1 m_2 m_3 prec = W3jZ p1 p2 p3 q1 q2 q3 prec.
Proof.
  intros P1 P2 P3 Q1 Q2 Q3. unfold Wigner3j, W3jZ.
  rewrite (@is_integral_of (j_1 * 2) (p1 + q1))
    by (rewrite inject_Z_plus; qlra).
  rewrite (@is_integral_of (j_2 * 2) (p2 + q2))
    by (rewrite inject_Z_plus; qlra).
  rewrite (@is_integral_of (j_3 * 2) (p3 + q3))
    by (rewrite inject_Z_plus; qlra).
  rewrite (@is_integral_of (m_1 * 2) (q1 + - p1))
    by (rewrite inject_Z_plus, inject_Z_opp; qlra).
  rewrite (@is_integral_of (m_2 * 2) (q2 + - p2))
    by (rewrite inject_Z_plus, inject_Z_opp; qlra).
  rewrite (@is_integral_of (m_3 * 2) (q3 + - p3))
    by (rewrite inject_Z_plus, inject_Z_opp; qlra).
  cbn [andb negb].
  rewrite (w3j_rules_integers P1 P2 P3 Q1 Q2 Q3).
  destruct (w3jZ_ok p1 p2 p3 q1 q2 q3) eqn:OK; cbn [negb]; [|reflexivity].
  assert (Hsum : (p1 + p2 + p3 = q1 + q2 + q3)%Z).
  { unfold w3jZ_ok in OK. rewrite !andb_true_iff, Z.eqb_eq in OK. tauto. }
  assert (HsumQ : inject_Z p1 + inject_Z p2 + inject_Z p3
                  == inject_Z q1 + inject_Z q2 + inject_Z q3).
  { rewrite <- !inject_Z_plus. now rewrite Hsum. }
  rewrite (@is_integral_of (j_1 + j_2 + j_3) (p1 + p2 + p3))
    by (rewrite !inject_Z_plus; qlra).
  cbn [negb].
  rewrite (w3j_radicand_integers P1 P2 P3 Q1 Q2 Q3 Hsum).
  rewrite (w3j_sum_integers P1 P2 P3 Q1 Q2 Q3 Hsum).
  do 4 f_equal. solve_int.
Qed.











(** C9.  The code breaks the cyclic symmetry its docstring states:
    [j = (1,1,1)], [m = (1/2,-1/2,0)] pass the half-integer validation and
    every selection rule, [wigner_3j] truncates the half-integer
    [j_i - m_i] and [j_i + m_i] with [int] where it reads the factorial
    table, and returns [sqrt(1/24)], which is not 0, for them and 0 for the
    cyclic permutation [j = (1,1,1)], [m = (0,1/2,-1/2)] of their
    columns. *)
Lemma wigner_3j_not_cyclic_on_half_integer_gaps :
  w3j_admissible 1 1 1 (1 # 2) (- (1 # 2)) 0
  /\ (exists v,
        run (wigner_3j 1 1 1 (1 # 2) (- (1 # 2)) 0 None) _Factlist_init = Ok v
        /\ exact_value v = sqrt (1 / 24))
  /\ (exists v,
        run (wigner_3j 1 1 1 0 (1 # 2) (- (1 # 2)) None) _Factlist_init = Ok v
        /\ exact_value v = 0%R)
  /\ (0 < sqrt (1 / 24))%R.
Proof.
  split; [|split; [|split]].
  - repeat split; try (now exists 2%Z); try (now exists 1%Z);
      try (now exists (-1)%Z); try (now exists 0%Z); discriminate.
  - eexists. split; [vm_compute; reflexivity|].
    cbn [exact_value].
    replace (Q2R (1 # 24)) with (1 / 24)%R by (unfold Q2R; simpl; rlra).
    replace (Q2R 1) with 1%R by (unfold Q2R; simpl; rlra).
    rlra.
  - eexists. split; [vm_compute; reflexivity|].
    cbn [exact_value].
    replace (Q2R 0) with 0%R by (unfold Q2R; simpl; rlra).
    rlra.
  - apply sqrt_lt_R0. rlra.
Qed.

(* ================================================================== *)
(** * Further properties of the code *)

(** ** The factorial table under every function *)

Lemma keeps_of_run {A} (c : M A) (r : res A) F :
  (exists F', c F = (r, F') /\ Factlist_ok F' /\ extends F F') ->
  keeps_table c F.
Proof. intros (F' & H & HF' & E). unfold keeps_table. now rewrite H. Qed.

Lemma clebsch_gordan_run F j_1 j_2 j_3 m_1 m_2 m_3 prec :
  Factlist_ok F ->
  exists F',
    clebsch_gordan j_1 j_2 j_3 m_1 m_2 m_3 prec F
    = (Clebsch j_1 j_2 j_3 m_1 m_2 m_3 prec, F')
    /\ Factlist_ok F' /\ extends F F'.
Proof.
  intros HF. destruct j_3 as [j_3|z].
  2:{ exists F. split; [reflexivity|]. split; [assumption | apply extends_refl]. }
  rewrite clebsch_gordan_unfold. unfold Clebsch.
  destruct (wigner_3j_run j_1 j_2 j_3 m_1 m_2 (- m_3) prec HF)
    as (F' & R & HF' & E).
  exists F'. rewrite R. split; [|split; assumption].
  now destruct (Wigner3j j_1 j_2 j_3 m_1 m_2 (- m_3) prec).
Qed.

Lemma clebsch_gordan_value F j_1 j_2 j_3 m_1 m_2 m_3 prec :
  Factlist_ok F ->
  run (clebsch_gordan j_1 j_2 j_3 m_1 m_2 m_3 prec) F
  = Clebsch j_1 j_2 j_3 m_1 m_2 m_3 prec.
Proof.
  intros HF.
  destruct (clebsch_gordan_run j_1 j_2 j_3 m_1 m_2 m_3 prec HF) as (F' & H & _).
  exact (run_eq _ _ H).
Qed.

Lemma calc_factlist_keeps F nn :
  Factlist_ok F -> keeps_table (_calc_factlist nn) F.
Proof.
  intros HF. destruct (is_integral nn) eqn:E.
  - apply is_integral_true in E.
    destruct (calc_factlist_ok HF E) as (F' & H & HF' & Ext & _).
    apply (@keeps_of_run _ _ (Ok (slice_to F' (int nn + 1)))). now exists F'.
  - apply (@keeps_of_run _ _ (Raise TypeError)). exists F.
    split; [now apply calc_factlist_TypeError|].
    split; [assumption | apply extends_refl].
Qed.

(** X2.  Every function keeps the factorial table: called on a table that
    satisfies the invariant, with any arguments, whether it returns or
    raises, each of [_calc_factlist], [_big_delta_coeff], [racah],
    [wigner_6j], [wigner_9j], [wigner_3j], [clebsch_gordan] and [gaunt]
    leaves a table that satisfies the invariant and starts with the table
    it found: no entry is changed or removed. *)
Theorem coefficients_keep_table (F : Factlist) (a b c d e f g h i : Q)
    (j : pynum) (prec : option positive) :
  Factlist_ok F ->
  keeps_table (_calc_factlist a) F
  /\ keeps_table (_big_delta_coeff a b c prec) F
  /\ keeps_table (racah a b c d e f prec) F
  /\ keeps_table (wigner_6j a b c d e f prec) F
  /\ keeps_table (wigner_9j a b c d e f g h i prec) F
  /\ keeps_table (wigner_3j a b c d e f prec) F
  /\ keeps_table (clebsch_gordan a b j d e f prec) F
  /\ keeps_table (gaunt a b c d e f prec) F.
Proof.
  intros HF.
  split; [now apply calc_factlist_keeps|].
  split; [eapply keeps_of_run; now apply big_delta_coeff_run|].
  split; [eapply keeps_of_run; now apply racah_run|].
  split; [eapply keeps_of_run; now apply wigner_6j_run|].
  split; [eapply keeps_of_run; now apply wigner_9j_run|].
  split; [eapply keeps_of_run; now apply wigner_3j_run|].
  split; [eapply keeps_of_run; now apply clebsch_gordan_run|].
  eapply keeps_of_run; now apply gaunt_run.
Qed.

Lemma coefficients_keep_table_witness :
  keeps_table (wigner_9j 1 1 1 1 1 1 1 1 0 None) _Factlist_init.
Proof.
  exact (proj1 (proj2 (proj2 (proj2 (proj2
    (@coefficients_keep_table _Factlist_init 1 1 1 1 1 1 1 1 0 (Sage 1) None
       Factlist_init_ok)))))).
Defined.

(** X3.  The table is a cache only: on two tables that satisfy the
    invariant, however long, each of [_big_delta_coeff], [racah],
    [wigner_6j], [wigner_9j], [wigner_3j], [clebsch_gordan] and [gaunt]
    gives the same result, value or exception, for the same arguments. *)
Theorem results_independent_of_table (F G : Factlist)
    (a b c d e f g h i : Q) (j : pynum) (prec : option positive) :
  Factlist_ok F -> Factlist_ok G ->
  run (_big_delta_coeff a b c prec) F = run (_big_delta_coeff a b c prec) G
  /\ run (racah a b c d e f prec) F = run (racah a b c d e f prec) G
  /\ run (wigner_6j a b c d e f prec) F = run (wigner_6j a b c d e f prec) G
  /\ run (wigner_9j a b c d e f g h i prec) F
     = run (wigner_9j a b c d e f g h i prec) G
  /\ run (wigner_3j a b c d e f prec) F = run (wigner_3j a b c d e f prec) G
  /\ run (clebsch_gordan a b j d e f prec) F
     = run (clebsch_gordan a b j d e f prec) G
  /\ run (gaunt a b c d e f prec) F = run (gaunt a b c d e f prec) G.
Proof.
  intros HF HG.
  rewrite !big_delta_coeff_value, !racah_value, !wigner_6j_value,
    !wigner_3j_value, !clebsch_gordan_value, !gaunt_value by assumption.
  repeat split.
  destruct (wigner_9j_run a b c d e f g h i prec HF) as (F' & H1 & _).
  destruct (wigner_9j_run a b c d e f g h i prec HG) as (G' & H2 & _).
  now rewrite (run_eq _ _ H1), (run_eq _ _ H2).
Qed.

Lemma results_independent_of_table_witness :
  run (wigner_6j 3 3 3 3 3 3 None) _Factlist_init
  = run (wigner_6j 3 3 3 3 3 3 None) (table 20).
Proof.
  refine (proj1 (proj2 (proj2
    (@results_independent_of_table _Factlist_init (table 20)
       3 3 3 3 3 3 0 0 0 (Sage 3) None Factlist_init_ok _)))).
  apply Factlist_ok_table. now exists 19%nat.
Defined.

(** ** The triads of the Racah coefficient *)

Lemma Delta_cases aa bb cc prec :
  Delta aa bb cc prec
  = if triad_ok aa bb cc then
      if triad_neg aa bb cc then Ok (SQ 0)
      else Ok (SSqrt prec (SQ (delta_radicand aa bb cc)))
    else Raise TriangleValueError.
Proof. reflexivity. Qed.

Lemma sqrt_radicand_nonzero aa bb cc prec :
  sym_is_zero (SSqrt prec (SQ (delta_radicand aa bb cc))) = false.
Proof.
  cbn [sym_is_zero]. apply Qeq_bool_false. intros H.
  pose proof (delta_radicand_pos aa bb cc) as P. rewrite H in P.
  now apply Qlt_irrefl in P.
Qed.

Lemma Racah_cases aa bb cc dd ee ff prec :
  match Racah aa bb cc dd ee ff prec with
  | Ok v =>
      racah_ok aa bb cc dd ee ff = true
      /\ exact_value v
         = if racah_neg aa bb cc dd ee ff then 0%R
           else (racah_real aa bb cc dd ee ff
                 * Q2R (sgn (int (aa + bb + cc + dd))))%R
  | Raise e => racah_ok aa bb cc dd ee ff = false /\ e = TriangleValueError
  end.
Proof.
  unfold Racah, racah_ok, racah_neg, racah_real. rewrite !Delta_cases.
  pose proof (@sqrt_radicand_nonzero aa bb ee prec) as N1.
  pose proof (@sqrt_radicand_nonzero cc dd ee prec) as N2.
  pose proof (@sqrt_radicand_nonzero aa cc ff prec) as N3.
  pose proof (@sqrt_radicand_nonzero bb dd ff prec) as N4.
  cbn [sym_is_zero] in N1, N2, N3, N4.
  destruct (triad_ok aa bb ee); cbn [res_bind andb]; [|now split].
  destruct (triad_neg aa bb ee); cbn [res_bind orb];
    (destruct (triad_ok cc dd ee); cbn [res_bind andb]; [|now split]);
    (destruct (triad_neg cc dd ee); cbn [res_bind orb]);
    (destruct (triad_ok aa cc ff); cbn [res_bind andb]; [|now split]);
    (destruct (triad_neg aa cc ff); cbn [res_bind orb]);
    (destruct (triad_ok bb dd ff); cbn [res_bind andb]; [|now split]);
    (destruct (triad_neg bb dd ff); cbn [res_bind orb]);
    cbn [sym_is_zero]; rewrite ?N1, ?N2, ?N3, ?N4;
    change (Qeq_bool 0 0) with true; cbn [orb];
    (split; [reflexivity|]); try apply Q2R_0.
  reflexivity.
Qed.

(** The power [(-1) ** int(...)] in [racah] and [wigner_6j].  Where no
    triad of [racah] is negative the exponent [aa+bb+cc+dd] is not
    negative, so the power that [racah] reaches is an integer; where the
    exponent of [wigner_6j] is negative the Racah value it multiplies
    is 0. *)
Lemma racah_sum_nonneg aa bb cc dd ee ff :
  racah_neg aa bb cc dd ee ff = false -> 0 <= aa + bb + cc + dd.
Proof.
  unfold racah_neg, triad_neg. rewrite !orb_false_iff, !Qlt_bool_false.
  intros H. qlra.
Qed.

Lemma racah_power_is_integer aa bb cc dd ee ff :
  racah_neg aa bb cc dd ee ff = false ->
  py_pow_m1 (int (aa + bb + cc + dd)) = SQ (sgn (int (aa + bb + cc + dd))).
Proof.
  intros N. apply py_pow_m1_nonneg, int_nonneg.
  apply racah_sum_nonneg in N. qlra.
Qed.

Lemma wigner_6j_zero_on_negative_exponent F j_1 j_2 j_3 j_4 j_5 j_6 prec r :
  Factlist_ok F -> (int (j_1 + j_2 + j_4 + j_5) < 0)%Z ->
  run (racah j_1 j_2 j_5 j_4 j_3 j_6 prec) F = Ok r -> exact_value r = 0%R.
Proof.
  intros HF Hneg. rewrite racah_value by assumption. intros H.
  pose proof (Racah_cases j_1 j_2 j_5 j_4 j_3 j_6 prec) as C. rewrite H in C.
  destruct C as [_ E].
  destruct (racah_neg j_1 j_2 j_5 j_4 j_3 j_6) eqn:N; [exact E|].
  apply racah_sum_nonneg in N.
  assert (0 <= int (j_1 + j_2 + j_4 + j_5))%Z; [|lia].
  apply int_nonneg. qlra.
Qed.

Lemma is_integral_Qeq x y : x == y -> is_integral x = is_integral y.
Proof.
  intros H. unfold is_integral. rewrite (int_Qeq H).
  apply eq_true_iff_eq. rewrite !Qeq_bool_iff. now rewrite H.
Qed.

Lemma Qlt_bool_Qeq x y z : x == y -> Qlt_bool x z = Qlt_bool y z.
Proof.
  intros H. apply eq_true_iff_eq. rewrite !Qlt_bool_iff. now rewrite H.
Qed.

Lemma qfact_Qeq x y : x == y -> qfact x = qfact y.
Proof. intros H. unfold qfact. now rewrite (int_Qeq H). Qed.

Lemma qfact_neq0 x : ~ qfact x == 0.
Proof.
  intros H. pose proof (qfact_pos x) as P. rewrite H in P.
  now apply Qlt_irrefl in P.
Qed.

(** Give arguments of [f] that are equal as rationals the same form. *)
Ltac unify_Q f lem :=
  repeat match goal with
         | |- context [f ?x] =>
             match goal with
             | |- context [f ?y] =>
                 lazymatch x with
                 | y => fail
                 | _ => rewrite (lem x y) by ring
                 end
             end
         end.

Ltac unify_Qlt :=
  repeat match goal with
         | |- context [Qlt_bool ?x 0] =>
             match goal with
             | |- context [Qlt_bool ?y 0] =>
                 lazymatch x with
                 | y => fail
                 | _ => rewrite (@Qlt_bool_Qeq x y 0) by ring
                 end
             end
         end.

(** Decide the innermost [Qmax] and [Qmin] of the goal. *)
Ltac Qmaxmin_cases :=
  repeat match goal with
         | |- context [Qmax ?a ?b] =>
             lazymatch a with
             | context [Qmax] => fail
             | _ => lazymatch b with
                    | context [Qmax] => fail
                    | _ => destruct (Qmax_spec a b) as [[? ->]|[? ->]]
                    end
             end
         | |- context [Qmin ?a ?b] =>
             lazymatch a with
             | context [Qmin] => fail
             | _ => lazymatch b with
                    | context [Qmin] => fail
                    | _ => destruct (Qmin_spec a b) as [[? ->]|[? ->]]
                    end
             end
         end.

Lemma delta_radicand_swap12 a b c :
  delta_radicand b a c == delta_radicand a b c.
Proof.
  unfold delta_radicand. unify_Q qfact qfact_Qeq.
  field. apply qfact_neq0.
Qed.

Lemma delta_radicand_swap23 a b c :
  delta_radicand a c b == delta_radicand a b c.
Proof.
  unfold delta_radicand. unify_Q qfact qfact_Qeq.
  field. apply qfact_neq0.
Qed.

(** ** Symmetries of the 6-j symbol *)

Lemma triad_ok_swap12 a b c : triad_ok b a c = triad_ok a b c.
Proof. unfold triad_ok. unify_Q is_integral is_integral_Qeq. btauto. Qed.

Lemma triad_ok_swap23 a b c : triad_ok a c b = triad_ok a b c.
Proof. unfold triad_ok. unify_Q is_integral is_integral_Qeq. btauto. Qed.

Lemma triad_ok_swap13 a b c : triad_ok c b a = triad_ok a b c.
Proof. unfold triad_ok. unify_Q is_integral is_integral_Qeq. btauto. Qed.

Lemma triad_neg_swap12 a b c : triad_neg b a c = triad_neg a b c.
Proof. unfold triad_neg. unify_Qlt. btauto. Qed.

Lemma triad_neg_swap23 a b c : triad_neg a c b = triad_neg a b c.
Proof. unfold triad_neg. unify_Qlt. btauto. Qed.

Lemma triad_neg_swap13 a b c : triad_neg c b a = triad_neg a b c.
Proof. unfold triad_neg. unify_Qlt. btauto. Qed.

Lemma delta_radicand_swap13 a b c :
  delta_radicand c b a == delta_radicand a b c.
Proof.
  unfold delta_radicand. unify_Q qfact qfact_Qeq.
  field. apply qfact_neq0.
Qed.

Lemma sqrt_radicand_swap12 a b c :
  sqrt (Q2R (delta_radicand b a c)) = sqrt (Q2R (delta_radicand a b c)).
Proof. now rewrite (Qeq_eqR _ _ (delta_radicand_swap12 a b c)). Qed.

Lemma sqrt_radicand_swap23 a b c :
  sqrt (Q2R (delta_radicand a c b)) = sqrt (Q2R (delta_radicand a b c)).
Proof. now rewrite (Qeq_eqR _ _ (delta_radicand_swap23 a b c)). Qed.

Lemma sqrt_radicand_swap13 a b c :
  sqrt (Q2R (delta_radicand c b a)) = sqrt (Q2R (delta_radicand a b c)).
Proof. now rewrite (Qeq_eqR _ _ (delta_radicand_swap13 a b c)). Qed.

(** The sum of the Racah coefficient depends on its bounds and on its
    terms only. *)
Lemma racah_sum_eq aa bb cc dd ee ff aa' bb' cc' dd' ee' ff' :
  racah_imin aa' bb' cc' dd' ee' ff' = racah_imin aa bb cc dd ee ff ->
  racah_imax aa' bb' cc' dd' ee' ff' = racah_imax aa bb cc dd ee ff ->
  (forall k, racah_term aa' bb' cc' dd' ee' ff' k
             == racah_term aa bb cc dd ee ff k) ->
  Q2R (Qsum (racah_imin aa' bb' cc' dd' ee' ff')
            (racah_imax aa' bb' cc' dd' ee' ff')
            (racah_term aa' bb' cc' dd' ee' ff'))
  = Q2R (Qsum (racah_imin aa bb cc dd ee ff) (racah_imax aa bb cc dd ee ff)
              (racah_term aa bb cc dd ee ff)).
Proof.
  intros -> -> H. apply Qeq_eqR. apply Qsum_ext. intros k _. apply H.
Qed.

Ltac racah_bounds :=
  unfold racah_imin, racah_imax; apply int_Qeq; Qmaxmin_cases; qlra.

Ltac racah_terms :=
  intros; unfold racah_term; unify_Q qfact qfact_Qeq;
  field; repeat split; apply qfact_neq0.

(** [W(bb,aa,dd,cc;ee,ff)] *)
Lemma racah_sig_G1 aa bb cc dd ee ff :
  racah_sig bb aa dd cc ee ff = racah_sig aa bb cc dd ee ff.
Proof.
  unfold racah_sig. f_equal; [f_equal|].
  - unfold racah_ok. rewrite (triad_ok_swap12 aa bb), (triad_ok_swap12 cc dd).
    btauto.
  - unfold racah_neg.
    rewrite (triad_neg_swap12 aa bb), (triad_neg_swap12 cc dd). btauto.
  - unfold racah_real.
    rewrite (sqrt_radicand_swap12 aa bb), (sqrt_radicand_swap12 cc dd).
    rewrite (@racah_sum_eq aa bb cc dd ee ff bb aa dd cc ee ff);
      [rlra | racah_bounds | racah_bounds | racah_terms].
Qed.

(** [W(aa,ee,ff,dd;bb,cc)] *)
Lemma racah_sig_G2 aa bb cc dd ee ff :
  racah_sig aa ee ff dd bb cc = racah_sig aa bb cc dd ee ff.
Proof.
  unfold racah_sig. f_equal; [f_equal|].
  - unfold racah_ok.
    rewrite (triad_ok_swap23 aa bb ee), (triad_ok_swap13 bb dd ff),
      (triad_ok_swap23 aa cc ff), (triad_ok_swap13 cc dd ee).
    btauto.
  - unfold racah_neg.
    rewrite (triad_neg_swap23 aa bb ee), (triad_neg_swap13 bb dd ff),
      (triad_neg_swap23 aa cc ff), (triad_neg_swap13 cc dd ee).
    btauto.
  - unfold racah_real.
    rewrite (sqrt_radicand_swap23 aa bb ee), (sqrt_radicand_swap13 bb dd ff),
      (sqrt_radicand_swap23 aa cc ff), (sqrt_radicand_swap13 cc dd ee).
    rewrite (@racah_sum_eq aa bb cc dd ee ff aa ee ff dd bb cc);
      [rlra | racah_bounds | racah_bounds | racah_terms].
Qed.

(** [W(aa,cc,bb,dd;ff,ee)] *)
Lemma racah_sig_G3 aa bb cc dd ee ff :
  racah_sig aa cc bb dd ff ee = racah_sig aa bb cc dd ee ff.
Proof.
  unfold racah_sig. f_equal; [f_equal|].
  - unfold racah_ok. btauto.
  - unfold racah_neg. btauto.
  - unfold racah_real.
    rewrite (@racah_sum_eq aa bb cc dd ee ff aa cc bb dd ff ee);
      [rlra | racah_bounds | racah_bounds | racah_terms].
Qed.



Lemma w6j_sig_s12 j_1 j_2 j_3 j_4 j_5 j_6 :
  w6j_sig j_2 j_1 j_3 j_5 j_4 j_6 = w6j_sig j_1 j_2 j_3 j_4 j_5 j_6.
Proof. apply racah_sig_G1. Qed.

Lemma w6j_sig_s23 j_1 j_2 j_3 j_4 j_5 j_6 :
  w6j_sig j_1 j_3 j_2 j_4 j_6 j_5 = w6j_sig j_1 j_2 j_3 j_4 j_5 j_6.
Proof. apply racah_sig_G2. Qed.

Lemma w6j_sig_e23 j_1 j_2 j_3 j_4 j_5 j_6 :
  w6j_sig j_1 j_5 j_6 j_4 j_2 j_3 = w6j_sig j_1 j_2 j_3 j_4 j_5 j_6.
Proof. apply racah_sig_G3. Qed.

Lemma w6j_sig_cyclic j_1 j_2 j_3 j_4 j_5 j_6 :
  w6j_sig j_3 j_1 j_2 j_6 j_4 j_5 = w6j_sig j_1 j_2 j_3 j_4 j_5 j_6.
Proof. now rewrite (w6j_sig_s12 j_1 j_3 j_2 j_4 j_6 j_5), w6j_sig_s23. Qed.




(** ** Symmetries of the Gaunt coefficient *)

Lemma Gaunt_cases l_1 l_2 l_3 m_1 m_2 m_3 prec :
  Gaunt l_1 l_2 l_3 m_1 m_2 m_3 prec
  = if gaunt_integral l_1 l_2 l_3 m_1 m_2 m_3
    then GauntZ (int l_1) (int l_2) (int l_3) (int m_1) (int m_2) (int m_3) prec
    else Raise TypeError.
Proof.
  unfold Gaunt, gaunt_integral, to_Integer.
  destruct (is_integral l_1); [|reflexivity].
  destruct (is_integral l_2); [|reflexivity].
  destruct (is_integral l_3); [|reflexivity].
  destruct (is_integral m_1); [|reflexivity].
  destruct (is_integral m_2); [|reflexivity].
  destruct (is_integral m_3); reflexivity.
Qed.

Lemma GauntZ_returns l_1 l_2 l_3 m_1 m_2 m_3 prec :
  returns (GauntZ l_1 l_2 l_3 m_1 m_2 m_3 prec)
          (gauntZ_value l_1 l_2 l_3 m_1 m_2 m_3).
Proof.
  unfold GauntZ, gauntZ_value, returns.
  destruct (gaunt_rule_fails l_1 l_2 l_3 m_1 m_2 m_3).
  - eexists. split; [reflexivity|]. apply Q2R_0.
  - destruct prec; eexists; (split; [reflexivity|]);
      cbn [exact_value]; rewrite Q2R_mult; rlra.
Qed.

Lemma gaunt_rule_fails_cyclic l_1 l_2 l_3 m_1 m_2 m_3 :
  gaunt_rule_fails l_3 l_1 l_2 m_3 m_1 m_2
  = gaunt_rule_fails l_1 l_2 l_3 m_1 m_2 m_3.
Proof.
  apply eq_true_iff_eq. rewrite !gaunt_rule_fails_true.
  replace (l_3 + l_1 + l_2)%Z with (l_1 + l_2 + l_3)%Z by lia.
  set (P := Z.odd _ = true). clearbody P. intuition lia.
Qed.

Lemma gaunt_rule_fails_swap12 l_1 l_2 l_3 m_1 m_2 m_3 :
  gaunt_rule_fails l_2 l_1 l_3 m_2 m_1 m_3
  = gaunt_rule_fails l_1 l_2 l_3 m_1 m_2 m_3.
Proof.
  apply eq_true_iff_eq. rewrite !gaunt_rule_fails_true.
  replace (l_2 + l_1 + l_3)%Z with (l_1 + l_2 + l_3)%Z by lia.
  set (P := Z.odd _ = true). clearbody P. intuition lia.
Qed.

Lemma gaunt_rule_fails_inflect l_1 l_2 l_3 m_1 m_2 m_3 :
  gaunt_rule_fails l_1 l_2 l_3 (- m_1) (- m_2) (- m_3)
  = gaunt_rule_fails l_1 l_2 l_3 m_1 m_2 m_3.
Proof.
  apply eq_true_iff_eq. rewrite !gaunt_rule_fails_true.
  set (P := Z.odd _ = true). clearbody P. intuition lia.
Qed.

(** The facts that the selection rules give. *)
Lemma gaunt_rules l_1 l_2 l_3 m_1 m_2 m_3 :
  gaunt_rule_fails l_1 l_2 l_3 m_1 m_2 m_3 = false ->
  (m_1 + m_2 + m_3 = 0 /\ l_1 + l_2 + l_3 = 2 * ((l_1 + l_2 + l_3) / 2))%Z.
Proof.
  intros H.
  assert (N : ~ gaunt_rule_fails l_1 l_2 l_3 m_1 m_2 m_3 = true) by congruence.
  rewrite gaunt_rule_fails_true in N.
  split; [lia|].
  destruct (Z.odd (l_1 + l_2 + l_3)) eqn:O; [tauto|].
  pose proof (Z.div_mod (l_1 + l_2 + l_3) 2 ltac:(lia)) as D.
  rewrite Zmod_odd, O in D. lia.
Qed.

(** The sum and the sign of [gaunt] are those of the 3-j symbol, up to
    the sign [(-1)^L]. *)
Lemma gaunt_signed_sum l_1 l_2 l_3 m_1 m_2 m_3 :
  gaunt_rule_fails l_1 l_2 l_3 m_1 m_2 m_3 = false ->
  Qsum (gaunt_imin l_1 l_2 l_3 m_1 m_2) (gaunt_imax l_1 l_2 l_3 m_1 m_2)
       (gaunt_term l_1 l_2 l_3 m_1 m_2)
  * gaunt_sign l_1 l_2 l_3 m_1 m_2
  == sgn ((l_1 + l_2 + l_3) / 2)
     * w3jZ_signed_sum (l_1 - m_1) (l_2 - m_2) (l_3 - m_3)
                       (l_1 + m_1) (l_2 + m_2) (l_3 + m_3).
Proof.
  intros H. destruct (gaunt_rules _ _ _ _ _ _ H) as [Hm HL].
  unfold w3jZ_signed_sum, w3jZ_sum, gaunt_imin, gaunt_imax, gaunt_sign.
  replace (Z.max (Z.max (l_1 - m_1 - (l_3 + m_3)) (l_2 + m_2 - (l_3 - m_3))) 0)
    with (Z.max (Z.max (- l_3 + l_1 + m_2) (- l_3 + l_2 - m_1)) 0) by lia.
  replace (Z.min (Z.min (l_2 + m_2) (l_1 - m_1))
                 (l_1 - m_1 + (l_2 - m_2) - (l_3 + m_3)))
    with (Z.min (Z.min (l_2 + m_2) (l_1 - m_1)) (l_1 + l_2 - l_3)) by lia.
  set (lo := Z.max _ 0). set (hi := Z.min _ _).
  assert (E : Qsum lo hi (gaunt_term l_1 l_2 l_3 m_1 m_2)
              == Qsum lo hi (w3jZ_term (l_1 - m_1) (l_2 - m_2) (l_3 - m_3)
                               (l_1 + m_1) (l_2 + m_2) (l_3 + m_3))).
  { apply Qsum_ext. intros k _. unfold gaunt_term, w3jZ_term.
    unify_zfact. reflexivity. }
  rewrite E.
  rewrite (@sgn_even_diff ((l_1 + l_2 + l_3) / 2 + l_3 + m_1 - m_2)
             ((l_1 + l_2 + l_3) / 2 + (l_1 + m_1 - (l_2 - m_2)))
             ((l_1 + l_2 + l_3) / 2 - l_1 - m_2)) by lia.
  rewrite sgn_add. ring.
Qed.

Lemma gaunt_radicand_num_cyclic l_1 l_2 l_3 m_1 m_2 m_3 :
  gaunt_radicand_num l_3 l_1 l_2 m_3 m_1 m_2
  == gaunt_radicand_num l_1 l_2 l_3 m_1 m_2 m_3.
Proof. unfold gaunt_radicand_num. ring. Qed.

Lemma gaunt_radicand_num_swap12 l_1 l_2 l_3 m_1 m_2 m_3 :
  gaunt_radicand_num l_2 l_1 l_3 m_2 m_1 m_3
  == gaunt_radicand_num l_1 l_2 l_3 m_1 m_2 m_3.
Proof. unfold gaunt_radicand_num. ring. Qed.

Lemma gaunt_radicand_num_inflect l_1 l_2 l_3 m_1 m_2 m_3 :
  gaunt_radicand_num l_1 l_2 l_3 (- m_1) (- m_2) (- m_3)
  == gaunt_radicand_num l_1 l_2 l_3 m_1 m_2 m_3.
Proof. unfold gaunt_radicand_num. unify_zfact. ring. Qed.

Lemma gaunt_prefac_cyclic l_1 l_2 l_3 :
  gaunt_prefac l_3 l_1 l_2 == gaunt_prefac l_1 l_2 l_3.
Proof.
  unfold gaunt_prefac.
  replace (l_3 + l_1 + l_2)%Z with (l_1 + l_2 + l_3)%Z by lia.
  set (L := ((l_1 + l_2 + l_3) / 2)%Z). unify_zfact.
  field. repeat split; apply zfact_neq0.
Qed.

Lemma gaunt_prefac_swap12 l_1 l_2 l_3 :
  gaunt_prefac l_2 l_1 l_3 == gaunt_prefac l_1 l_2 l_3.
Proof.
  unfold gaunt_prefac.
  replace (l_2 + l_1 + l_3)%Z with (l_1 + l_2 + l_3)%Z by lia.
  set (L := ((l_1 + l_2 + l_3) / 2)%Z). unify_zfact.
  field. repeat split; apply zfact_neq0.
Qed.

Lemma gauntZ_value_cyclic l_1 l_2 l_3 m_1 m_2 m_3 :
  gauntZ_value l_3 l_1 l_2 m_3 m_1 m_2 = gauntZ_value l_1 l_2 l_3 m_1 m_2 m_3.
Proof.
  unfold gauntZ_value. rewrite gaunt_rule_fails_cyclic.
  destruct (gaunt_rule_fails l_1 l_2 l_3 m_1 m_2 m_3) eqn:H; [reflexivity|].
  pose proof H as H'. rewrite <- gaunt_rule_fails_cyclic in H'.
  destruct (gaunt_rules _ _ _ _ _ _ H) as [Hm HL].
  rewrite (Qeq_eqR _ _ (gaunt_radicand_num_cyclic _ _ _ _ _ _)),
    (Qeq_eqR _ _ (gaunt_prefac_cyclic _ _ _)).
  f_equal. apply Qeq_eqR.
  rewrite (gaunt_signed_sum _ _ _ _ _ _ H), (gaunt_signed_sum _ _ _ _ _ _ H').
  replace (l_3 + l_1 + l_2)%Z with (l_1 + l_2 + l_3)%Z by lia.
  now rewrite w3jZ_signed_sum_cyclic by lia.
Qed.

Lemma gauntZ_value_swap12 l_1 l_2 l_3 m_1 m_2 m_3 :
  gauntZ_value l_2 l_1 l_3 m_2 m_1 m_3 = gauntZ_value l_1 l_2 l_3 m_1 m_2 m_3.
Proof.
  unfold gauntZ_value. rewrite gaunt_rule_fails_swap12.
  destruct (gaunt_rule_fails l_1 l_2 l_3 m_1 m_2 m_3) eqn:H; [reflexivity|].
  pose proof H as H'. rewrite <- gaunt_rule_fails_swap12 in H'.
  destruct (gaunt_rules _ _ _ _ _ _ H) as [Hm HL].
  rewrite (Qeq_eqR _ _ (gaunt_radicand_num_swap12 _ _ _ _ _ _)),
    (Qeq_eqR _ _ (gaunt_prefac_swap12 _ _ _)).
  f_equal. apply Qeq_eqR.
  rewrite (gaunt_signed_sum _ _ _ _ _ _ H), (gaunt_signed_sum _ _ _ _ _ _ H').
  replace (l_2 + l_1 + l_3)%Z with (l_1 + l_2 + l_3)%Z by lia.
  rewrite w3jZ_signed_sum_swap12 by lia.
  rewrite (@sgn_even_diff (l_1 - m_1 + (l_2 - m_2) + (l_3 - m_3)) 0
             ((l_1 + l_2 + l_3) / 2)) by lia.
  change (sgn 0) with 1. ring.
Qed.

Lemma gauntZ_value_inflect l_1 l_2 l_3 m_1 m_2 m_3 :
  gauntZ_value l_1 l_2 l_3 (- m_1) (- m_2) (- m_3)
  = gauntZ_value l_1 l_2 l_3 m_1 m_2 m_3.
Proof.
  unfold gauntZ_value. rewrite gaunt_rule_fails_inflect.
  destruct (gaunt_rule_fails l_1 l_2 l_3 m_1 m_2 m_3) eqn:H; [reflexivity|].
  pose proof H as H'. rewrite <- gaunt_rule_fails_inflect in H'.
  destruct (gaunt_rules _ _ _ _ _ _ H) as [Hm HL].
  rewrite (Qeq_eqR _ _ (gaunt_radicand_num_inflect _ _ _ _ _ _)).
  f_equal. apply Qeq_eqR.
  rewrite (gaunt_signed_sum _ _ _ _ _ _ H), (gaunt_signed_sum _ _ _ _ _ _ H').
  replace (l_1 - - m_1)%Z with (l_1 + m_1)%Z by lia.
  replace (l_2 - - m_2)%Z with (l_2 + m_2)%Z by lia.
  replace (l_3 - - m_3)%Z with (l_3 + m_3)%Z by lia.
  replace (l_1 + - m_1)%Z with (l_1 - m_1)%Z by lia.
  replace (l_2 + - m_2)%Z with (l_2 - m_2)%Z by lia.
  replace (l_3 + - m_3)%Z with (l_3 - m_3)%Z by lia.
  rewrite w3jZ_signed_sum_inflect by lia.
  rewrite (@sgn_even_diff (l_1 - m_1 + (l_2 - m_2) + (l_3 - m_3)) 0
             ((l_1 + l_2 + l_3) / 2)) by lia.
  change (sgn 0) with 1. ring.
Qed.

Lemma Gaunt_sig l_1 l_2 l_3 m_1 m_2 m_3 prec :
  match Gaunt l_1 l_2 l_3 m_1 m_2 m_3 prec with
  | Ok v => fst (gaunt_sig l_1 l_2 l_3 m_1 m_2 m_3) = true
            /\ exact_value v = snd (gaunt_sig l_1 l_2 l_3 m_1 m_2 m_3)
  | Raise e => fst (gaunt_sig l_1 l_2 l_3 m_1 m_2 m_3) = false
               /\ e = TypeError
  end.
Proof.
  rewrite Gaunt_cases. unfold gaunt_sig. cbn [fst snd].
  destruct (gaunt_integral l_1 l_2 l_3 m_1 m_2 m_3); [|now split].
  destruct (GauntZ_returns (int l_1) (int l_2) (int l_3)
              (int m_1) (int m_2) (int m_3) prec) as (v & -> & Hv).
  now split.
Qed.

Lemma is_integral_opp x : is_integral (- x) = is_integral x.
Proof.
  apply eq_true_iff_eq. rewrite <- !Integral_iff.
  split; intros [z Hz]; exists (- z)%Z; rewrite inject_Z_opp, <- Hz; ring.
Qed.

Lemma int_opp x : int (- x) = (- int x)%Z.
Proof.
  unfold int. destruct x as [n d]. cbn [Qopp Qnum Qden].
  apply Z.quot_opp_l. discriminate.
Qed.

Lemma gaunt_sig_cyclic l_1 l_2 l_3 m_1 m_2 m_3 :
  gaunt_sig l_3 l_1 l_2 m_3 m_1 m_2 = gaunt_sig l_1 l_2 l_3 m_1 m_2 m_3.
Proof.
  unfold gaunt_sig. f_equal; [|apply gauntZ_value_cyclic].
  unfold gaunt_integral. btauto.
Qed.

Lemma gaunt_sig_swap12 l_1 l_2 l_3 m_1 m_2 m_3 :
  gaunt_sig l_2 l_1 l_3 m_2 m_1 m_3 = gaunt_sig l_1 l_2 l_3 m_1 m_2 m_3.
Proof.
  unfold gaunt_sig. f_equal; [|apply gauntZ_value_swap12].
  unfold gaunt_integral. btauto.
Qed.

Lemma gaunt_sig_inflect l_1 l_2 l_3 m_1 m_2 m_3 :
  gaunt_sig l_1 l_2 l_3 (- m_1) (- m_2) (- m_3)
  = gaunt_sig l_1 l_2 l_3 m_1 m_2 m_3.
Proof.
  unfold gaunt_sig. rewrite !int_opp. f_equal; [|apply gauntZ_value_inflect].
  unfold gaunt_integral. now rewrite !is_integral_opp.
Qed.

Lemma gaunt_same F l_1 l_2 l_3 m_1 m_2 m_3 k_1 k_2 k_3 n_1 n_2 n_3 prec :
  Factlist_ok F ->
  gaunt_sig k_1 k_2 k_3 n_1 n_2 n_3 = gaunt_sig l_1 l_2 l_3 m_1 m_2 m_3 ->
  same_result (run (gaunt l_1 l_2 l_3 m_1 m_2 m_3 prec) F)
              (run (gaunt k_1 k_2 k_3 n_1 n_2 n_3 prec) F).
Proof.
  intros HF H. rewrite !gaunt_value by assumption.
  pose proof (Gaunt_sig l_1 l_2 l_3 m_1 m_2 m_3 prec) as H1.
  pose proof (Gaunt_sig k_1 k_2 k_3 n_1 n_2 n_3 prec) as H2.
  rewrite H in H2. unfold same_result.
  destruct (Gaunt l_1 l_2 l_3 m_1 m_2 m_3 prec),
    (Gaunt k_1 k_2 k_3 n_1 n_2 n_3 prec);
    destruct H1 as [A1 B1], H2 as [A2 B2]; congruence.
Qed.

(** X5.  The symmetries that the docstring of [gaunt] lists hold for
    the code on every input: on a table that satisfies the invariant, with
    [prec=None], [gaunt(l_1,l_2,l_3,m_1,m_2,m_3)] has the same result, the
    same exception or the same value, under each of the five permutations
    of its columns and with all three [m_i] negated. *)
Theorem gaunt_symmetries (F : Factlist) (l_1 l_2 l_3 m_1 m_2 m_3 : Q) :
  Factlist_ok F ->
  let Y a b c x y z := run (gaunt a b c x y z None) F in
  let y := Y l_1 l_2 l_3 m_1 m_2 m_3 in
  (same_result y (Y l_3 l_1 l_2 m_3 m_1 m_2)
   /\ same_result y (Y l_2 l_3 l_1 m_2 m_3 m_1)
   /\ same_result y (Y l_3 l_2 l_1 m_3 m_2 m_1)
   /\ same_result y (Y l_1 l_3 l_2 m_1 m_3 m_2)
   /\ same_result y (Y l_2 l_1 l_3 m_2 m_1 m_3))
  /\ same_result y (Y l_1 l_2 l_3 (- m_1) (- m_2) (- m_3)).
Proof.
  intros HF Y y. subst y Y. cbn beta.
  repeat split; apply gaunt_same; try assumption.
  - apply gaunt_sig_cyclic.
  - now rewrite (gaunt_sig_cyclic l_3 l_1 l_2 m_3 m_1 m_2), gaunt_sig_cyclic.
  - now rewrite (gaunt_sig_swap12 l_2 l_3 l_1 m_2 m_3 m_1),
      (gaunt_sig_cyclic l_3 l_1 l_2 m_3 m_1 m_2), gaunt_sig_cyclic.
  - now rewrite (gaunt_sig_swap12 l_3 l_1 l_2 m_3 m_1 m_2), gaunt_sig_cyclic.
  - apply gaunt_sig_swap12.
  - apply gaunt_sig_inflect.
Qed.

Lemma gaunt_symmetries_witness :
  exists v v',
    run (gaunt 1 0 1 1 0 (-1) None) _Factlist_init = Ok v
    /\ run (gaunt 1 1 0 (-1) 1 0 None) _Factlist_init = Ok v'
    /\ exact_value v = exact_value v'.
Proof.
  pose proof (proj1 (proj1 (@gaunt_symmetries _Factlist_init 1 0 1 1 0 (-1)
                              Factlist_init_ok))) as H.
  cbv zeta in H.
  destruct (run (gaunt 1 0 1 1 0 (-1) None) _Factlist_init) as [v|e] eqn:E1;
    [|vm_compute in E1; discriminate E1].
  destruct (run (gaunt 1 1 0 (-1) 1 0 None) _Factlist_init) as [v'|e] eqn:E2;
    [|clear E1; vm_compute in E2; discriminate E2].
  exists v, v'. repeat split. exact H.
Defined.

(** ** The parity rule of the 3-j symbol *)



(** ** Clebsch-Gordan *)




Lemma Qsum_single lo f : Qsum lo lo f == f lo.
Proof.
  unfold Qsum. rewrite (range_cons (lo := lo)) by lia.
  rewrite (range_nil (lo := lo + 1)) by lia. cbn [fold_left]. ring.
Qed.

Lemma zfact_0 : zfact 0 = 1.
Proof. reflexivity. Qed.

Lemma zfact_succ n : (0 <= n)%Z -> zfact (n + 1) == inject_Z (n + 1) * zfact n.
Proof.
  intros H. unfold zfact. now rewrite factorial_succ, inject_Z_mult.
Qed.

Lemma zfact_pos n : 0 < zfact n.
Proof.
  unfold zfact. change 0 with (inject_Z 0). rewrite <- Zlt_Qlt.
  apply factorial_pos.
Qed.

(** X8.  The stretched state: on a table that satisfies the invariant,
    for non-negative integer or half-integer Sage numbers [j_1], [j_2],
    [clebsch_gordan(j_1, j_2, j_1+j_2, j_1, j_2, j_1+j_2)] returns a value
    that is 1, as its docstring shows for [(3/2, 1/2, 2, 3/2, 1/2, 2)]. *)
Theorem clebsch_gordan_stretched (F : Factlist) (j_1 j_2 j_3 m_1 m_2 m_3 : Q) :
  Factlist_ok F ->
  HalfIntegral j_1 -> HalfIntegral j_2 -> 0 <= j_1 -> 0 <= j_2 ->
  j_3 == j_1 + j_2 -> m_1 == j_1 -> m_2 == j_2 -> m_3 == j_3 ->
  returns (run (clebsch_gordan j_1 j_2 (Sage j_3) m_1 m_2 m_3 None) F) 1.
Proof.
  intros HF [a Ha] [b Hb] H1 H2 E3 E4 E5 E6.
  assert (A0 : (0 <= a)%Z).
  { rewrite Zle_Qle, <- Ha. change (inject_Z 0) with 0. qlra. }
  assert (B0 : (0 <= b)%Z).
  { rewrite Zle_Qle, <- Hb. change (inject_Z 0) with 0. qlra. }
  rewrite clebsch_gordan_value by assumption. unfold Clebsch.
  rewrite (@Wigner3j_integers j_1 j_2 j_3 m_1 m_2 (- m_3)
             0 0 (a + b) a b 0 None);
    try (rewrite ?inject_Z_plus; change (inject_Z 0) with 0; qlra).
  unfold W3jZ.
  assert (OK : w3jZ_ok 0 0 (a + b) a b 0 = true).
  { unfold w3jZ_ok. rewrite !andb_true_iff, !Z.leb_le, Z.eqb_eq. lia. }
  rewrite OK. cbn [res_bind]. eexists. split; [reflexivity|].
  cbn [exact_value]. rewrite py_pow_m1_value.
  rewrite (@int_of (j_1 - j_2 + m_3) a) by qlra.
  assert (Hsum : w3jZ_sum 0 0 (a + b) a b 0 == 1 / (zfact a * zfact b)).
  { unfold w3jZ_sum.
    replace (Z.max (Z.max (0 - 0) (b - (a + b))) 0) with 0%Z by lia.
    replace (Z.min (Z.min b 0) (0 + 0 - 0)) with 0%Z by lia.
    rewrite Qsum_single. unfold w3jZ_term.
    replace (0 + (0 - 0))%Z with 0%Z by lia.
    replace (b - 0)%Z with b by lia.
    replace (0 - 0)%Z with 0%Z by lia.
    replace (0 + (a + b - b))%Z with a by lia.
    replace (0 + 0 - 0 - 0)%Z with 0%Z by lia.
    rewrite zfact_0. change (sgn 0) with 1.
    field. split; apply zfact_neq0. }
  assert (Hrad : w3jZ_radicand 0 0 (a + b) a b 0
                 == (zfact a * zfact b) * (zfact a * zfact b)
                    / inject_Z (a + b + 1)).
  { unfold w3jZ_radicand.
    replace (0 + 0 - 0)%Z with 0%Z by lia.
    replace (0 + (a + b) - b)%Z with a by lia.
    replace (0 + (a + b) - a)%Z with b by lia.
    replace (0 + 0 + (a + b) + 1)%Z with (a + b + 1)%Z by lia.
    rewrite zfact_0, (zfact_succ (n := a + b)) by lia.
    field. repeat split; try apply zfact_neq0.
    change 0 with (inject_Z 0). rewrite inject_Z_injective. lia. }
  rewrite (Qeq_eqR _ _ Hsum), (Qeq_eqR _ _ Hrad).
  assert (Hc : 2 * j_3 + 1 == inject_Z (a + b + 1)).
  { rewrite !inject_Z_plus. change (inject_Z 1) with 1. qlra. }
  rewrite (Qeq_eqR _ _ Hc).
  replace (a - 0)%Z with a by lia.
  set (X := zfact a * zfact b).
  assert (XP : (0 < Q2R X)%R).
  { apply Q2R_pos. unfold X.
    apply Qmult_lt_0_compat; apply zfact_pos. }
  assert (CP : (0 < Q2R (inject_Z (a + b + 1)))%R).
  { apply Q2R_pos. change 0 with (inject_Z 0). rewrite <- Zlt_Qlt. lia. }
  assert (XN : ~ X == 0).
  { intros E. rewrite E in XP. rewrite Q2R_0 in XP. rlra. }
  assert (CN : ~ inject_Z (a + b + 1) == 0).
  { intros E. rewrite E in CP. rewrite Q2R_0 in CP. rlra. }
  rewrite (Q2R_div (X * X)), Q2R_mult by assumption.
  rewrite sqrt_div_alt by assumption.
  rewrite sqrt_square by rlra.
  rewrite (Q2R_div 1), Q2R_1 by assumption.
  assert (SP : (0 < sqrt (Q2R (inject_Z (a + b + 1))))%R)
    by now apply sqrt_lt_R0.
  assert (S2 : (Q2R (sgn a) * Q2R (sgn a) = 1)%R).
  { rewrite <- Q2R_mult, (Qeq_eqR _ _ (sgn_sqr a)). apply Q2R_1. }
  transitivity (Q2R (sgn a) * Q2R (sgn a))%R; [|exact S2].
  field. split; rlra.
Qed.

Lemma clebsch_gordan_stretched_witness :
  returns (run (clebsch_gordan (3 # 2) (1 # 2) (Sage 2) (3 # 2) (1 # 2) 2
                  None) _Factlist_init) 1.
Proof.
  apply (@clebsch_gordan_stretched _Factlist_init (3 # 2) (1 # 2) 2
           (3 # 2) (1 # 2) 2 Factlist_init_ok);
    try (now exists 3%Z); try (now exists 1%Z);
    first [discriminate | reflexivity].
Defined.

(** ** Exceptions *)

Lemma Racah_raise aa bb cc dd ee ff prec e :
  Racah aa bb cc dd ee ff prec = Raise e -> e = TriangleValueError.
Proof.
  intros H. pose proof (Racah_cases aa bb cc dd ee ff prec) as C.
  rewrite H in C. apply C.
Qed.









(** X11.  On a table that satisfies the invariant, [gaunt] returns a
    value when its six arguments are integers and raises [TypeError]
    otherwise. *)
Theorem gaunt_TypeError_iff (F : Factlist) (l_1 l_2 l_3 m_1 m_2 m_3 : Q)
    (prec : option positive) :
  Factlist_ok F ->
  let integers :=
    Integral l_1 /\ Integral l_2 /\ Integral l_3
    /\ Integral m_1 /\ Integral m_2 /\ Integral m_3 in
  (integers -> exists v, run (gaunt l_1 l_2 l_3 m_1 m_2 m_3 prec) F = Ok v)
  /\ (~ integers ->
      run (gaunt l_1 l_2 l_3 m_1 m_2 m_3 prec) F = Raise TypeError).
Proof.
  intros HF integers. subst integers.
  rewrite gaunt_value by assumption. rewrite Gaunt_cases.
  rewrite !Integral_iff. unfold gaunt_integral.
  destruct (is_integral l_1), (is_integral l_2), (is_integral l_3),
    (is_integral m_1), (is_integral m_2), (is_integral m_3); cbn [andb];
    (split; [intros H; try (exfalso; intuition discriminate)
            | intros H; try reflexivity; exfalso; tauto]).
  destruct (GauntZ_returns (int l_1) (int l_2) (int l_3)
              (int m_1) (int m_2) (int m_3) prec) as (v & E & _).
  now exists v.
Qed.

Lemma gaunt_TypeError_iff_witness :
  run (gaunt (6 # 5) 0 (6 # 5) 0 0 0 None) _Factlist_init = Raise TypeError.
Proof.
  apply (proj2 (@gaunt_TypeError_iff _Factlist_init (6 # 5) 0 (6 # 5) 0 0 0
                  None Factlist_init_ok)).
  intros [H _]. apply Integral_iff in H. discriminate.
Defined.





(** ** [_calc_factlist] off its domain *)

(** X13.  [_calc_factlist] off its domain, on any table: a number that is
    not an integer raises [TypeError] and leaves the table as it is; a
    negative integer does not raise and does not touch the table, and the
    call returns the slice [_Factlist[:n+1]] that Python takes then: the
    empty list for [n = -1], the table without its last [-n-1] entries for
    [n < -1]. *)
Theorem calc_factlist_off_domain (F : Factlist) (nn : Q) :
  (~ Integral nn -> _calc_factlist nn F = (Raise TypeError, F))
  /\ (nn == -1 -> _calc_factlist nn F = (Ok [], F))
  /\ (forall n, nn == inject_Z n -> (n < -1)%Z ->
        _calc_factlist nn F
        = (Ok (firstn (length F - Z.to_nat (- n - 1)) F), F)).
Proof.
  split; [|split].
  - intros H. apply calc_factlist_TypeError. now apply not_Integral_iff.
  - intros H. unfold _calc_factlist.
    assert (E : Qle_bool (inject_Z (Z.of_nat (length F))) nn = false).
    { apply Qle_bool_false. rewrite H.
      change (-1) with (inject_Z (-1)). rewrite <- Zlt_Qlt. lia. }
    rewrite E. unfold bind, ret, lift.
    rewrite (@to_Integer_of nn (-1)) by exact H.
    unfold slice_to. change (-1 + 1 <? 0)%Z with false. cbv iota.
    now rewrite Z.min_l by lia.
  - intros n H Hn. unfold _calc_factlist.
    assert (E : Qle_bool (inject_Z (Z.of_nat (length F))) nn = false).
    { apply Qle_bool_false. rewrite H. rewrite <- Zlt_Qlt. lia. }
    rewrite E. unfold bind, ret, lift.
    rewrite (to_Integer_of H). do 2 f_equal.
    unfold slice_to.
    destruct (n + 1 <? 0)%Z eqn:L; [|apply Z.ltb_ge in L; lia].
    f_equal. lia.
Qed.

Lemma calc_factlist_off_domain_witness :
  _calc_factlist (inject_Z (-2)) [1; 1; 2; 6]%Z
  = (Ok [1; 1; 2]%Z, [1; 1; 2; 6]%Z).
Proof.
  exact (proj2 (proj2 (@calc_factlist_off_domain [1; 1; 2; 6]%Z
                         (inject_Z (-2))))
           (-2)%Z (Qeq_refl _) eq_refl).
Defined.

(** ** Symmetries of the Racah coefficient and of the 9-j symbol *)

Lemma w6j_sig_e12 j_1 j_2 j_3 j_4 j_5 j_6 :
  w6j_sig j_4 j_5 j_3 j_1 j_2 j_6 = w6j_sig j_1 j_2 j_3 j_4 j_5 j_6.
Proof.
  now rewrite (w6j_sig_s23 j_4 j_3 j_5 j_1 j_6 j_2),
    (w6j_sig_s12 j_3 j_4 j_5 j_6 j_1 j_2),
    (w6j_sig_e23 j_3 j_1 j_2 j_6 j_4 j_5), w6j_sig_cyclic.
Qed.

Lemma racah_sig_reverse aa bb cc dd ee ff :
  racah_sig dd cc bb aa ee ff = racah_sig aa bb cc dd ee ff.
Proof. exact (w6j_sig_e12 aa bb ee dd cc ff). Qed.

Lemma racah_sig_pairs aa bb cc dd ee ff :
  racah_sig cc dd aa bb ee ff = racah_sig aa bb cc dd ee ff.
Proof. now rewrite (racah_sig_G1 dd cc bb aa ee ff), racah_sig_reverse. Qed.

Lemma Racah_same aa bb cc dd ee ff aa' bb' cc' dd' ee' ff' prec :
  racah_sig aa' bb' cc' dd' ee' ff' = racah_sig aa bb cc dd ee ff ->
  aa' + bb' + cc' + dd' == aa + bb + cc + dd ->
  same_result (Racah aa bb cc dd ee ff prec)
              (Racah aa' bb' cc' dd' ee' ff' prec).
Proof.
  intros H S.
  pose proof (Racah_cases aa bb cc dd ee ff prec) as C1.
  pose proof (Racah_cases aa' bb' cc' dd' ee' ff' prec) as C2.
  unfold racah_sig in H. injection H as H1 H2 H3.
  rewrite H1, H2, H3, (int_Qeq S) in C2. unfold same_result.
  destruct (Racah aa bb cc dd ee ff prec),
    (Racah aa' bb' cc' dd' ee' ff' prec);
    destruct C1 as [A1 B1], C2 as [A2 B2]; congruence.
Qed.

(** X14.  On a table that satisfies the invariant, with [prec=None],
    [racah(aa,bb,cc,dd,ee,ff)] has the same result, the same exception or
    the same value, as [racah(bb,aa,dd,cc,ee,ff)],
    [racah(cc,dd,aa,bb,ee,ff)], [racah(dd,cc,bb,aa,ee,ff)] and
    [racah(aa,cc,bb,dd,ff,ee)]. *)
Theorem racah_symmetries (F : Factlist) (aa bb cc dd ee ff : Q) :
  Factlist_ok F ->
  let W a b c d e f := run (racah a b c d e f None) F in
  let w := W aa bb cc dd ee ff in
  same_result w (W bb aa dd cc ee ff)
  /\ same_result w (W cc dd aa bb ee ff)
  /\ same_result w (W dd cc bb aa ee ff)
  /\ same_result w (W aa cc bb dd ff ee).
Proof.
  intros HF W w. subst w W. cbn beta. rewrite !racah_value by assumption.
  repeat split; apply Racah_same; try ring.
  - apply racah_sig_G1.
  - apply racah_sig_pairs.
  - apply racah_sig_reverse.
  - apply racah_sig_G3.
Qed.

Lemma racah_symmetries_witness :
  exists v v',
    run (racah 1 2 3 2 2 3 None) _Factlist_init = Ok v
    /\ run (racah 2 3 2 1 2 3 None) _Factlist_init = Ok v'
    /\ exact_value v = exact_value v'.
Proof.
  pose proof (proj1 (proj2 (proj2 (@racah_symmetries _Factlist_init
                                     1 2 3 2 2 3 Factlist_init_ok))))
    as H.
  cbv zeta in H.
  destruct (run (racah 1 2 3 2 2 3 None) _Factlist_init) as [v|e] eqn:E1;
    [|vm_compute in E1; discriminate E1].
  destruct (run (racah 2 3 2 1 2 3 None) _Factlist_init) as [v'|e] eqn:E2;
    [|clear E1; vm_compute in E2; discriminate E2].
  exists v, v'. repeat split. exact H.
Defined.

(** ** Reflections of the 9-j symbol *)

(** The three Racah coefficients of a term of the 9-j sum may be replaced by
    coefficients with the same results, in the opposite order. *)
Lemma Wigner9j_term_same k (A B C A' B' C' : res sym) :
  (forall e, A = Raise e -> e = TriangleValueError) ->
  (forall e, B = Raise e -> e = TriangleValueError) ->
  (forall e, C = Raise e -> e = TriangleValueError) ->
  same_result A A' -> same_result B B' -> same_result C C' ->
  same_result
    (res_bind A (fun r1 => res_bind B (fun r2 => res_bind C (fun r3 =>
       Ok (SMul (SMul (SMul (SQ (inject_Z (2 * k + 1))) r1) r2) r3)))))
    (res_bind C' (fun r1 => res_bind B' (fun r2 => res_bind A' (fun r3 =>
       Ok (SMul (SMul (SMul (SQ (inject_Z (2 * k + 1))) r1) r2) r3))))).
Proof.
  intros HA HB HC SA SB SC. unfold same_result in *.
  destruct A as [a|ea], A' as [a'|ea']; try contradiction;
    destruct B as [b|eb], B' as [b'|eb']; try contradiction;
    destruct C as [c|ec], C' as [c'|ec']; try contradiction;
    cbn [res_bind]; subst;
    rewrite ?(HA _ eq_refl), ?(HB _ eq_refl), ?(HC _ eq_refl);
    try reflexivity.
  cbn [exact_value]. rewrite SA, SB, SC. rlra.
Qed.

Lemma Wigner9j_term_same_order k (A B C A' B' C' : res sym) :
  same_result A A' -> same_result B B' -> same_result C C' ->
  same_result
    (res_bind A (fun r1 => res_bind B (fun r2 => res_bind C (fun r3 =>
       Ok (SMul (SMul (SMul (SQ (inject_Z (2 * k + 1))) r1) r2) r3)))))
    (res_bind A' (fun r1 => res_bind B' (fun r2 => res_bind C' (fun r3 =>
       Ok (SMul (SMul (SMul (SQ (inject_Z (2 * k + 1))) r1) r2) r3))))).
Proof.
  intros SA SB SC. unfold same_result in *.
  destruct A as [a|ea], A' as [a'|ea']; try contradiction;
    destruct B as [b|eb], B' as [b'|eb']; try contradiction;
    destruct C as [c|ec], C' as [c'|ec']; try contradiction;
    cbn [res_bind]; try assumption.
  cbn [exact_value]. now rewrite SA, SB, SC.
Qed.

Lemma res_fold_same (l : list Z) (t t' : Z -> res sym) :
  (forall k, In k l -> same_result (t k) (t' k)) ->
  forall a a', exact_value a = exact_value a' ->
  same_result
    (res_fold l (fun s k => res_bind (t k) (fun x => Ok (SAdd s x))) a)
    (res_fold l (fun s k => res_bind (t' k) (fun x => Ok (SAdd s x))) a').
Proof.
  induction l as [|x l IH]; intros H a a' Ha; cbn [res_fold].
  - exact Ha.
  - pose proof (H x (or_introl eq_refl)) as Hx. unfold same_result in Hx.
    destruct (t x) as [v|e], (t' x) as [v'|e']; try contradiction;
      cbn [res_bind].
    + apply IH.
      * intros k Hk. apply H. now right.
      * cbn [exact_value]. now rewrite Ha, Hx.
    + exact Hx.
Qed.

Lemma same_result_refl r : same_result r r.
Proof. now destruct r. Qed.

Lemma Wigner9j_transpose j_1 j_2 j_3 j_4 j_5 j_6 j_7 j_8 j_9 :
  same_result (Wigner9j j_1 j_2 j_3 j_4 j_5 j_6 j_7 j_8 j_9 None)
              (Wigner9j j_1 j_4 j_7 j_2 j_5 j_8 j_3 j_6 j_9 None).
Proof.
  unfold Wigner9j.
  assert (E : wigner_9j_imax j_1 j_4 j_2 j_8 j_6 j_9
              = wigner_9j_imax j_1 j_2 j_4 j_6 j_8 j_9).
  { unfold wigner_9j_imax. apply int_Qeq. Qmaxmin_cases; qlra. }
  rewrite E. apply res_fold_same; [|reflexivity].
  intros k _. unfold Wigner9j_term.
  apply Wigner9j_term_same; try apply Racah_raise.
  - apply same_result_refl.
  - apply Racah_same; [apply racah_sig_reverse | ring].
  - apply same_result_refl.
Qed.

Lemma Wigner9j_antitranspose j_1 j_2 j_3 j_4 j_5 j_6 j_7 j_8 j_9 :
  same_result (Wigner9j j_1 j_2 j_3 j_4 j_5 j_6 j_7 j_8 j_9 None)
              (Wigner9j j_9 j_6 j_3 j_8 j_5 j_2 j_7 j_4 j_1 None).
Proof.
  unfold Wigner9j.
  assert (E : wigner_9j_imax j_9 j_6 j_8 j_2 j_4 j_1
              = wigner_9j_imax j_1 j_2 j_4 j_6 j_8 j_9).
  { unfold wigner_9j_imax. apply int_Qeq. Qmaxmin_cases; qlra. }
  rewrite E. apply res_fold_same; [|reflexivity].
  intros k _. unfold Wigner9j_term.
  apply Wigner9j_term_same_order;
    (apply Racah_same; [apply racah_sig_pairs | ring]).
Qed.

Lemma wigner_9j_value F j_1 j_2 j_3 j_4 j_5 j_6 j_7 j_8 j_9 prec :
  Factlist_ok F ->
  run (wigner_9j j_1 j_2 j_3 j_4 j_5 j_6 j_7 j_8 j_9 prec) F
  = Wigner9j j_1 j_2 j_3 j_4 j_5 j_6 j_7 j_8 j_9 prec.
Proof.
  intros HF.
  destruct (wigner_9j_run j_1 j_2 j_3 j_4 j_5 j_6 j_7 j_8 j_9 prec HF)
    as (F' & H & _).
  exact (run_eq _ _ H).
Qed.

(** X15.  On a table that satisfies the invariant, with [prec=None],
    [wigner_9j] has the same result, the same exception or the same value,
    for the matrix of its nine arguments reflected in either diagonal:
    [(j_1,j_4,j_7, j_2,j_5,j_8, j_3,j_6,j_9)] and
    [(j_9,j_6,j_3, j_8,j_5,j_2, j_7,j_4,j_1)]. *)
Theorem wigner_9j_reflections (F : Factlist)
    (j_1 j_2 j_3 j_4 j_5 j_6 j_7 j_8 j_9 : Q) :
  Factlist_ok F ->
  let W a b c d e f g h i := run (wigner_9j a b c d e f g h i None) F in
  let w := W j_1 j_2 j_3 j_4 j_5 j_6 j_7 j_8 j_9 in
  same_result w (W j_1 j_4 j_7 j_2 j_5 j_8 j_3 j_6 j_9)
  /\ same_result w (W j_9 j_6 j_3 j_8 j_5 j_2 j_7 j_4 j_1).
Proof.
  intros HF W w. subst w W. cbn beta.
  rewrite !wigner_9j_value by assumption.
  split; [apply Wigner9j_transpose | apply Wigner9j_antitranspose].
Qed.

Lemma wigner_9j_reflections_witness :
  exists v v',
    run (wigner_9j 1 2 3 2 1 1 1 1 2 None) _Factlist_init = Ok v
    /\ run (wigner_9j 1 2 1 2 1 1 3 1 2 None) _Factlist_init = Ok v'
    /\ exact_value v = exact_value v'.
Proof.
  pose proof (proj1 (@wigner_9j_reflections _Factlist_init 1 2 3 2 1 1 1 1 2
                       Factlist_init_ok)) as H.
  cbv zeta in H.
  destruct (run (wigner_9j 1 2 3 2 1 1 1 1 2 None) _Factlist_init)
    as [v|e] eqn:E1; [|vm_compute in E1; discriminate E1].
  destruct (run (wigner_9j 1 2 1 2 1 1 3 1 2 None) _Factlist_init)
    as [v'|e] eqn:E2; [|clear E1; vm_compute in E2; discriminate E2].
  exists v, v'. repeat split. exact H.
Defined.

(** ** Closed forms with a zero column *)

(** X16.  The integral of [Y_(l,m) Y_(l,-m) Y_(0,0)]: on a table that
    satisfies the invariant, for integers [|m| <= l],
    [gaunt(l, l, 0, m, -m, 0)] returns a value that is
    [(-1)^m / (2 sqrt(pi))]. *)
Theorem gaunt_with_zero_degree (F : Factlist) (l m : Z) :
  Factlist_ok F -> (Z.abs m <= l)%Z ->
  returns (run (gaunt (inject_Z l) (inject_Z l) 0 (inject_Z m) (inject_Z (- m))
                      0 None) F)
          (Q2R (sgn m) / (2 * sqrt PI)).
Proof.
  intros HF Hm. rewrite gaunt_value by assumption.
  change 0 with (inject_Z 0). rewrite Gaunt_inject_Z. unfold GauntZ.
  assert (Hr : gaunt_rule_fails l l 0 m (- m) 0 = false).
  { destruct (gaunt_rule_fails l l 0 m (- m) 0) eqn:E; [|reflexivity].
    apply gaunt_rule_fails_true in E. exfalso.
    assert (O : Z.odd (l + l + 0) = false).
    { replace (l + l + 0)%Z with (2 * l)%Z by lia.
      now rewrite Z.odd_mul. }
    rewrite O in E. intuition (try discriminate; lia). }
  rewrite Hr. eexists. split; [reflexivity|]. cbn [exact_value].
  set (X := zfact (l - m) * zfact (l + m)).
  set (C := inject_Z (2 * l + 1)).
  assert (CP : 0 < C).
  { unfold C. change 0 with (inject_Z 0). rewrite <- Zlt_Qlt. lia. }
  assert (XP : 0 < X).
  { unfold X. apply Qmult_lt_0_compat; apply zfact_pos. }
  assert (CN : ~ C == 0) by (intros E; rewrite E in CP; now apply Qlt_irrefl in CP).
  assert (XN : ~ X == 0) by (intros E; rewrite E in XP; now apply Qlt_irrefl in XP).
  assert (Hrad : gaunt_radicand_num l l 0 m (- m) 0 == (C * X) * (C * X)).
  { unfold gaunt_radicand_num, X, C.
    replace (l - - m)%Z with (l + m)%Z by lia.
    replace (l + - m)%Z with (l - m)%Z by lia.
    change (zfact (0 - 0)) with 1. change (zfact (0 + 0)) with 1.
    change (inject_Z (2 * 0 + 1)) with 1. ring. }
  assert (Hpre : gaunt_prefac l l 0 == 1 / C).
  { unfold gaunt_prefac, C.
    replace ((l + l + 0) / 2)%Z with l
      by (replace (l + l + 0)%Z with (l * 2)%Z by lia;
          now rewrite Z.div_mul).
    replace (l - l + 0)%Z with 0%Z by lia.
    replace (l + l - 0)%Z with (2 * l)%Z by lia.
    replace (l - l)%Z with 0%Z by lia.
    replace (l - 0)%Z with l by lia.
    rewrite zfact_0, (zfact_succ (n := 2 * l)) by lia.
    field. repeat split; try apply zfact_neq0.
    change 0 with (inject_Z 0). rewrite inject_Z_injective. lia. }
  assert (Hsum : Qsum (gaunt_imin l l 0 m (- m)) (gaunt_imax l l 0 m (- m))
                      (gaunt_term l l 0 m (- m))
                 == sgn (l - m) / X).
  { unfold gaunt_imin, gaunt_imax.
    replace (Z.max (Z.max (- 0 + l + - m) (- 0 + l - m)) 0) with (l - m)%Z
      by lia.
    replace (Z.min (Z.min (l + - m) (l - m)) (l + l - 0)) with (l - m)%Z
      by lia.
    rewrite Qsum_single. unfold gaunt_term, X.
    replace (l - m + 0 - l - - m)%Z with 0%Z by lia.
    replace (l + - m - (l - m))%Z with 0%Z by lia.
    replace (l - (l - m) - m)%Z with 0%Z by lia.
    replace (l - m + 0 - l + m)%Z with 0%Z by lia.
    replace (l + l - 0 - (l - m))%Z with (l + m)%Z by lia.
    rewrite zfact_0. field. split; apply zfact_neq0. }
  assert (Hsign : gaunt_sign l l 0 m (- m) = sgn l).
  { unfold gaunt_sign.
    replace ((l + l + 0) / 2)%Z with l
      by (replace (l + l + 0)%Z with (l * 2)%Z by lia;
          now rewrite Z.div_mul).
    apply (@sgn_even_diff _ _ m). lia. }
  rewrite (Qeq_eqR _ _ Hrad), (Qeq_eqR _ _ Hpre), (Qeq_eqR _ _ Hsum), Hsign.
  assert (S : (Q2R (sgn (l - m)) * Q2R (sgn l) = Q2R (sgn m))%R).
  { rewrite <- Q2R_mult. apply Qeq_eqR. rewrite <- sgn_add.
    now rewrite (@sgn_even_diff (l - m + l) m (l - m)) by lia. }
  rewrite <- S.
  rewrite (Q2R_div 1), (Q2R_div (sgn (l - m))), Q2R_1, !Q2R_mult by assumption.
  apply Q2R_pos in CP, XP.
  replace (Q2R 4) with (2 * 2)%R by (unfold Q2R; simpl; rlra).
  pose proof PI_RGT_0 as Hpi.
  assert (SP : (0 < sqrt PI)%R) by now apply sqrt_lt_R0.
  assert (P4 : (0 < 2 * 2 * PI)%R) by (apply Rmult_lt_0_compat; rlra).
  assert (PX : (0 <= Q2R C * Q2R X)%R) by (apply Rmult_le_pos; rlra).
  rewrite sqrt_div_alt by assumption.
  rewrite sqrt_square by assumption.
  rewrite sqrt_mult by rlra. rewrite sqrt_square by rlra.
  field. repeat split; rlra.
Qed.

Lemma gaunt_with_zero_degree_witness :
  returns (run (gaunt (inject_Z 1) (inject_Z 1) 0 (inject_Z 1)
                      (inject_Z (- (1))) 0 None) _Factlist_init)
          (Q2R (sgn 1) / (2 * sqrt PI)).
Proof.
  apply (@gaunt_with_zero_degree _Factlist_init 1 1 Factlist_init_ok).
  simpl. lia.
Defined.

(** X17.  The 3-j symbol with a zero column: on a table that satisfies
    the invariant, for [j - m] and [j + m] non-negative integers,
    [wigner_3j(j, j, 0, m, -m, 0)] returns a value that is
    [(-1)^(j-m) / sqrt(2j+1)]. *)
Theorem wigner_3j_with_zero_j (F : Factlist) (j_1 j_2 j_3 m_1 m_2 m_3 : Q)
    (p q : Z) :
  Factlist_ok F ->
  j_1 - m_1 == inject_Z p -> j_1 + m_1 == inject_Z q ->
  (0 <= p)%Z -> (0 <= q)%Z ->
  j_2 == j_1 -> m_2 == - m_1 -> j_3 == 0 -> m_3 == 0 ->
  returns (run (wigner_3j j_1 j_2 j_3 m_1 m_2 m_3 None) F)
          (Q2R (sgn p) / sqrt (Q2R (2 * j_1 + 1))).
Proof.
  intros HF P Q P0 Q0 J2 M2 J3 M3.
  rewrite wigner_3j_value by assumption.
  rewrite (@Wigner3j_integers j_1 j_2 j_3 m_1 m_2 m_3 p q 0 q p 0 None);
    try (change (inject_Z 0) with 0; qlra).
  unfold W3jZ.
  assert (OK : w3jZ_ok p q 0 q p 0 = true).
  { unfold w3jZ_ok. rewrite !andb_true_iff, !Z.leb_le, Z.eqb_eq. lia. }
  rewrite OK. eexists. split; [reflexivity|]. cbn [exact_value].
  set (X := zfact p * zfact q).
  set (C := inject_Z (p + q + 1)).
  assert (CP : 0 < C).
  { unfold C. change 0 with (inject_Z 0). rewrite <- Zlt_Qlt. lia. }
  assert (XP : 0 < X).
  { unfold X. apply Qmult_lt_0_compat; apply zfact_pos. }
  assert (CN : ~ C == 0)
    by (intros E; rewrite E in CP; now apply Qlt_irrefl in CP).
  assert (XN : ~ X == 0)
    by (intros E; rewrite E in XP; now apply Qlt_irrefl in XP).
  assert (Hrad : w3jZ_radicand p q 0 q p 0 == X * X / C).
  { unfold w3jZ_radicand, X, C.
    replace (p + q - 0)%Z with (p + q)%Z by lia.
    replace (p + 0 - p)%Z with 0%Z by lia.
    replace (q + 0 - q)%Z with 0%Z by lia.
    replace (p + q + 0 + 1)%Z with (p + q + 1)%Z by lia.
    rewrite zfact_0, (zfact_succ (n := p + q)) by lia.
    field. repeat split; try apply zfact_neq0.
    change 0 with (inject_Z 0). rewrite inject_Z_injective. lia. }
  assert (Hsum : w3jZ_sum p q 0 q p 0 == sgn p / X).
  { unfold w3jZ_sum.
    replace (Z.max (Z.max (p - 0) (p - 0)) 0) with p by lia.
    replace (Z.min (Z.min p p) (p + q - 0)) with p by lia.
    rewrite Qsum_single. unfold w3jZ_term, X.
    replace (p + (0 - p))%Z with 0%Z by lia.
    replace (p - p)%Z with 0%Z by lia.
    replace (p + q - 0 - p)%Z with q by lia.
    rewrite zfact_0. field. split; apply zfact_neq0. }
  assert (Hc : 2 * j_1 + 1 == C).
  { unfold C. rewrite !inject_Z_plus. change (inject_Z 1) with 1. qlra. }
  rewrite (Qeq_eqR _ _ Hrad), (Qeq_eqR _ _ Hsum), (Qeq_eqR _ _ Hc).
  replace (q - q)%Z with 0%Z by lia. change (sgn 0) with 1.
  rewrite (Q2R_div (X * X)), (Q2R_div (sgn p)), Q2R_mult, Q2R_1
    by assumption.
  apply Q2R_pos in CP, XP.
  assert (SP : (0 < sqrt (Q2R C))%R) by now apply sqrt_lt_R0.
  rewrite sqrt_div_alt by assumption.
  rewrite sqrt_square by rlra.
  field. split; rlra.
Qed.

Lemma wigner_3j_with_zero_j_witness :
  returns (run (wigner_3j (3 # 2) (3 # 2) 0 (1 # 2) (- (1 # 2)) 0 None)
               _Factlist_init)
          (Q2R (sgn 1) / sqrt (Q2R (2 * (3 # 2) + 1))).
Proof.
  apply (@wigner_3j_with_zero_j _Factlist_init (3 # 2) (3 # 2) 0
           (1 # 2) (- (1 # 2)) 0 1 2 Factlist_init_ok);
    first [reflexivity | lia].
Defined.
